(** * MediaPlayer (src/components/audio-player.tsx)

    A shallow embedding of the React component [MediaPlayer]: its hook
    state, the native [<video>] element it drives through [videoRef], the
    event handlers, the track-change [useEffect] and [formatTime].

    JavaScript numbers are IEEE 754 binary64 values; they are modelled by
    the Standard Library's executable specification [SpecFloat] at
    [prec = 53], [emax = 1024], so that [/], [*], [%], [Math.floor] and the
    rendering of a number in a template literal round and print as they do
    in an engine.

    React is modelled as it schedules this component: an event handler
    runs as a closure over the state of the latest render and queues its
    state updates; the component then renders again and the effect runs if
    one of its dependencies changed, after the cleanup of its previous
    run.  Events are handled one at a time, [play()] is taken to succeed,
    and the [<video>] element stays mounted. *)

From Stdlib Require Import ZArith QArith Qpower Qround Qabs Lia Lqa Bool List String Ascii.
From Stdlib Require Import Floats.SpecFloat.
Import ListNotations.

Local Open Scope string_scope.
Local Open Scope Z_scope.

(** ** JavaScript numbers *)

Module Js.

Definition prec : Z := 53.
Definition emax : Z := 1024.

Definition number : Type := spec_float.

Definition NaN : number := S754_nan.
Definition Infinity : number := S754_infinity false.
Definition zero : number := S754_zero false.

(** The Number value for an integer [z]: the double nearest to [z]. *)
Definition of_Z (z : Z) : number := binary_normalize prec emax z 0 false.

Definition is_nan (x : number) : bool :=
  match x with S754_nan => true | _ => false end.

Definition is_finite (x : number) : bool :=
  match x with S754_zero _ | S754_finite _ _ _ => true | _ => false end.

(** A well-formed double: the mantissa and exponent of a finite value are
    the canonical ones of binary64. *)
Definition valid (x : number) : bool := valid_binary prec emax x.

(** The rational a finite double denotes (0 for NaN and the infinities). *)
Definition to_Q (x : number) : Q :=
  match x with
  | S754_finite s m e => inject_Z (if s then Z.neg m else Z.pos m) * 2 ^ e
  | _ => 0
  end%Q.

Definition div : number -> number -> number := SFdiv prec emax.
Definition mul : number -> number -> number := SFmul prec emax.
Definition add : number -> number -> number := SFadd prec emax.
Definition sub : number -> number -> number := SFsub prec emax.
Definition ltb : number -> number -> bool := SFltb.

(** [x === y] on numbers: NaN equals nothing, and the two zeros are equal. *)
Definition strict_equal : number -> number -> bool := SFeqb.

Definition sign (x : number) : bool :=
  match x with
  | S754_zero s | S754_infinity s | S754_finite s _ _ => s
  | S754_nan => false
  end.

(** [n % d] (ECMAScript Number::remainder): the remainder of the truncating
    division, computed exactly, with the sign of the dividend. *)
Definition rem (n d : number) : number :=
  match n, d with
  | S754_nan, _ | _, S754_nan => NaN
  | S754_infinity _, _ => NaN
  | _, S754_infinity _ => n
  | _, S754_zero _ => NaN
  | S754_zero _, _ => n
  | S754_finite sn mn en, S754_finite _ md ed =>
      let e := Z.min en ed in
      let a := Z.pos mn * 2 ^ (en - e) in
      let b := Z.pos md * 2 ^ (ed - e) in
      let r := a mod b in
      binary_normalize prec emax (if sn then - r else r) e sn
  end.

(** [Math.floor]. *)
Definition floor (x : number) : number :=
  match x with
  | S754_finite s m e =>
      match e with
      | Zneg p =>
          let v := (if s then Z.neg m else Z.pos m) in
          binary_normalize prec emax (v / 2 ^ Zpos p) 0 s
      | _ => x
      end
  | _ => x
  end.

(** Structural equality; on valid doubles it is the [SameValue] of
    ECMAScript (every value has one canonical representation). *)
Definition same (x y : number) : bool :=
  match x, y with
  | S754_nan, S754_nan => true
  | S754_zero a, S754_zero b => Bool.eqb a b
  | S754_infinity a, S754_infinity b => Bool.eqb a b
  | S754_finite a m e, S754_finite b m' e' =>
      Bool.eqb a b && Pos.eqb m m' && Z.eqb e e'
  | _, _ => false
  end.

(** *** Number::toString *)

Definition digit_char (d : Z) : ascii := ascii_of_nat (48 + Z.to_nat d).

Fixpoint numeral_fuel (fuel : nat) (n : Z) (acc : string) : string :=
  match fuel with
  | O => acc
  | S fuel' =>
      let acc' := String (digit_char (n mod 10)) acc in
      if n <? 10 then acc' else numeral_fuel fuel' (n / 10) acc'
  end.

(** The decimal numeral of a non-negative integer, without leading zeros. *)
Definition numeral (n : Z) : string :=
  numeral_fuel (S (Z.to_nat (Z.log2 n))) n EmptyString.

Fixpoint zeros (n : nat) : string :=
  match n with
  | O => EmptyString
  | S n' => String "0" (zeros n')
  end.

(** The double nearest to the positive rational [p / q]. *)
Definition round_ratio (p q : Z) : number :=
  let '(mz, ez, lz) := SFdiv_core_binary prec emax p 0 q 0 in
  binary_round_aux prec emax false mz ez lz.

(** The double nearest to [s * 10 ^ t]. *)
Definition of_decimal (s t : Z) : number :=
  if 0 <=? t then of_Z (s * 10 ^ t) else round_ratio s (10 ^ (- t)).

(** [x = num / den] for a positive finite double. *)
Definition ratio (m : positive) (e : Z) : Z * Z :=
  if 0 <=? e then (Z.pos m * 2 ^ e, 1) else (Z.pos m, 2 ^ (- e)).

Fixpoint digits10_fuel (fuel : nat) (n : Z) : Z :=
  match fuel with
  | O => 1
  | S fuel' => if n <? 10 then 1 else 1 + digits10_fuel fuel' (n / 10)
  end.

(** The number of decimal digits of a positive integer. *)
Definition digits10 (n : Z) : Z := digits10_fuel (Z.to_nat (Z.log2 n)) n.

(** The [n] with [10 ^ (n - 1) <= num / den < 10 ^ n]: the number of
    digits of the integer part when there is one, else minus the number of
    zeros that follow the decimal point. *)
Definition magnitude10 (num den : Z) : Z :=
  if den <=? num then digits10 (num / den)
  else 1 - digits10 ((den + num - 1) / num - 1).

(** [floor (num / den * 10 ^ t)]. *)
Definition scaled_floor (num den t : Z) : Z :=
  if 0 <=? t then (num * 10 ^ t) / den else num / (den * 10 ^ (- t)).

(** [compare (2 * num / den * 10 ^ t) c]. *)
Definition scaled_twice_compare (num den t c : Z) : comparison :=
  if 0 <=? t then (2 * num * 10 ^ t ?= c * den)
  else (2 * num ?= c * den * 10 ^ (- t)).

(** The digits [s], their count [k] and the decimal exponent [n] of step 5
    of Number::toString: [k] is as small as possible with
    [10 ^ (k - 1) <= s < 10 ^ k] and [s * 10 ^ (n - k)] rounding to [x];
    of two such [s] the one nearer to [x] is taken, the even one on a tie. *)
Fixpoint shortest (fuel : nat) (k : Z) (x : number) (num den n : Z) : Z * Z * Z :=
  let lo := scaled_floor num den (k - n) in
  let hi := lo + 1 in
  let '(hi', nhi) := if hi =? 10 ^ k then (10 ^ (k - 1), n + 1) else (hi, n) in
  let oklo := same (of_decimal lo (n - k)) x in
  let okhi := same (of_decimal hi' (nhi - k)) x in
  let pick_lo := (lo, k, n) in
  let pick_hi := (hi', k, nhi) in
  match fuel with
  | O => pick_lo
  | S fuel' =>
      if oklo && okhi then
        match scaled_twice_compare num den (k - n) (lo + hi) with
        | Lt => pick_lo
        | Gt => pick_hi
        | Eq => if Z.even lo then pick_lo else pick_hi
        end
      else if oklo then pick_lo
      else if okhi then pick_hi
      else shortest fuel' (k + 1) x num den n
  end.

Definition exponent_suffix (e : Z) : string :=
  (if e <? 0 then "e-" else "e+") ++ numeral (Z.abs e).

Definition positive_toString (m : positive) (e : Z) : string :=
  let '(num, den) := ratio m e in
  let '(s, k, n) :=
    shortest 17 1 (S754_finite false m e) num den (magnitude10 num den) in
  let ds := numeral s in
  if (k <=? n) && (n <=? 21) then
    ds ++ zeros (Z.to_nat (n - k))
  else if (0 <? n) && (n <=? 21) then
    substring 0 (Z.to_nat n) ds ++ "." ++ substring (Z.to_nat n) (Z.to_nat (k - n)) ds
  else if (-6 <? n) && (n <=? 0) then
    "0." ++ zeros (Z.to_nat (- n)) ++ ds
  else if k =? 1 then
    ds ++ exponent_suffix (n - 1)
  else
    substring 0 1 ds ++ "." ++ substring 1 (Z.to_nat (k - 1)) ds ++ exponent_suffix (n - 1).

(** [Number::toString(x)] in radix 10, as a template literal renders a
    number. *)
Definition toString (x : number) : string :=
  match x with
  | S754_nan => "NaN"
  | S754_zero _ => "0"
  | S754_infinity s => if s then "-Infinity" else "Infinity"
  | S754_finite s m e =>
      (if s then "-" else "") ++ positive_toString m e
  end.

End Js.

(** ** The component's data *)

(** [interface VideoTrack]. *)
Record VideoTrack := mkTrack { title : string; src : string }.

(** A [File] of the file picker's [FileList]. *)
Record File := mkFile { name : string }.

(** [URL.createObjectURL] mints a fresh URL on every call; [id] is the
    identity it allocates. *)
Definition createObjectURL (id : nat) (f : File) : string :=
  "blob:" ++ Js.numeral (Z.of_nat id).

(** The value held by [currentTrackIndex].  It only ever receives [0] and
    [(prevIndex + 1) % tracks.length], that is, a non-negative integer or
    NaN, the remainder by a zero length.  Double arithmetic is exact on
    these integers, array lengths being below 2^32: see
    [index_arithmetic_exact]. *)
Inductive TrackIndex := Index (i : nat) | IndexNaN.

(** [prevIndex + 1]. *)
Definition index_succ (i : TrackIndex) : TrackIndex :=
  match i with
  | Index i => Index (S i)
  | IndexNaN => IndexNaN
  end.

(** [i % len]: NaN when the divisor is zero. *)
Definition index_rem (i : TrackIndex) (len : nat) : TrackIndex :=
  match i, len with
  | IndexNaN, _ => IndexNaN
  | Index _, O => IndexNaN
  | Index i, S _ => Index (Nat.modulo i len)
  end.

(** The double that holds an index value. *)
Definition index_number (i : TrackIndex) : Js.number :=
  match i with
  | Index i => Js.of_Z (Z.of_nat i)
  | IndexNaN => Js.NaN
  end.

(** [Object.is] on index values (NaN is the same value as NaN). *)
Definition index_is (i j : TrackIndex) : bool :=
  match i, j with
  | Index a, Index b => Nat.eqb a b
  | IndexNaN, IndexNaN => true
  | _, _ => false
  end.

(** [tracks[i]]: [undefined] (here [None]) out of range and at NaN. *)
Definition track_at (tracks : list VideoTrack) (i : TrackIndex) : option VideoTrack :=
  match i with
  | Index i => nth_error tracks i
  | IndexNaN => None
  end.

(** The values of the eight [useState] hooks.  [tracksRef] is the identity
    of the array object held by [tracks]: the effect's dependency list
    compares it with [Object.is]. *)
Record State := mkState {
  isPlaying : bool;
  isMuted : bool;
  progress : Js.number;
  currentTime : Js.number;
  duration : Js.number;
  playbackRate : Js.number;
  tracks : list VideoTrack;
  tracksRef : nat;
  currentTrackIndex : TrackIndex
}.

(** An [onLoadedData] closure: its identity as a function object and the
    [isPlaying] of the render that created it. *)
Record Listener := mkListener { listenerId : nat; closureIsPlaying : bool }.

(** The attributes of the native [<video>] element that the component
    reads or writes, and its registered "loadeddata" listeners. *)
Record HTMLVideoElement := mkVideo {
  elSrc : string;
  elPaused : bool;
  elMuted : bool;
  elCurrentTime : Js.number;
  elDuration : Js.number;
  elPlaybackRate : Js.number;
  elLoadedData : list Listener
}.

(** Commands issued to the native element. *)
Inductive Command :=
| Play
| Pause
| Load
| SetSrc (s : string)
| SetMuted (b : bool)
| SetCurrentTime (x : Js.number)
| SetPlaybackRate (r : Js.number)
| AddLoadedData (id : nat)
| RemoveLoadedData (id : nat).

(** The component instance: hook state, [videoRef.current], the commands
    issued so far (oldest first), the cleanup returned by the last run of
    the effect (it removes that run's listener), the dependency values of
    that run, and the allocator of object identities. *)
Record World := mkWorld {
  state : State;
  videoRef : option HTMLVideoElement;
  commands : list Command;
  effectCleanup : option Listener;
  effectDeps : option (TrackIndex * nat);
  nextId : nat
}.

Definition with_state (f : State -> State) (w : World) : World :=
  mkWorld (f (state w)) (videoRef w) (commands w) (effectCleanup w)
          (effectDeps w) (nextId w).

(** A method call or attribute write on [videoRef.current]; with a null
    reference ([videoRef.current?.m()]) nothing happens. *)
Definition on_video (f : HTMLVideoElement -> HTMLVideoElement) (c : Command)
    (w : World) : World :=
  match videoRef w with
  | Some v =>
      mkWorld (state w) (Some (f v)) (commands w ++ [c]) (effectCleanup w)
              (effectDeps w) (nextId w)
  | None => w
  end.

(** *** State setters *)

Definition setIsPlaying (b : bool) : World -> World :=
  with_state (fun s =>
    mkState b (isMuted s) (progress s) (currentTime s) (duration s)
            (playbackRate s) (tracks s) (tracksRef s) (currentTrackIndex s)).

Definition setIsMuted (b : bool) : World -> World :=
  with_state (fun s =>
    mkState (isPlaying s) b (progress s) (currentTime s) (duration s)
            (playbackRate s) (tracks s) (tracksRef s) (currentTrackIndex s)).

Definition setProgress (x : Js.number) : World -> World :=
  with_state (fun s =>
    mkState (isPlaying s) (isMuted s) x (currentTime s) (duration s)
            (playbackRate s) (tracks s) (tracksRef s) (currentTrackIndex s)).

Definition setCurrentTime (x : Js.number) : World -> World :=
  with_state (fun s =>
    mkState (isPlaying s) (isMuted s) (progress s) x (duration s)
            (playbackRate s) (tracks s) (tracksRef s) (currentTrackIndex s)).

Definition setDuration (x : Js.number) : World -> World :=
  with_state (fun s =>
    mkState (isPlaying s) (isMuted s) (progress s) (currentTime s) x
            (playbackRate s) (tracks s) (tracksRef s) (currentTrackIndex s)).

Definition setPlaybackRate (x : Js.number) : World -> World :=
  with_state (fun s =>
    mkState (isPlaying s) (isMuted s) (progress s) (currentTime s) (duration s)
            x (tracks s) (tracksRef s) (currentTrackIndex s)).

(** [setTracks(prev => f prev)]: the updater builds a new array object. *)
Definition setTracks (f : list VideoTrack -> list VideoTrack) (w : World) : World :=
  mkWorld
    (let s := state w in
     mkState (isPlaying s) (isMuted s) (progress s) (currentTime s) (duration s)
             (playbackRate s) (f (tracks s)) (nextId w) (currentTrackIndex s))
    (videoRef w) (commands w) (effectCleanup w) (effectDeps w) (S (nextId w)).

(** [setCurrentTrackIndex(prev => f prev)]. *)
Definition setCurrentTrackIndex (f : TrackIndex -> TrackIndex) : World -> World :=
  with_state (fun s =>
    mkState (isPlaying s) (isMuted s) (progress s) (currentTime s) (duration s)
            (playbackRate s) (tracks s) (tracksRef s) (f (currentTrackIndex s))).

(** *** The native element's methods *)

Definition video_play : World -> World :=
  on_video (fun v =>
    mkVideo (elSrc v) false (elMuted v) (elCurrentTime v) (elDuration v)
            (elPlaybackRate v) (elLoadedData v)) Play.

Definition video_pause : World -> World :=
  on_video (fun v =>
    mkVideo (elSrc v) true (elMuted v) (elCurrentTime v) (elDuration v)
            (elPlaybackRate v) (elLoadedData v)) Pause.

Definition video_set_src (s : string) : World -> World :=
  on_video (fun v =>
    mkVideo s (elPaused v) (elMuted v) (elCurrentTime v) (elDuration v)
            (elPlaybackRate v) (elLoadedData v)) (SetSrc s).

(** [load()]: the element's load algorithm pauses it, rewinds it, forgets
    the duration and restores the default playback rate. *)
Definition video_load : World -> World :=
  on_video (fun v =>
    mkVideo (elSrc v) true (elMuted v) Js.zero Js.NaN (Js.of_Z 1)
            (elLoadedData v)) Load.

Definition video_set_muted (b : bool) : World -> World :=
  on_video (fun v =>
    mkVideo (elSrc v) (elPaused v) b (elCurrentTime v) (elDuration v)
            (elPlaybackRate v) (elLoadedData v)) (SetMuted b).

Definition video_set_currentTime (x : Js.number) : World -> World :=
  on_video (fun v =>
    mkVideo (elSrc v) (elPaused v) (elMuted v) x (elDuration v)
            (elPlaybackRate v) (elLoadedData v)) (SetCurrentTime x).

Definition video_set_playbackRate (r : Js.number) : World -> World :=
  on_video (fun v =>
    mkVideo (elSrc v) (elPaused v) (elMuted v) (elCurrentTime v) (elDuration v)
            r (elLoadedData v)) (SetPlaybackRate r).

Definition has_listener (l : Listener) (ls : list Listener) : bool :=
  existsb (fun l' => Nat.eqb (listenerId l') (listenerId l)) ls.

(** [addEventListener("loadeddata", l)]: a function already registered is
    not registered twice. *)
Definition video_addEventListener (l : Listener) : World -> World :=
  on_video (fun v =>
    mkVideo (elSrc v) (elPaused v) (elMuted v) (elCurrentTime v) (elDuration v)
            (elPlaybackRate v)
            (if has_listener l (elLoadedData v) then elLoadedData v
             else elLoadedData v ++ [l]))
    (AddLoadedData (listenerId l)).

(** [removeEventListener("loadeddata", l)]. *)
Definition video_removeEventListener (l : Listener) : World -> World :=
  on_video (fun v =>
    mkVideo (elSrc v) (elPaused v) (elMuted v) (elCurrentTime v) (elDuration v)
            (elPlaybackRate v)
            (filter (fun l' => negb (Nat.eqb (listenerId l') (listenerId l)))
                    (elLoadedData v)))
    (RemoveLoadedData (listenerId l)).

(** ** Event handlers

    A handler runs as a closure over the state of the last render, [state w]
    of the world it is given; it writes to the element and to the hooks. *)

Definition togglePlayPause (w : World) : World :=
  match videoRef w with
  | Some _ =>
      let w1 := if isPlaying (state w) then video_pause w else video_play w in
      setIsPlaying (negb (isPlaying (state w))) w1
  | None => w
  end.

Definition toggleMute (w : World) : World :=
  match videoRef w with
  | Some _ =>
      let w1 := video_set_muted (negb (isMuted (state w))) w in
      setIsMuted (negb (isMuted (state w))) w1
  | None => w
  end.

Definition handleTimeUpdate (w : World) : World :=
  match videoRef w with
  | Some v =>
      let current := elCurrentTime v in
      let duration := elDuration v in
      let w1 := setCurrentTime current w in
      setProgress (Js.mul (Js.div current duration) (Js.of_Z 100)) w1
  | None => w
  end.

Definition handleLoadedMetadata (w : World) : World :=
  match videoRef w with
  | Some v => setDuration (elDuration v) w
  | None => w
  end.

(** [clientX] is the pointer's abscissa, [left] and [width] those of the
    progress bar's bounding rectangle. *)
Definition handleProgressClick (clientX left width : Js.number) (w : World) : World :=
  match videoRef w with
  | Some v =>
      let clickX := Js.sub clientX left in
      let newTime := Js.mul (Js.div clickX width) (elDuration v) in
      video_set_currentTime newTime w
  | None => w
  end.

Definition handlePlaybackRateChange (rate : Js.number) (w : World) : World :=
  match videoRef w with
  | Some _ => setPlaybackRate rate (video_set_playbackRate rate w)
  | None => w
  end.

(** [Array.from(files).map((file) => ({ title: file.name, src:
    URL.createObjectURL(file) }))]. *)
Fixpoint newTracks (id : nat) (files : list File) : list VideoTrack :=
  match files with
  | [] => []
  | f :: fs => mkTrack (name f) (createObjectURL id f) :: newTracks (S id) fs
  end.

Definition alloc (n : nat) (w : World) : World :=
  mkWorld (state w) (videoRef w) (commands w) (effectCleanup w) (effectDeps w)
          (n + nextId w).

(** [files] is [e.target.files], which may be null. *)
Definition handleFileUpload (files : option (list File)) (w : World) : World :=
  match files with
  | Some fs =>
      let new := newTracks (nextId w) fs in
      let w1 := alloc (List.length fs) w in
      let w2 := setTracks (fun prevTracks => (prevTracks ++ new)%list) w1 in
      let w3 := setCurrentTrackIndex (fun _ => Index 0) w2 in
      let w4 := setIsPlaying false w3 in
      let w5 := setProgress Js.zero w4 in
      setCurrentTime Js.zero w5
  | None => w
  end.

Definition playNextTrack (w : World) : World :=
  setCurrentTrackIndex
    (fun prevIndex => index_rem (index_succ prevIndex) (List.length (tracks (state w)))) w.

(** The rewind and fast-forward buttons. *)
Definition skip (delta : Js.number) (w : World) : World :=
  match videoRef w with
  | Some v => video_set_currentTime (Js.add (elCurrentTime v) delta) w
  | None => w
  end.

(** ** The track-change effect *)

Definition set_cleanup (c : option Listener) (w : World) : World :=
  mkWorld (state w) (videoRef w) (commands w) c (effectDeps w) (nextId w).

Definition set_deps (d : TrackIndex * nat) (w : World) : World :=
  mkWorld (state w) (videoRef w) (commands w) (effectCleanup w) (Some d) (nextId w).

(** The listener body: [if (isPlaying) videoRef.current?.play()], with the
    [isPlaying] its closure captured. *)
Definition onLoadedData (l : Listener) (w : World) : World :=
  if closureIsPlaying l then video_play w else w.

(** The body of [useEffect], a closure over the render that scheduled it;
    the cleanup it returns is recorded in [effectCleanup]. *)
Definition trackEffect (w : World) : World :=
  match videoRef w, track_at (tracks (state w)) (currentTrackIndex (state w)) with
  | Some _, Some track =>
      let l := mkListener (nextId w) (isPlaying (state w)) in
      let w1 := video_pause w in
      let w2 := video_set_src (src track) w1 in
      let w3 := video_load w2 in
      let w4 := setIsPlaying false w3 in
      let w5 := setProgress Js.zero w4 in
      let w6 := setCurrentTime Js.zero w5 in
      let w7 := video_addEventListener l w6 in
      set_cleanup (Some l) (alloc 1 w7)
  | _, _ => set_cleanup None w
  end.

(** The cleanup of the previous run:
    [videoRef.current?.removeEventListener("loadeddata", onLoadedData)]. *)
Definition run_cleanup (w : World) : World :=
  match effectCleanup w with
  | Some l => set_cleanup None (video_removeEventListener l w)
  | None => w
  end.

(** The dependency list [[currentTrackIndex, tracks]]. *)
Definition deps_of (s : State) : TrackIndex * nat :=
  (currentTrackIndex s, tracksRef s).

Definition deps_same (d : TrackIndex * nat) (o : option (TrackIndex * nat)) : bool :=
  match o with
  | Some d' => index_is (fst d) (fst d') && Nat.eqb (snd d) (snd d')
  | None => false
  end.

(** What React does after a handler returned: it renders with the new
    state and, when a dependency changed since the effect last ran, runs
    the previous cleanup and then the effect.  (The state the effect sets
    causes one more render, in which no dependency changed.) *)
Definition commit (w : World) : World :=
  let d := deps_of (state w) in
  if deps_same d (effectDeps w) then w
  else trackEffect (set_deps d (run_cleanup w)).

(** ** Events *)

Inductive Event :=
| ClickPlayPause
| ClickMute
| ClickProgress (clientX left width : Js.number)
| ClickRate (rate : Js.number)
| ClickRewind
| ClickForward
| ClickNext
| ChangeUpload (files : option (list File))
| TimeUpdate (current duration : Js.number)
| LoadedMetadata (duration : Js.number)
| LoadedData.

(** The element reports its playback position and duration. *)
Definition video_reports (current duration : Js.number) (w : World) : World :=
  match videoRef w with
  | Some v =>
      mkWorld (state w)
        (Some (mkVideo (elSrc v) (elPaused v) (elMuted v) current duration
                       (elPlaybackRate v) (elLoadedData v)))
        (commands w) (effectCleanup w) (effectDeps w) (nextId w)
  | None => w
  end.

Definition video_reports_duration (duration : Js.number) (w : World) : World :=
  match videoRef w with
  | Some v => video_reports (elCurrentTime v) duration w
  | None => w
  end.

(** The element dispatches "loadeddata" to its listeners, in registration
    order. *)
Definition fire_loadeddata (w : World) : World :=
  match videoRef w with
  | Some v => fold_left (fun w' l => onLoadedData l w') (elLoadedData v) w
  | None => w
  end.

Definition handle (e : Event) (w : World) : World :=
  match e with
  | ClickPlayPause => togglePlayPause w
  | ClickMute => toggleMute w
  | ClickProgress x l wd => handleProgressClick x l wd w
  | ClickRate r => handlePlaybackRateChange r w
  | ClickRewind => skip (Js.of_Z (-10)) w
  | ClickForward => skip (Js.of_Z 10) w
  | ClickNext => playNextTrack w
  | ChangeUpload files => handleFileUpload files w
  | TimeUpdate t d => handleTimeUpdate (video_reports t d w)
  | LoadedMetadata d => handleLoadedMetadata (video_reports_duration d w)
  | LoadedData => fire_loadeddata w
  end.

(** One turn of the event loop. *)
Definition dispatch (e : Event) (w : World) : World := commit (handle e w).

Definition run (es : list Event) (w : World) : World :=
  fold_left (fun w' e => dispatch e w') es w.

Definition initialState : State :=
  mkState false false Js.zero Js.zero Js.zero (Js.of_Z 1) [] 0 (Index 0).

Definition initialVideo : HTMLVideoElement :=
  mkVideo "" true false Js.zero Js.NaN (Js.of_Z 1) [].

(** The component after mounting: the [<video>] is attached to [videoRef]
    and the effect has run once. *)
Definition mounted : World :=
  commit (mkWorld initialState (Some initialVideo) [] None None 1).

Inductive reachable : World -> Prop :=
| reachable_mounted : reachable mounted
| reachable_dispatch e w : reachable w -> reachable (dispatch e w).

(** ** Rendering of times *)

Definition formatTime (time : Js.number) : string :=
  let minutes := Js.floor (Js.div time (Js.of_Z 60)) in
  let seconds := Js.floor (Js.rem time (Js.of_Z 60)) in
  Js.toString minutes ++ ":" ++
  (if Js.ltb seconds (Js.of_Z 10) then "0" else "") ++ Js.toString seconds.

(** The time display [{formatTime(currentTime)} / {formatTime(duration)}]. *)
Definition timeDisplay (s : State) : string :=
  formatTime (currentTime s) ++ " / " ++ formatTime (duration s).

(** ** The rest of the view *)

(** The width of the progress bar, [`${progress}%`]. *)
Definition progressWidth (s : State) : string := Js.toString (progress s) ++ "%".

Inductive Icon := PlayIcon | PauseIcon | Volume2Icon | VolumeXIcon.

Definition playPauseIcon (s : State) : Icon :=
  if isPlaying s then PauseIcon else PlayIcon.

Definition muteIcon (s : State) : Icon :=
  if isMuted s then VolumeXIcon else Volume2Icon.

(** [a || b] where [a] is a string or [undefined]: the empty string is
    falsy too. *)
Definition or_else (a : option string) (b : string) : string :=
  match a with
  | Some x => if String.eqb x "" then b else x
  | None => b
  end.

(** The title beside the upload button,
    [tracks[currentTrackIndex]?.title || ""]. *)
Definition titleDisplay (s : State) : string :=
  or_else (option_map title (track_at (tracks s) (currentTrackIndex s))) "".

(** The playback-speed buttons are built from [[0.5, 1, 1.5, 2]]. *)
Definition rates : list Js.number :=
  [Js.round_ratio 1 2; Js.of_Z 1; Js.round_ratio 3 2; Js.of_Z 2].

(** One speed button: its text [{rate}x], its class
    [`text-sm ${playbackRate === rate ? "text-blue-500" : "text-white"}`]
    and the event its click raises, [handlePlaybackRateChange(rate)]. *)
Record RateButton := mkRateButton {
  rbText : string;
  rbClassName : string;
  rbOnClick : Event
}.

Definition rateButtons (s : State) : list RateButton :=
  map (fun rate =>
         mkRateButton
           (Js.toString rate ++ "x")
           ("text-sm " ++
            (if Js.strict_equal (playbackRate s) rate then "text-blue-500"
             else "text-white"))
           (ClickRate rate))
      rates.

(** * Vocabulary of the statements *)

(** ** Worlds used as examples *)

Definition three_tracks : list VideoTrack :=
  [mkTrack "a.mp4" "blob:1"; mkTrack "b.mp4" "blob:2"; mkTrack "c.mp4" "blob:3"].

Definition playing_two_tracks : World :=
  run [ChangeUpload (Some [mkFile "a.mp4"; mkFile "b.mp4"]); ClickPlayPause] mounted.

(** ** Events, listeners and track changes *)

Definition is_LoadedMetadata (e : Event) : bool :=
  match e with LoadedMetadata _ => true | _ => false end.

(** The listeners registered after a command, given those registered
    before it. *)
Definition registered_step (regs : list nat) (c : Command) : list nat :=
  match c with
  | AddLoadedData id => if existsb (Nat.eqb id) regs then regs else regs ++ [id]
  | RemoveLoadedData id => filter (fun i => negb (Nat.eqb i id)) regs
  | _ => regs
  end.

(** The identities of the listeners registered once the commands [cs] have
    been issued to a fresh element. *)
Definition registered_after (cs : list Command) : list nat :=
  fold_left registered_step cs [].

(** [single_listener regs cs]: starting from [regs], at most one listener
    is registered after each command of [cs]. *)
Fixpoint single_listener (regs : list nat) (cs : list Command) : bool :=
  match cs with
  | [] => true
  | c :: cs' =>
      (List.length (registered_step regs c) <=? 1)%nat
      && single_listener (registered_step regs c) cs'
  end.

Definition cleanup_listeners (c : option Listener) : list Listener :=
  match c with
  | Some l => [l]
  | None => []
  end.

(** What holds of the mounted component between two turns of the event
    loop. *)
Record invariant (w : World) : Prop := mkInvariant {
  inv_video : exists v, videoRef w = Some v
    /\ elLoadedData v = cleanup_listeners (effectCleanup w)
    /\ registered_after (commands w) = map listenerId (elLoadedData v)
    /\ (forall l, effectCleanup w = Some l ->
          exists track,
            track_at (tracks (state w)) (currentTrackIndex (state w)) = Some track
            /\ elSrc v = src track);
  inv_deps : effectDeps w = Some (deps_of (state w));
  inv_fresh : (tracksRef (state w) < nextId w)%nat;
  inv_log : single_listener [] (commands w) = true
}.

(** What holds after a handler ran and before the commit. *)
Record pre_invariant (w : World) : Prop := mkPreInvariant {
  pre_video : exists v, videoRef w = Some v
    /\ elLoadedData v = cleanup_listeners (effectCleanup w)
    /\ registered_after (commands w) = map listenerId (elLoadedData v)
    /\ (deps_same (deps_of (state w)) (effectDeps w) = true ->
        forall l, effectCleanup w = Some l ->
          exists track,
            track_at (tracks (state w)) (currentTrackIndex (state w)) = Some track
            /\ elSrc v = src track);
  pre_fresh : (tracksRef (state w) < nextId w)%nat;
  pre_log : single_listener [] (commands w) = true
}.

(** The handler [h] changes the track: after it a dependency of the effect
    differs from the last run's, and the current index designates
    [track]. *)
Definition changes_track (h : World -> World) (w : World) (track : VideoTrack) : Prop :=
  deps_same (deps_of (state (h w))) (effectDeps (h w)) = false /\
  track_at (tracks (state (h w))) (currentTrackIndex (state (h w))) = Some track.

(** An unconditional auto-resume at one track change: if the player was
    playing before the event [e], then after [e] and the next "loadeddata"
    it is playing again and a play command was issued. *)
Definition resumes_after (e : Event) (w : World) : Prop :=
  isPlaying (state w) = true ->
  let w1 := dispatch e w in
  let w2 := dispatch LoadedData w1 in
  isPlaying (state w2) = true /\ commands w2 = (commands w1 ++ [Play])%list.

(** ** Rounding and rendering *)

(** The location of the remainder [r] within a step of width [D]. *)
Definition loc_of (r D : Z) : location :=
  if r =? 0 then loc_Exact else loc_Inexact (2 * r ?= D).

(** [mrs] is the truncation of the non-negative rational [N / D]: its
    mantissa is the integer part and its round and sticky bits locate the
    fractional part. *)
Definition represents (mrs : shr_record) (N D : Z) : Prop :=
  shr_m mrs = N / D /\ loc_of_shr_record mrs = loc_of (N mod D) D.

(** The result of [binary_round_aux] on the truncation [mx], with
    location [lx], of [N / D] at exponent [ex]: the nearest integer [m] to
    the same rational rescaled to the exponent of the format,
    renormalised when the rounding carried into a 54th digit. *)
Definition rounded (sx : bool) (m e : Z) : Js.number :=
  if m =? 0 then S754_zero sx
  else if m =? 2 ^ 53 then
    if e + 1 <=? 971 then S754_finite sx (2 ^ 52)%positive (e + 1)
    else S754_infinity sx
  else if e <=? 971 then S754_finite sx (Z.to_pos m) e
  else S754_infinity sx.

(** The unit roundoff of binary64 and half the smallest subnormal. *)
Definition u : Q := (2 ^ (-53))%Q.

Definition eta : Q := (2 ^ (-1075))%Q.

(** Two decimal digits. *)
Definition two_digits (n : Z) : string :=
  String (Js.digit_char (n / 10)) (String (Js.digit_char (n mod 10)) "").

(** What [formatTime] does with the seconds, on an integer. *)
Definition padded (n : Z) : string :=
  (if Js.ltb (Js.of_Z n) (Js.of_Z 10) then "0" else "") ++ Js.toString (Js.of_Z n).

Definition below_60 : list Z := map Z.of_nat (seq 0 60).

(** ** Events of the rendered view *)

(** An event the rendered view can raise: a speed click carries one of the
    four rates of the buttons. *)
Definition from_view (e : Event) : bool :=
  match e with
  | ClickRate r => existsb (Js.same r) rates
  | _ => true
  end.

(** The rate of the last speed click of [es], or [r0] when there is none. *)
Definition last_rate (es : list Event) (r0 : Js.number) : Js.number :=
  fold_left (fun r e => match e with ClickRate r' => r' | _ => r end) es r0.

(** The names of the files selected by the uploads of [es], in order. *)
Definition uploaded_names (es : list Event) : list string :=
  flat_map (fun e => match e with
                     | ChangeUpload (Some fs) => map name fs
                     | _ => []
                     end) es.

(** The events whose handlers write a dependency of the effect. *)
Definition writes_dependency (e : Event) : bool :=
  match e with
  | ClickNext | ChangeUpload (Some _) => true
  | _ => false
  end.

Definition highlighted (b : RateButton) : bool :=
  String.eqb (rbClassName b) "text-sm text-blue-500".

(** ** Commands and doubles *)

(** The rate last written to the element by the commands [cs], or [r0]. *)
Definition last_rate_written (cs : list Command) (r0 : Js.number) : Js.number :=
  fold_left (fun r c => match c with SetPlaybackRate r' => r' | _ => r end) cs r0.

(** A mantissa and exponent in the canonical form of binary64: at most 53
    digits, and exactly 53 unless the exponent is the least one. *)
Definition canonical (m : positive) (e : Z) : Prop :=
  Z.pos m < 2 ^ 53 /\ -1074 <= e <= 971 /\ (e = -1074 \/ 2 ^ 52 <= Z.pos m).

(** * Properties *)

(** ** Basic facts about the handlers and the effect *)

Section Frame.

Variable w : World.

Lemma commit_tracks : tracks (state (commit w)) = tracks (state w).
Proof.
  unfold commit. destruct (deps_same _ _); [reflexivity|].
  unfold trackEffect, run_cleanup.
  destruct w as [s [v|] cs [l|] dp nid]; simpl;
    destruct (track_at (tracks s) (currentTrackIndex s)); reflexivity.
Qed.

Lemma commit_currentTrackIndex :
  currentTrackIndex (state (commit w)) = currentTrackIndex (state w).
Proof.
  unfold commit. destruct (deps_same _ _); [reflexivity|].
  unfold trackEffect, run_cleanup.
  destruct w as [s [v|] cs [l|] dp nid]; simpl;
    destruct (track_at (tracks s) (currentTrackIndex s)); reflexivity.
Qed.

Lemma commit_frame :
  duration (state (commit w)) = duration (state w) /\
  playbackRate (state (commit w)) = playbackRate (state w) /\
  isMuted (state (commit w)) = isMuted (state w).
Proof.
  unfold commit. destruct (deps_same _ _); [auto|].
  unfold trackEffect, run_cleanup.
  destruct w as [s [v|] cs [l|] dp nid]; simpl;
    destruct (track_at (tracks s) (currentTrackIndex s)); auto.
Qed.

Lemma commit_videoRef_some : videoRef w <> None -> videoRef (commit w) <> None.
Proof.
  unfold commit. destruct (deps_same _ _); [auto|].
  unfold trackEffect, run_cleanup.
  destruct w as [s [v|] cs [l|] dp nid]; simpl; try congruence;
    destruct (track_at (tracks s) (currentTrackIndex s)); simpl; congruence.
Qed.

End Frame.

Lemma index_is_refl i : index_is i i = true.
Proof. destruct i; simpl; [apply Nat.eqb_refl | reflexivity]. Qed.

Lemma index_is_eq i j : index_is i j = true -> i = j.
Proof.
  destruct i, j; simpl; try discriminate; [|reflexivity].
  intros H. apply Nat.eqb_eq in H. congruence.
Qed.

(** After a commit the effect has run for the current dependencies. *)
Lemma commit_in_sync w :
  deps_same (deps_of (state (commit w))) (effectDeps (commit w)) = true.
Proof.
  unfold commit.
  destruct (deps_same (deps_of (state w)) (effectDeps w)) eqn:E; [exact E|].
  unfold trackEffect, run_cleanup.
  destruct w as [s [v|] cs [l|] dp nid]; simpl;
    destruct (track_at (tracks s) (currentTrackIndex s)); simpl;
    rewrite index_is_refl, Nat.eqb_refl; reflexivity.
Qed.

Lemma reachable_in_sync w :
  reachable w -> deps_same (deps_of (state w)) (effectDeps w) = true.
Proof. intros [|e w' _]; apply commit_in_sync. Qed.

Lemma handle_videoRef_some e w : videoRef w <> None -> videoRef (handle e w) <> None.
Proof.
  destruct w as [s [v|] cs cl dp nid];
    [intros _ | intros H; exfalso; apply H; reflexivity].
  destruct e; simpl; try discriminate.
  - destruct (isPlaying s); discriminate.
  - destruct files; discriminate.
  - unfold fire_loadeddata; simpl.
    set (w0 := mkWorld s (Some v) cs cl dp nid).
    assert (H0 : videoRef w0 <> None) by discriminate.
    clearbody w0. revert w0 H0.
    induction (elLoadedData v) as [|l ls IH]; intros w0 H0; simpl; [exact H0|].
    apply IH. unfold onLoadedData. destruct (closureIsPlaying l); [|exact H0].
    destruct w0 as [s0 [v0|] cs0 cl0 dp0 nid0]; simpl in *; congruence.
Qed.

(** The native element stays attached for the component's lifetime. *)
Lemma reachable_videoRef w : reachable w -> videoRef w <> None.
Proof.
  induction 1 as [|e w' _ IH].
  - discriminate.
  - apply commit_videoRef_some, handle_videoRef_some, IH.
Qed.


(** ** Play / pause *)

(** C7.  With a non-null [videoRef.current], two calls of
    [togglePlayPause] bring [isPlaying] back to its starting value and issue
    to the native element exactly one pause and one play, in the order that
    matches the starting state: pause then play when it was playing, play
    then pause when it was paused. *)
Theorem togglePlayPause_twice (w : World) (v : HTMLVideoElement) :
  videoRef w = Some v ->
  let w2 := togglePlayPause (togglePlayPause w) in
  isPlaying (state w2) = isPlaying (state w) /\
  isPlaying (state (togglePlayPause w)) = negb (isPlaying (state w)) /\
  commands w2 =
    (commands w ++ if isPlaying (state w) then [Pause; Play] else [Play; Pause])%list.
Proof.
  intros Hv. destruct w as [s vr cs cl dp nid]. simpl in Hv. subst vr.
  destruct s as [pl mu pr ct du ra tr tref ix].
  destruct pl; simpl; rewrite <- app_assoc; auto.
Qed.

Lemma togglePlayPause_twice_witness :
  let w := mounted in
  isPlaying (state (togglePlayPause (togglePlayPause w))) = false /\
  commands (togglePlayPause (togglePlayPause w)) = [Play; Pause].
Proof.
  destruct (togglePlayPause_twice mounted initialVideo eq_refl) as (H1 & _ & H3).
  split; [exact H1 | exact H3].
Defined.

(** On a mounted component the same holds for two clicks on the button. *)
Lemma click_play_pause_twice (w : World) :
  reachable w ->
  let w2 := run [ClickPlayPause; ClickPlayPause] w in
  isPlaying (state w2) = isPlaying (state w) /\
  commands w2 =
    (commands w ++ if isPlaying (state w) then [Pause; Play] else [Play; Pause])%list.
Proof.
  intros Hr. pose proof (reachable_in_sync w Hr) as Hs.
  pose proof (reachable_videoRef w Hr) as Hv.
  destruct w as [s [v|] cs cl dp nid]; [clear Hv|exfalso; apply Hv; reflexivity].
  destruct s as [pl mu pr ct du ra tr tref ix].
  unfold run, dispatch, commit, deps_of in *; simpl in *.
  destruct pl; simpl; rewrite Hs; simpl; rewrite Hs; simpl;
    rewrite <- app_assoc; auto.
Qed.

(** ** Next track *)

(** C4.  On a playlist of [n > 0] tracks at index [i], [playNextTrack]
    stores [(i + 1) mod n], which is again an index into the playlist; the
    playlist itself is untouched, and the commit that follows keeps the new
    index.  On three tracks at index 2 this is index 0. *)
Theorem playNextTrack_wraps (w : World) (i : nat) :
  tracks (state w) <> [] ->
  currentTrackIndex (state w) = Index i ->
  let n := List.length (tracks (state w)) in
  currentTrackIndex (state (playNextTrack w)) = Index ((i + 1) mod n) /\
  ((i + 1) mod n < n)%nat /\
  tracks (state (playNextTrack w)) = tracks (state w) /\
  currentTrackIndex (state (dispatch ClickNext w)) = Index ((i + 1) mod n).
Proof.
  intros Hne Hi n.
  assert (Hn : n <> 0%nat).
  { subst n. destruct (tracks (state w)); [congruence | discriminate]. }
  assert (H1 : currentTrackIndex (state (playNextTrack w)) = Index ((i + 1) mod n)).
  { unfold playNextTrack. fold n. destruct w as [s vr cs cl dp nid].
    simpl in *. rewrite Hi. simpl. destruct n; [congruence|].
    rewrite Nat.add_1_r. reflexivity. }
  repeat split.
  - exact H1.
  - apply Nat.mod_upper_bound; exact Hn.
  - unfold dispatch, handle. rewrite commit_currentTrackIndex. exact H1.
Qed.

Lemma playNextTrack_wraps_witness :
  let w := mkWorld
             (mkState false false Js.zero Js.zero Js.zero (Js.of_Z 1)
                      three_tracks 4 (Index 2))
             (Some initialVideo) [] None (Some (Index 2, 4%nat)) 5 in
  currentTrackIndex (state (playNextTrack w)) = Index 0.
Proof.
  intros w.
  assert (Hne : tracks (state w) <> []) by discriminate.
  exact (proj1 (playNextTrack_wraps w 2 Hne eq_refl)).
Defined.

(** While the playlist is non-empty the index designates one of its
    tracks, in every state the mounted component can reach. *)
Lemma reachable_index_in_range (w : World) :
  reachable w ->
  tracks (state w) <> [] ->
  exists i, currentTrackIndex (state w) = Index i /\
            (i < List.length (tracks (state w)))%nat.
Proof.
  induction 1 as [|e w Hr IH].
  - intros H; exfalso; apply H; reflexivity.
  - unfold dispatch. rewrite commit_tracks, commit_currentTrackIndex.
    destruct e; simpl;
      try (destruct w as [s [v|] cs cl dp nid]; simpl in *; exact IH).
    + destruct w as [s [v|] cs cl dp nid]; simpl in *;
        destruct (isPlaying s); simpl; exact IH.
    + intros Hne. destruct w as [s vr cs cl dp nid]; simpl in *.
      destruct (IH Hne) as (i & Hi & Hlt). rewrite Hi. simpl.
      destruct (List.length (tracks s)) as [|n] eqn:El; [lia|].
      eexists; split; [reflexivity|].
      apply Nat.mod_upper_bound. discriminate.
    + destruct files as [fs|]; [|exact IH].
      destruct w as [s vr cs cl dp nid]; simpl in *. intros Hne.
      exists 0%nat. split; [reflexivity|].
      destruct (tracks s ++ newTracks nid fs)%list; [congruence | simpl; lia].
    + unfold fire_loadeddata.
      destruct (videoRef w) as [v|] eqn:Ev; [|exact IH].
      assert (G : forall ls w0, state (fold_left (fun w' l => onLoadedData l w') ls w0)
                                = state w0).
      { induction ls as [|l ls IHl]; intros w0; simpl; [reflexivity|].
        rewrite IHl. unfold onLoadedData. destruct (closureIsPlaying l); [|reflexivity].
        destruct w0 as [s0 [v0|] cs0 cl0 dp0 nid0]; reflexivity. }
      rewrite G. exact IH.
Qed.

(** C3.  With an empty playlist [playNextTrack] computes [(0 + 1) % 0] and
    stores NaN as the current-track index: the index does change, and to a
    value that designates no track. *)
Theorem playNextTrack_empty_playlist :
  tracks (state mounted) = [] /\
  currentTrackIndex (state mounted) = Index 0 /\
  currentTrackIndex (state (playNextTrack mounted)) = IndexNaN /\
  currentTrackIndex (state (dispatch ClickNext mounted)) = IndexNaN.
Proof. repeat split. Qed.

(** The same on every world with an empty playlist. *)
Lemma playNextTrack_empty_is_NaN (w : World) :
  tracks (state w) = [] ->
  currentTrackIndex (state (playNextTrack w)) = IndexNaN.
Proof.
  intros He. destruct w as [s vr cs cl dp nid]; simpl in *. rewrite He.
  destruct (currentTrackIndex s); reflexivity.
Qed.

(** Once NaN, the index stays NaN under [playNextTrack] whatever the
    playlist. *)
Lemma playNextTrack_NaN_sticks (w : World) :
  currentTrackIndex (state w) = IndexNaN ->
  currentTrackIndex (state (playNextTrack w)) = IndexNaN.
Proof.
  intros He. destruct w as [s vr cs cl dp nid]; simpl in *. rewrite He.
  reflexivity.
Qed.

(** ** Upload *)

Lemma newTracks_titles (id : nat) (fs : list File) :
  map title (newTracks id fs) = map name fs.
Proof.
  revert id. induction fs as [|f fs IH]; intros id; simpl; [reflexivity|].
  rewrite IH. reflexivity.
Qed.

Lemma newTracks_length (id : nat) (fs : list File) :
  List.length (newTracks id fs) = List.length fs.
Proof.
  rewrite <- (length_map title), newTracks_titles. apply length_map.
Qed.

(** The state a world has after [handleFileUpload] and the commit that
    follows: the effect resets what the handler already reset. *)
Lemma upload_state (w : World) (fs : list File) :
  let w1 := handleFileUpload (Some fs) w in
  let w2 := dispatch (ChangeUpload (Some fs)) w in
  tracks (state w2) = tracks (state w1) /\
  currentTrackIndex (state w2) = currentTrackIndex (state w1) /\
  isPlaying (state w2) = isPlaying (state w1) /\
  currentTime (state w2) = currentTime (state w1) /\
  progress (state w2) = progress (state w1).
Proof.
  unfold dispatch, handle, commit.
  destruct (deps_same _ _); [repeat split|].
  unfold trackEffect, run_cleanup.
  destruct w as [s [v|] cs [l|] dp nid]; simpl;
    destruct (tracks s ++ newTracks nid fs)%list eqn:E; simpl; repeat split;
    assumption.
Qed.

Lemma handleFileUpload_resets (w : World) (fs : list File) :
  let w1 := handleFileUpload (Some fs) w in
  tracks (state w1) = (tracks (state w) ++ newTracks (nextId w) fs)%list /\
  currentTrackIndex (state w1) = Index 0 /\
  isPlaying (state w1) = false /\
  currentTime (state w1) = Js.zero /\
  progress (state w1) = Js.zero.
Proof. destruct w as [s vr cs cl dp nid]; repeat split. Qed.

(** C5.  Whatever the prior state, [handleFileUpload] appends to the
    playlist one track per selected file, in selection order and titled by
    the file's name, without removing duplicates: the old playlist is a
    prefix of the new one.  It sets the current-track index to 0,
    [isPlaying] to false, and [currentTime] and [progress] to 0; the commit
    that follows leaves all of this in place.  Uploading a.mp4 and b.mp4
    into the empty playlist yields the playlist a.mp4, b.mp4. *)
Theorem handleFileUpload_appends_and_resets (w : World) (fs : list File) :
  let w1 := handleFileUpload (Some fs) w in
  let w2 := dispatch (ChangeUpload (Some fs)) w in
  (tracks (state w1) = (tracks (state w) ++ newTracks (nextId w) fs)%list /\
   map title (tracks (state w1)) = (map title (tracks (state w)) ++ map name fs)%list /\
   List.length (tracks (state w1)) = (List.length (tracks (state w)) + List.length fs)%nat /\
   currentTrackIndex (state w1) = Index 0 /\
   isPlaying (state w1) = false /\
   currentTime (state w1) = Js.zero /\
   progress (state w1) = Js.zero) /\
  (tracks (state w2) = tracks (state w1) /\
   currentTrackIndex (state w2) = Index 0 /\
   isPlaying (state w2) = false /\
   currentTime (state w2) = Js.zero /\
   progress (state w2) = Js.zero) /\
  map title (tracks (state
     (dispatch (ChangeUpload (Some [mkFile "a.mp4"; mkFile "b.mp4"])) mounted)))
  = ["a.mp4"; "b.mp4"].
Proof.
  intros w1 w2.
  destruct (handleFileUpload_resets w fs) as (H1 & Hi & Hp & Hc & Hg).
  fold w1 in H1, Hi, Hp, Hc, Hg.
  destruct (upload_state w fs) as (U1 & U2 & U3 & U4 & U5).
  fold w1 w2 in U1, U2, U3, U4, U5.
  split; [|split].
  - repeat split; try assumption.
    + rewrite H1, map_app, newTracks_titles. reflexivity.
    + rewrite H1, length_app, newTracks_length. reflexivity.
  - repeat split; congruence.
  - reflexivity.
Qed.

(** Selecting the same file twice yields two tracks. *)
Example upload_keeps_duplicates :
  map title (tracks (state
    (run [ChangeUpload (Some [mkFile "a.mp4"]); ChangeUpload (Some [mkFile "a.mp4"])]
         mounted)))
  = ["a.mp4"; "a.mp4"].
Proof. reflexivity. Qed.

(** ** What leaves the stored duration, rate and mute flag alone *)

Lemma fire_loadeddata_state (w : World) : state (fire_loadeddata w) = state w.
Proof.
  unfold fire_loadeddata. destruct (videoRef w) as [v|]; [|reflexivity].
  generalize (elLoadedData v) as ls. intros ls. revert w.
  induction ls as [|l ls IH]; intros w; simpl; [reflexivity|].
  rewrite IH. unfold onLoadedData. destruct (closureIsPlaying l); [|reflexivity].
  destruct w as [s0 [v0|] cs0 cl0 dp0 nid0]; reflexivity.
Qed.

Lemma trackEffect_frame (w : World) :
  duration (state (trackEffect w)) = duration (state w) /\
  playbackRate (state (trackEffect w)) = playbackRate (state w) /\
  isMuted (state (trackEffect w)) = isMuted (state w).
Proof.
  unfold trackEffect.
  destruct w as [s [v|] cs cl dp nid]; simpl;
    destruct (track_at (tracks s) (currentTrackIndex s)); auto.
Qed.

Lemma handleFileUpload_frame (files : option (list File)) (w : World) :
  duration (state (handleFileUpload files w)) = duration (state w) /\
  playbackRate (state (handleFileUpload files w)) = playbackRate (state w) /\
  isMuted (state (handleFileUpload files w)) = isMuted (state w).
Proof. destruct files, w as [s vr cs cl dp nid]; simpl; auto. Qed.

Lemma handle_duration (e : Event) (w : World) :
  is_LoadedMetadata e = false ->
  duration (state (handle e w)) = duration (state w).
Proof.
  destruct e; simpl; try discriminate; intros _;
    try (destruct w as [s [v|] cs cl dp nid]; reflexivity).
  - destruct w as [s [v|] cs cl dp nid]; simpl; [destruct (isPlaying s)|]; reflexivity.
  - apply handleFileUpload_frame.
  - rewrite fire_loadeddata_state. reflexivity.
Qed.

Lemma formatTime_zero : formatTime Js.zero = "0:00".
Proof. vm_compute. reflexivity. Qed.

(** C10.  [handleFileUpload], the track-change effect and the whole turn
    of an upload leave the stored [duration], [playbackRate] and [isMuted]
    as they were.  No event other than "loadedmetadata" changes the stored
    duration, and that one stores the duration the element reports.  So
    after an upload the time display reads 0:00 against the previous
    track's duration. *)
Theorem upload_keeps_duration_rate_mute (w : World) (files : option (list File)) :
  (duration (state (handleFileUpload files w)) = duration (state w) /\
   playbackRate (state (handleFileUpload files w)) = playbackRate (state w) /\
   isMuted (state (handleFileUpload files w)) = isMuted (state w)) /\
  (duration (state (trackEffect w)) = duration (state w) /\
   playbackRate (state (trackEffect w)) = playbackRate (state w) /\
   isMuted (state (trackEffect w)) = isMuted (state w)) /\
  (duration (state (dispatch (ChangeUpload files) w)) = duration (state w) /\
   playbackRate (state (dispatch (ChangeUpload files) w)) = playbackRate (state w) /\
   isMuted (state (dispatch (ChangeUpload files) w)) = isMuted (state w)) /\
  (forall e, is_LoadedMetadata e = false ->
             duration (state (dispatch e w)) = duration (state w)) /\
  (forall d v, videoRef w = Some v ->
               duration (state (dispatch (LoadedMetadata d) w)) = d) /\
  (forall fs, timeDisplay (state (dispatch (ChangeUpload (Some fs)) w))
              = "0:00 / " ++ formatTime (duration (state w))).
Proof.
  pose proof (handleFileUpload_frame files w) as Hu.
  pose proof (trackEffect_frame w) as He.
  assert (Hd : duration (state (dispatch (ChangeUpload files) w)) = duration (state w) /\
               playbackRate (state (dispatch (ChangeUpload files) w)) = playbackRate (state w) /\
               isMuted (state (dispatch (ChangeUpload files) w)) = isMuted (state w)).
  { unfold dispatch, handle.
    destruct (commit_frame (handleFileUpload files w)) as (C1 & C2 & C3).
    destruct Hu as (U1 & U2 & U3). repeat split; congruence. }
  repeat split; try tauto.
  - intros e Hne. unfold dispatch.
    destruct (commit_frame (handle e w)) as (C1 & _). rewrite C1.
    apply handle_duration, Hne.
  - intros d v Hv. unfold dispatch.
    destruct (commit_frame (handle (LoadedMetadata d) w)) as (C1 & _). rewrite C1.
    destruct w as [s vr cs cl dp nid]; simpl in *. subst vr. reflexivity.
  - intros fs. unfold timeDisplay.
    destruct (upload_state w fs) as (_ & _ & _ & Hc & _).
    destruct (handleFileUpload_resets w fs) as (_ & _ & _ & Hc' & _).
    cbv zeta in Hc, Hc'. rewrite Hc, Hc', formatTime_zero.
    unfold dispatch, handle.
    destruct (commit_frame (handleFileUpload (Some fs) w)) as (C1 & _). rewrite C1.
    destruct (handleFileUpload_frame (Some fs) w) as (U1 & _). rewrite U1.
    reflexivity.
Qed.

(** ** The "loadeddata" listener *)

Lemma single_listener_app (regs : list nat) (cs ds : list Command) :
  single_listener regs (cs ++ ds) =
  single_listener regs cs && single_listener (fold_left registered_step cs regs) ds.
Proof.
  revert regs. induction cs as [|c cs IH]; intros regs; simpl; [reflexivity|].
  rewrite IH, andb_assoc. reflexivity.
Qed.

Lemma single_listener_prefix (regs : list nat) (cs ds : list Command) :
  (List.length regs <= 1)%nat ->
  single_listener regs (cs ++ ds) = true ->
  (List.length (fold_left registered_step cs regs) <= 1)%nat.
Proof.
  revert regs. induction cs as [|c cs IH]; intros regs Hl H; simpl in *; [exact Hl|].
  apply andb_true_iff in H. destruct H as (H1 & H2).
  apply IH; [apply Nat.leb_le, H1 | exact H2].
Qed.

Lemma deps_same_eq (d d' : TrackIndex * nat) :
  deps_same d (Some d') = true -> d = d'.
Proof.
  destruct d as [i r], d' as [i' r']; simpl. intros H.
  apply andb_true_iff in H. destruct H as (H1 & H2).
  apply index_is_eq in H1. apply Nat.eqb_eq in H2. congruence.
Qed.

Lemma deps_same_refl (d : TrackIndex * nat) : deps_same d (Some d) = true.
Proof. destruct d; simpl. rewrite index_is_refl, Nat.eqb_refl. reflexivity. Qed.

Lemma invariant_mounted : invariant mounted.
Proof.
  constructor; try reflexivity; [|simpl; lia].
  exists initialVideo. repeat split. discriminate.
Qed.

Lemma registered_after_snoc (cs : list Command) (c : Command) :
  registered_after (cs ++ [c]) = registered_step (registered_after cs) c.
Proof. unfold registered_after. rewrite fold_left_app. reflexivity. Qed.

Lemma single_listener_snoc (cs : list Command) (c : Command) :
  single_listener [] (cs ++ [c]) =
  single_listener [] cs
  && (List.length (registered_step (registered_after cs) c) <=? 1)%nat.
Proof.
  rewrite single_listener_app. simpl. rewrite andb_true_r. reflexivity.
Qed.

Ltac log_simpl :=
  repeat (rewrite ?registered_after_snoc, ?single_listener_snoc; simpl).

Lemma handle_pre_invariant (e : Event) (w : World) :
  invariant w -> pre_invariant (handle e w).
Proof.
  intros [(v & Hv & Hl & Hr & Hs) Hd Hf Hg].
  destruct w as [s vr cs cl dp nid]. simpl in *. subst vr dp.
  assert (Hlen : (List.length (map listenerId (elLoadedData v)) <= 1)%nat).
  { rewrite Hl. destruct cl; simpl; lia. }
  destruct e;
    unfold handle, togglePlayPause, toggleMute, handleProgressClick,
      handlePlaybackRateChange, skip, playNextTrack, handleFileUpload,
      handleTimeUpdate, handleLoadedMetadata; simpl;
    try (constructor; simpl; [eexists; split; [reflexivity|]; simpl| |];
         log_simpl; rewrite ?Hr, ?Hg; simpl;
         auto; try (apply Nat.leb_le; auto); fail).
  - (* play / pause *)
    destruct (isPlaying s); simpl;
    (constructor; simpl; [eexists; split; [reflexivity|]; simpl| |];
         log_simpl; rewrite ?Hr, ?Hg; simpl;
         auto; try (apply Nat.leb_le; auto)).
  - (* next *)
    constructor; simpl; auto.
    exists v. repeat split; auto.
    intros Hsame l Hc. apply andb_true_iff in Hsame.
    destruct Hsame as (Hsame & _). apply index_is_eq in Hsame.
    rewrite Hsame. apply (Hs l), Hc.
  - (* upload *)
    destruct files as [fs|]; simpl.
    + constructor; simpl; [|lia|auto].
      exists v. repeat split; auto.
      unfold deps_of; simpl. intros Hsame.
      apply andb_true_iff in Hsame. destruct Hsame as (_ & Hsame).
      apply Nat.eqb_eq in Hsame. lia.
    + constructor; simpl; auto.
      exists v. repeat split; auto.
  - (* loadeddata *)
    unfold fire_loadeddata. simpl. rewrite Hl.
    destruct cl as [l|]; simpl.
    + unfold onLoadedData. destruct (closureIsPlaying l); simpl.
      * constructor; simpl; [eexists; split; [reflexivity|]; simpl| |];
         log_simpl; rewrite ?Hr, ?Hg, ?Hl; simpl; auto.
      * constructor; simpl; auto. exists v. repeat split; auto.
    + constructor; simpl; auto. exists v. repeat split; auto.
Qed.

Lemma commit_invariant (w : World) : pre_invariant w -> invariant (commit w).
Proof.
  intros [(v & Hv & Hl & Hr & Hs) Hf Hg].
  unfold commit.
  destruct (deps_same (deps_of (state w)) (effectDeps w)) eqn:Esame.
  - constructor; auto.
    + exists v. specialize (Hs eq_refl). auto.
    + destruct (effectDeps w) as [d|]; [|discriminate].
      apply deps_same_eq in Esame. congruence.
  - clear Hs. destruct w as [s vr cs cl dp nid]. simpl in *. subst vr.
    unfold run_cleanup, trackEffect. simpl.
    destruct cl as [l|]; simpl in *;
      destruct (track_at (tracks s) (currentTrackIndex s)) as [track|] eqn:Et;
      simpl.
    + constructor; simpl; auto.
      * eexists. split; [reflexivity|]. simpl. rewrite Hl. simpl.
        rewrite Nat.eqb_refl. simpl.
        log_simpl. rewrite Hr, Hl. simpl. rewrite Nat.eqb_refl. simpl.
        repeat split. intros l' _. exists track. auto.
      * log_simpl. rewrite Hg, Hr, Hl. simpl. rewrite Nat.eqb_refl. reflexivity.
    + constructor; simpl; auto.
      * eexists. split; [reflexivity|]. simpl. rewrite Hl. simpl.
        rewrite Nat.eqb_refl. simpl.
        log_simpl. rewrite Hr, Hl. simpl. rewrite Nat.eqb_refl. simpl.
        repeat split. discriminate.
      * log_simpl. rewrite Hg, Hr, Hl. simpl. rewrite Nat.eqb_refl. reflexivity.
    + constructor; simpl; auto.
      * eexists. split; [reflexivity|]. simpl. rewrite Hl. simpl.
        log_simpl. rewrite Hr, Hl. simpl.
        repeat split. intros l' _. exists track. auto.
      * log_simpl. rewrite Hg, Hr, Hl. reflexivity.
    + constructor; simpl; auto.
      exists v. repeat split; auto. discriminate.
Qed.

Lemma reachable_invariant (w : World) : reachable w -> invariant w.
Proof.
  induction 1 as [|e w _ IH].
  - exact invariant_mounted.
  - apply commit_invariant, handle_pre_invariant, IH.
Qed.

(** C9.  In every state the mounted component reaches, through any
    sequence of uploads, next-track clicks and other events: at every point
    of the history of commands issued to the element at most one
    "loadeddata" listener is registered (the cleanup of the previous effect
    run removes its listener before the next run adds one); the element
    holds no listener but the one the latest effect run registered; and that
    run is the one that loaded the current track into the element, so a
    "loadeddata" notification can only reach the listener of the track that
    is current. *)
Theorem single_loadeddata_listener (w : World) :
  reachable w ->
  (forall cs1 cs2, commands w = (cs1 ++ cs2)%list ->
     (List.length (registered_after cs1) <= 1)%nat) /\
  exists v, videoRef w = Some v /\
    (List.length (elLoadedData v) <= 1)%nat /\
    registered_after (commands w) = map listenerId (elLoadedData v) /\
    (forall l, In l (elLoadedData v) ->
       effectCleanup w = Some l /\
       effectDeps w = Some (currentTrackIndex (state w), tracksRef (state w)) /\
       exists track,
         track_at (tracks (state w)) (currentTrackIndex (state w)) = Some track /\
         elSrc v = src track).
Proof.
  intros Hreach. destruct (reachable_invariant w Hreach) as [(v & Hv & Hl & Hr & Hs) Hd Hf Hg].
  split.
  - intros cs1 cs2 E. rewrite E in Hg.
    apply (single_listener_prefix [] cs1 cs2); [simpl; lia | exact Hg].
  - exists v. split; [exact Hv|]. split; [|split; [exact Hr|]].
    + rewrite Hl. destruct (effectCleanup w); simpl; lia.
    + intros l Hin. rewrite Hl in Hin.
      destruct (effectCleanup w) as [l'|] eqn:Ec; simpl in Hin; [|contradiction].
      destruct Hin as [<-|[]]. split; [reflexivity|]. split; [exact Hd|].
      apply (Hs l'). reflexivity.
Qed.

Lemma single_loadeddata_listener_witness :
  let w := run [ChangeUpload (Some [mkFile "a.mp4"; mkFile "b.mp4"]);
                ClickPlayPause; ClickNext; ClickNext] mounted in
  registered_after (commands w) = [6%nat] /\
  forall cs1 cs2, commands w = (cs1 ++ cs2)%list ->
    (List.length (registered_after cs1) <= 1)%nat.
Proof.
  intros w. split; [reflexivity|].
  assert (Hr : reachable w) by (unfold w; simpl; repeat constructor).
  exact (proj1 (single_loadeddata_listener w Hr)).
Defined.

(** ** Track change *)

(** What the commit does when the effect runs for a valid track. *)
Lemma commit_runs_effect (w : World) (v : HTMLVideoElement) (track : VideoTrack) :
  videoRef w = Some v ->
  elLoadedData v = cleanup_listeners (effectCleanup w) ->
  deps_same (deps_of (state w)) (effectDeps w) = false ->
  track_at (tracks (state w)) (currentTrackIndex (state w)) = Some track ->
  let l := mkListener (nextId w) (isPlaying (state w)) in
  isPlaying (state (commit w)) = false /\
  currentTime (state (commit w)) = Js.zero /\
  progress (state (commit w)) = Js.zero /\
  videoRef (commit w) =
    Some (mkVideo (src track) true (elMuted v) Js.zero Js.NaN (Js.of_Z 1) [l]) /\
  effectCleanup (commit w) = Some l /\
  commands (commit w) =
    (commands w
     ++ map (fun l0 => RemoveLoadedData (listenerId l0)) (cleanup_listeners (effectCleanup w))
     ++ [Pause; SetSrc (src track); Load; AddLoadedData (nextId w)])%list.
Proof.
  intros Hv Hl Hsame Ht l. unfold commit. rewrite Hsame.
  destruct w as [s vr cs cl dp nid]. simpl in *. subst vr.
  unfold run_cleanup, trackEffect. simpl.
  destruct cl as [l0|]; simpl in *; rewrite Ht; simpl; rewrite Hl; simpl;
    rewrite ?Nat.eqb_refl; simpl; repeat split;
    repeat rewrite <- app_assoc; reflexivity.
Qed.

Lemma fire_loadeddata_effect (w : World) :
  effectDeps (fire_loadeddata w) = effectDeps w /\
  effectCleanup (fire_loadeddata w) = effectCleanup w.
Proof.
  unfold fire_loadeddata. destruct (videoRef w) as [v|]; [|auto].
  generalize (elLoadedData v) as ls. intros ls. revert w.
  induction ls as [|l ls IH]; intros w; simpl; [auto|].
  destruct (IH (onLoadedData l w)) as (H1 & H2). rewrite H1, H2.
  unfold onLoadedData. destruct (closureIsPlaying l); [|auto].
  destruct w as [s0 [v0|] cs0 cl0 dp0 nid0]; auto.
Qed.

(** A "loadeddata" notification changes no dependency: its commit does
    nothing. *)
Lemma dispatch_LoadedData (w : World) :
  deps_same (deps_of (state w)) (effectDeps w) = true ->
  dispatch LoadedData w = fire_loadeddata w.
Proof.
  intros Hs. unfold dispatch, handle, commit.
  rewrite fire_loadeddata_state. destruct (fire_loadeddata_effect w) as (-> & _).
  rewrite Hs. reflexivity.
Qed.

(** An upload while playing is a track change after which nothing resumes:
    the handler has set [isPlaying] to false before the effect's listener
    captures it. *)
Lemma upload_while_playing_does_not_resume :
  let e := ChangeUpload (Some [mkFile "c.mp4"]) in
  let w1 := dispatch e playing_two_tracks in
  let w2 := dispatch LoadedData w1 in
  reachable playing_two_tracks /\
  isPlaying (state playing_two_tracks) = true /\
  changes_track (handle e) playing_two_tracks (mkTrack "a.mp4" "blob:1") /\
  isPlaying (state w2) = false /\
  commands w2 = commands w1 /\
  ~ resumes_after e playing_two_tracks.
Proof.
  intros e w1 w2.
  split; [unfold playing_two_tracks; simpl; repeat constructor|].
  split; [reflexivity|]. split; [split; reflexivity|].
  split; [vm_compute; reflexivity|]. split; [vm_compute; reflexivity|].
  intros H. destruct (H eq_refl) as (H1 & _). vm_compute in H1. discriminate.
Qed.

(** C6 (amended).  On every track change with a valid current track,
    whether by an upload or by the next-track button, the commit pauses the
    element, gives it the track's source and loads it, and the player is
    paused at position 0: [isPlaying] is false, [currentTime] and
    [progress] are 0.  When the change came from the next-track button
    while the player was playing, the next "loadeddata" notification issues
    one play command and the element plays; otherwise, and after every
    upload, "loadeddata" issues no command and the player stays paused. *)
Theorem track_change_pauses_then_resumes (w : World) (e : Event) (track : VideoTrack) :
  reachable w ->
  e = ClickNext \/ (exists fs, e = ChangeUpload (Some fs)) ->
  changes_track (handle e) w track ->
  let w1 := dispatch e w in
  let w2 := dispatch LoadedData w1 in
  (isPlaying (state w1) = false /\
   currentTime (state w1) = Js.zero /\
   progress (state w1) = Js.zero /\
   (exists v1, videoRef w1 = Some v1 /\ elPaused v1 = true /\ elSrc v1 = src track) /\
   exists cs, commands w1 =
     (commands w ++ cs ++ [Pause; SetSrc (src track); Load; AddLoadedData (nextId (handle e w))])%list) /\
  (e = ClickNext -> isPlaying (state w) = true ->
     commands w2 = (commands w1 ++ [Play])%list /\
     exists v2, videoRef w2 = Some v2 /\ elPaused v2 = false /\ elSrc v2 = src track) /\
  (e = ClickNext -> isPlaying (state w) = false ->
     commands w2 = commands w1 /\ isPlaying (state w2) = false) /\
  ((exists fs, e = ChangeUpload (Some fs)) ->
     commands w2 = commands w1 /\ isPlaying (state w2) = false).
Proof.
  intros Hreach He (Hch & Ht) w1 w2.
  pose proof (handle_pre_invariant e w (reachable_invariant w Hreach))
    as [(v & Hv & Hl & _) _ _].
  destruct (commit_runs_effect (handle e w) v track Hv Hl Hch Ht)
    as (C1 & C2 & C3 & C4 & C5 & C6).
  fold (dispatch e w) in C1, C2, C3, C4, C5, C6. fold w1 in C1, C2, C3, C4, C5, C6.
  assert (Hcmd : commands (handle e w) = commands w
                 /\ (e = ClickNext -> isPlaying (state (handle e w)) = isPlaying (state w))
                 /\ ((exists fs, e = ChangeUpload (Some fs)) ->
                     isPlaying (state (handle e w)) = false)).
  { destruct He as [->|(fs & ->)]; destruct w as [s vr cs cl dp nid]; simpl.
    - repeat split. intros (fs & Hfs). discriminate.
    - repeat split. discriminate. }
  destruct Hcmd as (Hcmd & Hnext & Hup).
  assert (Hw2 : w2 = fire_loadeddata w1).
  { apply dispatch_LoadedData. apply commit_in_sync. }
  assert (Hfire : forall b, isPlaying (state (handle e w)) = b ->
            commands w2 = (commands w1 ++ if b then [Play] else [])%list /\
            isPlaying (state w2) = false /\
            exists v2, videoRef w2 = Some v2 /\ elPaused v2 = negb b /\ elSrc v2 = src track).
  { intros b Hb. rewrite Hw2. rewrite fire_loadeddata_state, C1.
    unfold fire_loadeddata. rewrite C4. simpl. unfold onLoadedData. simpl.
    rewrite Hb. destruct b.
    - unfold video_play, on_video. rewrite C4. simpl.
      repeat split. eexists. repeat split.
    - rewrite app_nil_r. repeat split. exists (mkVideo (src track) true (elMuted v) Js.zero Js.NaN (Js.of_Z 1)
            [mkListener (nextId (handle e w)) false]).
      rewrite C4, Hb. repeat split. }
  split; [|split; [|split]].
  - repeat split; try assumption.
    + eexists. split; [exact C4|]. split; reflexivity.
    + eexists. rewrite C6, Hcmd. reflexivity.
  - intros E Hp. destruct (Hfire true) as (F1 & _ & F3); [rewrite (Hnext E); exact Hp|].
    split; [exact F1 | exact F3].
  - intros E Hp. destruct (Hfire false) as (F1 & F2 & _); [rewrite (Hnext E); exact Hp|].
    rewrite app_nil_r in F1. split; assumption.
  - intros E. destruct (Hfire false) as (F1 & F2 & _); [exact (Hup E)|].
    rewrite app_nil_r in F1. split; assumption.
Qed.

Lemma track_change_pauses_then_resumes_witness :
  let w := playing_two_tracks in
  let w1 := dispatch ClickNext w in
  let w2 := dispatch LoadedData w1 in
  isPlaying (state w1) = false /\
  commands w2 = (commands w1 ++ [Play])%list.
Proof.
  intros w w1 w2.
  assert (Hr : reachable w) by (unfold w, playing_two_tracks; simpl; repeat constructor).
  assert (Hc : changes_track (handle ClickNext) w (mkTrack "b.mp4" "blob:2"))
    by (split; reflexivity).
  destruct (track_change_pauses_then_resumes w ClickNext _ Hr (or_introl eq_refl) Hc)
    as ((H1 & _) & H2 & _).
  split; [exact H1|]. exact (proj1 (H2 eq_refl eq_refl)).
Defined.

(** After the auto-resume the element plays while the stored flag still
    says paused. *)
Example auto_resume_leaves_flag_false :
  let w2 := run [ClickNext; LoadedData] playing_two_tracks in
  isPlaying (state w2) = false /\
  exists v, videoRef w2 = Some v /\ elPaused v = false.
Proof. vm_compute. split; [reflexivity|]. eexists. split; reflexivity. Qed.

(** ** Progress *)

Lemma of_Z_100 : Js.of_Z 100 = S754_finite false 7036874417766400 (-46).
Proof. vm_compute. reflexivity. Qed.

Lemma handleTimeUpdate_stores (w : World) (v : HTMLVideoElement) :
  videoRef w = Some v ->
  currentTime (state (handleTimeUpdate w)) = elCurrentTime v /\
  progress (state (handleTimeUpdate w)) =
    Js.mul (Js.div (elCurrentTime v) (elDuration v)) (Js.of_Z 100).
Proof.
  intros Hv. destruct w as [s vr cs cl dp nid]. simpl in *. subst vr.
  split; reflexivity.
Qed.

(** C8.  [handleTimeUpdate] divides by the reported duration without a
    guard.  When that duration is 0 or NaN the stored [progress] is not a
    finite number, whatever the reported position; it is NaN when the
    duration is NaN and when the position is 0 (the only position an
    element of duration 0 has) or NaN. *)
Theorem handleTimeUpdate_zero_or_NaN_duration (w : World) (v : HTMLVideoElement) :
  videoRef w = Some v ->
  (exists s, elDuration v = S754_zero s) \/ elDuration v = Js.NaN ->
  let p := progress (state (handleTimeUpdate w)) in
  p = Js.mul (Js.div (elCurrentTime v) (elDuration v)) (Js.of_Z 100) /\
  Js.is_finite p = false /\
  (elDuration v = Js.NaN \/ (exists s, elCurrentTime v = S754_zero s)
   \/ elCurrentTime v = Js.NaN ->
   p = Js.NaN).
Proof.
  intros Hv Hd p.
  destruct (handleTimeUpdate_stores w v Hv) as (_ & Hp). fold p in Hp.
  split; [exact Hp|]. rewrite Hp, of_Z_100. clear Hp p.
  destruct Hd as [(s & ->)| ->].
  - split.
    + destruct (elCurrentTime v); reflexivity.
    + intros [H|[(s' & ->)| ->]]; [discriminate H | reflexivity | reflexivity].
  - split.
    + destruct (elCurrentTime v); reflexivity.
    + intros _. destruct (elCurrentTime v); reflexivity.
Qed.

Lemma handleTimeUpdate_zero_or_NaN_duration_witness :
  let w := video_reports Js.zero Js.zero mounted in
  progress (state (handleTimeUpdate w)) = Js.NaN.
Proof.
  intros w.
  pose (v := mkVideo "" true false Js.zero Js.zero (Js.of_Z 1) []).
  destruct (handleTimeUpdate_zero_or_NaN_duration w v eq_refl
              (or_introl (ex_intro _ false eq_refl))) as (_ & _ & H).
  apply H. right. left. exists false. reflexivity.
Defined.

(** With duration 0 and a position other than 0 the stored progress is an
    infinity. *)
Example handleTimeUpdate_zero_duration_infinity :
  progress (state (handleTimeUpdate (video_reports (Js.of_Z 5) Js.zero mounted)))
  = Js.Infinity.
Proof. vm_compute. reflexivity. Qed.

(** ** Rounding in [SpecFloat] *)

Module Rounding.

Import Js.

Lemma loc_of_shr_record_of_loc (m : Z) (l : location) :
  loc_of_shr_record (shr_record_of_loc m l) = l /\
  shr_m (shr_record_of_loc m l) = m.
Proof. destruct l as [|[| |]]; split; reflexivity. Qed.

Lemma shr_1_nonneg (m : Z) (r s : bool) :
  0 <= m ->
  shr_1 (Build_shr_record m r s) =
  Build_shr_record (m / 2) (Z.odd m) (r || s).
Proof.
  intros Hm. destruct m as [|p|p]; [reflexivity| |lia].
  destruct p as [p|p|]; simpl shr_1.
  - f_equal. rewrite Pos2Z.inj_xI.
    apply Z.div_unique with 1; lia.
  - f_equal. rewrite Pos2Z.inj_xO.
    apply Z.div_unique with 0; lia.
  - reflexivity.
Qed.

Lemma shr_1_represents (mrs : shr_record) (N D : Z) :
  0 < D -> 0 <= N ->
  represents mrs N D -> represents (shr_1 mrs) N (2 * D).
Proof.
  intros HD HN [Hm Hl]. destruct mrs as [m r s]. simpl in Hm.
  assert (Hm0 : 0 <= m) by (subst m; apply Z.div_pos; lia).
  rewrite shr_1_nonneg by exact Hm0.
  pose proof (Z.div_mod N D ltac:(lia)) as E.
  pose proof (Z.mod_pos_bound N D HD) as B.
  pose proof (Z.div_mod m 2 ltac:(lia)) as E2.
  pose proof (Z.mod_pos_bound m 2 ltac:(lia)) as B2.
  assert (Hq : N / (2 * D) = m / 2).
  { symmetry. apply Z.div_unique with (D * (m mod 2) + N mod D); [nia|nia]. }
  assert (Hr : N mod (2 * D) = D * (m mod 2) + N mod D).
  { symmetry. apply Z.mod_unique with (m / 2); [nia|nia]. }
  assert (Hs : r || s = negb (N mod D =? 0)).
  { unfold loc_of in Hl. cbn [loc_of_shr_record] in Hl.
    destruct (N mod D =? 0); destruct r, s; simpl in *; congruence. }
  split; [cbn [shr_m]; symmetry; exact Hq|].
  rewrite Hr, Hs, Zmod_odd. unfold loc_of, loc_of_shr_record.
  destruct (Z.odd m); destruct (Z.eqb_spec (N mod D) 0) as [E0|E0];
    cbn [negb]; rewrite ?E0, ?Z.mul_0_r, ?Z.mul_1_r, ?Z.add_0_r, ?Z.add_0_l.
  - destruct (Z.eqb_spec D 0); [lia|]. rewrite Z.compare_refl. reflexivity.
  - destruct (Z.eqb_spec (D + N mod D) 0); [lia|].
    replace (2 * (D + N mod D) ?= 2 * D) with Gt
      by (symmetry; apply Z.compare_gt_iff; lia).
    reflexivity.
  - reflexivity.
  - destruct (Z.eqb_spec (N mod D) 0); [lia|].
    replace (2 * (N mod D) ?= 2 * D) with Lt
      by (symmetry; apply Z.compare_lt_iff; lia).
    reflexivity.
Qed.

Lemma pow2_xI (p : positive) : 2 ^ Z.pos p~1 = 2 ^ Z.pos p * (2 ^ Z.pos p * 2).
Proof.
  replace (Z.pos p~1) with (Z.pos p + Z.pos p + 1) by lia.
  rewrite !Z.pow_add_r by lia. change (2 ^ 1) with 2. ring.
Qed.

Lemma pow2_xO (p : positive) : 2 ^ Z.pos p~0 = 2 ^ Z.pos p * 2 ^ Z.pos p.
Proof.
  replace (Z.pos p~0) with (Z.pos p + Z.pos p) by lia.
  rewrite !Z.pow_add_r by lia. ring.
Qed.

Lemma iter_pos_shr_1_represents (p : positive) (mrs : shr_record) (N D : Z) :
  0 < D -> 0 <= N ->
  represents mrs N D -> represents (iter_pos shr_1 p mrs) N (2 ^ Zpos p * D).
Proof.
  revert mrs D. induction p as [p IH|p IH|]; intros mrs D HD HN H; simpl iter_pos.
  - assert (0 < 2 ^ Z.pos p) by (apply Z.pow_pos_nonneg; lia).
    apply shr_1_represents in H; [|lia|lia].
    apply IH in H; [|lia|lia].
    apply IH in H; [|nia|lia].
    rewrite pow2_xI.
    replace (2 ^ Z.pos p * (2 ^ Z.pos p * 2) * D)
      with (2 ^ Z.pos p * (2 ^ Z.pos p * (2 * D))) by ring.
    exact H.
  - assert (0 < 2 ^ Z.pos p) by (apply Z.pow_pos_nonneg; lia).
    apply IH in H; [|lia|lia].
    apply IH in H; [|nia|lia].
    rewrite pow2_xO.
    replace (2 ^ Z.pos p * 2 ^ Z.pos p * D)
      with (2 ^ Z.pos p * (2 ^ Z.pos p * D)) by ring.
    exact H.
  - apply shr_1_represents in H; [|lia|lia]. exact H.
Qed.

(** Shifting by [n] places divides the scale by [2 ^ n]. *)
Lemma shr_represents (mrs : shr_record) (e n N D : Z) :
  0 < D -> 0 <= N -> 0 <= n ->
  represents mrs N D ->
  represents (fst (shr mrs e n)) N (2 ^ n * D) /\ snd (shr mrs e n) = e + n.
Proof.
  intros HD HN Hn H. destruct n as [|p|p]; [| |lia].
  - simpl. rewrite Z.add_0_r. split; [|reflexivity].
    destruct D; try lia. exact H.
  - simpl. split; [|reflexivity]. apply iter_pos_shr_1_represents; assumption.
Qed.

Lemma digits2_pos_bounds (p : positive) :
  2 ^ (Z.pos (digits2_pos p) - 1) <= Z.pos p < 2 ^ Z.pos (digits2_pos p).
Proof.
  induction p as [p IH|p IH|]; cbn [digits2_pos].
  - rewrite Pos2Z.inj_succ. change (Z.pos p~1) with (2 * Z.pos p + 1).
    replace (Z.succ (Z.pos (digits2_pos p)) - 1) with (Z.succ (Z.pos (digits2_pos p) - 1)) by lia.
    rewrite !Z.pow_succ_r by lia. revert IH.
    generalize (2 ^ (Z.pos (digits2_pos p) - 1)) (2 ^ Z.pos (digits2_pos p)).
    intros; lia.
  - rewrite Pos2Z.inj_succ. change (Z.pos p~0) with (2 * Z.pos p).
    replace (Z.succ (Z.pos (digits2_pos p)) - 1) with (Z.succ (Z.pos (digits2_pos p) - 1)) by lia.
    rewrite !Z.pow_succ_r by lia. revert IH.
    generalize (2 ^ (Z.pos (digits2_pos p) - 1)) (2 ^ Z.pos (digits2_pos p)).
    intros; lia.
  - split; [discriminate | reflexivity].
Qed.

Lemma Zdigits2_bounds (m : Z) :
  0 < m -> 2 ^ (Zdigits2 m - 1) <= m < 2 ^ Zdigits2 m.
Proof. destruct m as [|p|p]; try lia. intros _. apply digits2_pos_bounds. Qed.

Lemma Zdigits2_nonneg (m : Z) : 0 <= Zdigits2 m.
Proof. destruct m; simpl; lia. Qed.

Lemma Zdigits2_upper (m : Z) : 0 <= m -> m < 2 ^ Zdigits2 m.
Proof.
  intros H. destruct (Z.eq_dec m 0) as [->|]; [simpl; lia|].
  apply Zdigits2_bounds. lia.
Qed.

(** [m] has [k] binary digits. *)
Lemma Zdigits2_unique (m k : Z) :
  2 ^ (k - 1) <= m < 2 ^ k -> 0 < m -> Zdigits2 m = k.
Proof.
  intros [H1 H2] Hm. pose proof (Zdigits2_bounds m Hm) as [B1 B2].
  pose proof (Zdigits2_nonneg m) as Hd.
  assert (Hk : 0 <= k).
  { destruct (Z.lt_ge_cases k 0) as [Hk|Hk]; [|exact Hk].
    rewrite Z.pow_neg_r in H2 by exact Hk. lia. }
  assert (~ Zdigits2 m < k).
  { intros Hlt. assert (2 ^ Zdigits2 m <= 2 ^ (k - 1)) by (apply Z.pow_le_mono_r; lia). lia. }
  assert (~ k < Zdigits2 m).
  { intros Hlt. assert (2 ^ k <= 2 ^ (Zdigits2 m - 1)) by (apply Z.pow_le_mono_r; lia). lia. }
  lia.
Qed.

Lemma Zdigits2_le (m k : Z) : 0 <= k -> 0 <= m < 2 ^ k -> Zdigits2 m <= k.
Proof.
  intros Hk [H1 H2]. destruct (Z.eq_dec m 0) as [->|]; [simpl; lia|].
  pose proof (Zdigits2_bounds m ltac:(lia)) as [B1 B2].
  destruct (Z.le_gt_cases (Zdigits2 m) k) as [|Hlt]; [assumption|].
  assert (2 ^ k <= 2 ^ (Zdigits2 m - 1)) by (apply Z.pow_le_mono_r; lia). lia.
Qed.

Lemma Zdigits2_ge (m k : Z) : 2 ^ (k - 1) <= m -> 0 < m -> k <= Zdigits2 m.
Proof.
  intros H1 Hm. pose proof (Zdigits2_bounds m Hm) as [B1 B2].
  pose proof (Zdigits2_nonneg m) as Hd.
  destruct (Z.le_gt_cases k (Zdigits2 m)) as [|Hlt]; [assumption|].
  assert (2 ^ Zdigits2 m <= 2 ^ (k - 1)) by (apply Z.pow_le_mono_r; lia). lia.
Qed.

Lemma fexp_eq (e : Z) : fexp prec emax e = Z.max (e - 53) (-1074).
Proof. reflexivity. Qed.

(** Rounding to nearest, ties to even, of [N / D] from its truncation. *)
Lemma round_nearest_even_spec (N D : Z) :
  0 < D -> 0 <= N ->
  let m := round_nearest_even (N / D) (loc_of (N mod D) D) in
  N / D <= m <= N / D + 1 /\
  2 * Z.abs (m * D - N) <= D /\
  (N mod D = 0 -> m = N / D).
Proof.
  intros HD HN m.
  pose proof (Z.div_mod N D ltac:(lia)) as E.
  pose proof (Z.mod_pos_bound N D HD) as B.
  subst m. unfold loc_of, round_nearest_even.
  destruct (Z.eqb_spec (N mod D) 0) as [E0|E0].
  - repeat split; try lia; nia.
  - destruct (Z.compare_spec (2 * (N mod D)) D) as [C|C|C].
    + destruct (Z.even (N / D)); repeat split; try lia; nia.
    + repeat split; try lia; nia.
    + repeat split; try lia; nia.
Qed.

Lemma binary_round_aux_spec (sx : bool) (mx ex : Z) (lx : location) (N D : Z) :
  0 < D -> 0 <= N ->
  mx = N / D -> lx = loc_of (N mod D) D ->
  ex <= fexp prec emax (Zdigits2 mx + ex) ->
  let e1 := fexp prec emax (Zdigits2 mx + ex) in
  let D' := 2 ^ (e1 - ex) * D in
  let m := round_nearest_even (N / D') (loc_of (N mod D') D') in
  (e1 = -1074 \/ 2 ^ 52 <= N / D') /\
  N / D' < 2 ^ 53 /\
  binary_round_aux prec emax sx mx ex lx = rounded sx m e1.
Proof.
  intros HD HN Hmx Hlx Hex e1 D' m.
  assert (Hmx0 : 0 <= mx) by (subst mx; apply Z.div_pos; lia).
  pose proof (Zdigits2_nonneg mx) as Hdx.
  pose proof (Zdigits2_upper mx Hmx0) as Hup.
  assert (Hn : 0 <= e1 - ex) by (unfold e1; lia).
  assert (Hp : 0 < 2 ^ (e1 - ex)) by (apply Z.pow_pos_nonneg; lia).
  assert (HD' : 0 < D') by (unfold D'; nia).
  assert (Hm1 : N / D' = mx / 2 ^ (e1 - ex)).
  { unfold D'. rewrite (Z.mul_comm _ D), <- Z.div_div by lia. congruence. }
  assert (He1 : e1 = Z.max (Zdigits2 mx + ex - 53) (-1074)) by reflexivity.
  assert (Hlt : N / D' < 2 ^ 53).
  { rewrite Hm1. apply Z.div_lt_upper_bound; [lia|].
    rewrite <- Z.pow_add_r by lia.
    apply Z.lt_le_trans with (1 := Hup). apply Z.pow_le_mono_r; lia. }
  assert (Hnorm : e1 = -1074 \/ 2 ^ 52 <= N / D').
  { destruct (Z.eq_dec e1 (-1074)) as [|Hne]; [left; assumption|right].
    assert (Hmxp : 0 < mx).
    { destruct (Z.eq_dec mx 0) as [E|]; [|lia]. rewrite E in *. simpl in *. lia. }
    pose proof (Zdigits2_bounds mx Hmxp) as [B1 _].
    rewrite Hm1. apply Z.div_le_lower_bound; [lia|].
    rewrite Z.mul_comm, <- Z.pow_add_r by lia.
    replace (52 + (e1 - ex)) with (Zdigits2 mx - 1) by lia. exact B1. }
  split; [exact Hnorm|]. split; [exact Hlt|].
  destruct (round_nearest_even_spec N D' HD' HN) as ((R1 & R2) & _). fold m in R1, R2.
  assert (Hm0 : 0 <= N / D') by (apply Z.div_pos; lia).
  (* first shift *)
  unfold binary_round_aux, shr_fexp. fold e1.
  destruct (loc_of_shr_record_of_loc mx lx) as (L1 & L2).
  assert (Hrep : represents (shr_record_of_loc mx lx) N D).
  { split; [rewrite L2; exact Hmx | rewrite L1; exact Hlx]. }
  destruct (shr_represents _ ex (e1 - ex) N D HD HN Hn Hrep) as ((S1 & S2) & S3).
  fold D' in S1, S2.
  destruct (shr (shr_record_of_loc mx lx) ex (e1 - ex)) as [mrs' e'].
  cbn [fst snd] in S1, S2, S3. replace (ex + (e1 - ex)) with e1 in S3 by lia.
  subst e'. rewrite S1, S2. fold m.
  (* second shift *)
  unfold rounded.
  destruct (Z.eqb_spec m 0) as [Z0|Z0].
  - rewrite Z0. change (Zdigits2 0) with 0.
    replace (fexp prec emax (0 + e1) - e1) with (Z.max (e1 - 53) (-1074) - e1) by reflexivity.
    destruct (Z.max (e1 - 53) (-1074) - e1) as [|q|q] eqn:Eq; [reflexivity|lia|reflexivity].
  - destruct (Z.eqb_spec m (2 ^ 53)) as [Z1|Z1].
    + rewrite Z1. change (Zdigits2 (2 ^ 53)) with 54.
      replace (fexp prec emax (54 + e1) - e1) with 1
        by (rewrite fexp_eq; lia).
      cbn. reflexivity.
    + assert (Hmr : 0 < m < 2 ^ 53) by lia.
      assert (Hdm : Zdigits2 m <= 53) by (apply Zdigits2_le; lia).
      pose proof (Zdigits2_nonneg m).
      assert (Hsh : fexp prec emax (Zdigits2 m + e1) - e1 <= 0)
        by (rewrite fexp_eq; lia).
      destruct (fexp prec emax (Zdigits2 m + e1) - e1) as [|q|q] eqn:Eq; [|lia|];
        cbn; destruct m as [|pm|pm]; try lia; reflexivity.
Qed.

Lemma new_location_spec (nb k : Z) :
  0 < nb -> 0 <= k < nb -> new_location nb k = loc_of k nb.
Proof.
  intros Hnb Hk. unfold new_location, new_location_even, new_location_odd, loc_of.
  destruct (Z.even nb) eqn:Ev; destruct (Z.eqb_spec k 0) as [E0|E0]; try reflexivity.
  f_equal.
  assert (Hodd : Z.odd nb = true) by (rewrite <- Z.negb_even, Ev; reflexivity).
  apply Z.odd_spec in Hodd. destruct Hodd as (c & Hc).
  destruct (Z.compare_spec (2 * k + 1) nb) as [C|C|C];
    symmetry; [apply Z.compare_lt_iff | apply Z.compare_lt_iff | apply Z.compare_gt_iff]; lia.
Qed.

(** The truncated quotient that [SFdiv] hands to the rounding. *)
Lemma SFdiv_core_binary_spec (mx my : positive) (ex ey : Z) :
  let e' := Z.min (fexp prec emax (Zdigits2 (Z.pos mx) + ex - (Zdigits2 (Z.pos my) + ey)))
                  (ex - ey) in
  let N := Z.pos mx * 2 ^ (ex - ey - e') in
  SFdiv_core_binary prec emax (Z.pos mx) ex (Z.pos my) ey
  = (N / Z.pos my, e', loc_of (N mod Z.pos my) (Z.pos my)) /\
  0 <= ex - ey - e' /\
  e' <= fexp prec emax (Zdigits2 (N / Z.pos my) + e').
Proof.
  intros e' N. unfold SFdiv_core_binary. fold e'.
  assert (Hs : 0 <= ex - ey - e') by (unfold e'; lia).
  assert (Hp : 0 < 2 ^ (ex - ey - e')) by (apply Z.pow_pos_nonneg; lia).
  assert (HN : 0 < N) by (unfold N; nia).
  set (m' := match ex - ey - e' with
             | 0 => Z.pos mx
             | Z.pos _ => Z.shiftl (Z.pos mx) (ex - ey - e')
             | Z.neg _ => 0
             end).
  assert (Hm' : m' = N).
  { unfold m', N. destruct (ex - ey - e') as [|q|q] eqn:Eq.
    - rewrite Z.pow_0_r. lia.
    - rewrite Z.shiftl_mul_pow2 by lia. reflexivity.
    - lia. }
  rewrite Hm'.
  pose proof (Z.mod_pos_bound N (Z.pos my) ltac:(lia)) as B.
  split; [|split; [exact Hs|]].
  - unfold Z.div, Z.modulo.
    destruct (Z.div_eucl N (Z.pos my)) as [q r] eqn:Ed.
    assert (Hr : r = N mod Z.pos my) by (unfold Z.modulo; rewrite Ed; reflexivity).
    rewrite new_location_spec; [reflexivity | lia | rewrite Hr; exact B].
  - (* the quotient has enough digits *)
    set (dx := Zdigits2 (Z.pos mx)). set (dy := Zdigits2 (Z.pos my)).
    pose proof (Zdigits2_bounds (Z.pos mx) ltac:(lia)) as [X1 X2]. fold dx in X1, X2.
    pose proof (Zdigits2_bounds (Z.pos my) ltac:(lia)) as [Y1 Y2]. fold dy in Y1, Y2.
    pose proof (Zdigits2_nonneg (N / Z.pos my)) as Hq.
    assert (Hdx : 1 <= dx) by (unfold dx; simpl; lia).
    assert (Hdy : 1 <= dy) by (unfold dy; simpl; lia).
    assert (Hdq : dx + (ex - ey - e') - dy <= Zdigits2 (N / Z.pos my)).
    { destruct (Z.le_gt_cases (dx + (ex - ey - e') - dy) 0) as [|Hpos]; [lia|].
      assert (Hlow : 2 ^ (dx + (ex - ey - e') - dy - 1) <= N / Z.pos my).
      { apply Z.div_le_lower_bound; [lia|].
        apply Z.le_trans with (2 ^ dy * 2 ^ (dx + (ex - ey - e') - dy - 1)).
        - apply Z.mul_le_mono_nonneg_r; [apply Z.pow_nonneg|]; lia.
        - rewrite <- Z.pow_add_r by lia.
          replace (dy + (dx + (ex - ey - e') - dy - 1)) with ((dx - 1) + (ex - ey - e')) by lia.
          rewrite Z.pow_add_r by lia. unfold N.
          apply Z.mul_le_mono_nonneg_r; lia. }
      apply Zdigits2_ge; [exact Hlow|].
      assert (0 < 2 ^ (dx + (ex - ey - e') - dy - 1)) by (apply Z.pow_pos_nonneg; lia).
      lia. }
    rewrite fexp_eq. unfold e' at 1. rewrite fexp_eq. lia.
Qed.

(** [SFdiv] on two positive finite doubles is the rounding of the exact
    quotient. *)
Lemma SFdiv_finite_spec (sx sy : bool) (mx my : positive) (ex ey : Z) :
  let e' := Z.min (fexp prec emax (Zdigits2 (Z.pos mx) + ex - (Zdigits2 (Z.pos my) + ey)))
                  (ex - ey) in
  let N := Z.pos mx * 2 ^ (ex - ey - e') in
  let e1 := fexp prec emax (Zdigits2 (N / Z.pos my) + e') in
  let D' := 2 ^ (e1 - e') * Z.pos my in
  let m := round_nearest_even (N / D') (loc_of (N mod D') D') in
  (e1 = -1074 \/ 2 ^ 52 <= N / D') /\
  N / D' < 2 ^ 53 /\
  0 <= ex - ey - e' /\ e' <= e1 /\
  SFdiv prec emax (S754_finite sx mx ex) (S754_finite sy my ey)
  = rounded (xorb sx sy) m e1.
Proof.
  intros e' N e1 D' m.
  destruct (SFdiv_core_binary_spec mx my ex ey) as (Hc & Hs & He). fold e' N in Hc, Hs, He.
  assert (Hp : 0 < 2 ^ (ex - ey - e')) by (apply Z.pow_pos_nonneg; lia).
  assert (HN : 0 <= N) by (unfold N; nia).
  destruct (binary_round_aux_spec (xorb sx sy) (N / Z.pos my) e'
              (loc_of (N mod Z.pos my) (Z.pos my)) N (Z.pos my)
              ltac:(lia) HN eq_refl eq_refl He)
    as (B1 & B2 & B3).
  fold e1 D' m in B1, B2, B3.
  repeat split; try assumption.
  cbn [SFdiv]. rewrite Hc. exact B3.
Qed.

Lemma pos_iter_xO (p : positive) (d : positive) :
  Z.pos (Pos.iter xO p d) = Z.pos p * 2 ^ Z.pos d.
Proof.
  revert p. induction d as [d IH|d IH|]; intros p; cbn [Pos.iter].
  - rewrite Pos2Z.inj_xO, !IH, pow2_xI. ring.
  - rewrite !IH, pow2_xO. ring.
  - rewrite Pos2Z.inj_xO. change (2 ^ 1) with 2. ring.
Qed.

(** A positive integer of at most 53 digits, scaled by a power of two
    within the exponent range, is a double: [binary_normalize] returns its
    canonical representation. *)
Lemma binary_normalize_exact (r : positive) (e : Z) (sz : bool) :
  Zdigits2 (Z.pos r) <= 53 -> -1074 <= e ->
  let e1 := fexp prec emax (Zdigits2 (Z.pos r) + e) in
  e1 <= 971 ->
  e1 <= e /\
  binary_normalize prec emax (Z.pos r) e sz
  = S754_finite false (Z.to_pos (Z.pos r * 2 ^ (e - e1))) e1.
Proof.
  intros Hd He e1 Hov.
  assert (He1 : e1 = Z.max (Zdigits2 (Z.pos r) + e - 53) (-1074)) by reflexivity.
  assert (Hle : e1 <= e) by lia.
  split; [exact Hle|].
  cbn [binary_normalize]. unfold binary_round.
  change (fexp prec emax (Z.pos (digits2_pos r) + e)) with e1.
  set (sh := shl_align r e e1).
  assert (Hsh : Z.pos (fst sh) = Z.pos r * 2 ^ (e - e1) /\ snd sh = e1).
  { unfold sh, shl_align. destruct (e1 - e) as [|q|q] eqn:Eq.
    - cbn [fst snd]. replace (e - e1) with 0 by lia.
      rewrite Z.pow_0_r. lia.
    - lia.
    - cbn [fst snd]. rewrite pos_iter_xO. split; [|reflexivity].
      replace (e - e1) with (Z.pos q) by lia. reflexivity. }
  destruct sh as [mz ez]. cbn [fst snd] in Hsh. destruct Hsh as (Hmz & Hez). subst ez.
  assert (Hp : 0 < 2 ^ (e - e1)) by (apply Z.pow_pos_nonneg; lia).
  pose proof (Zdigits2_bounds (Z.pos r) ltac:(lia)) as [B1 B2].
  set (dr := Zdigits2 (Z.pos r)) in *.
  assert (Hdr : 1 <= dr) by (unfold dr; simpl; lia).
  assert (Hdz : Zdigits2 (Z.pos mz) = dr + (e - e1)).
  { apply Zdigits2_unique; [|lia]. rewrite Hmz.
    replace (dr + (e - e1) - 1) with ((dr - 1) + (e - e1)) by lia.
    rewrite !Z.pow_add_r by lia. split.
    - apply Z.mul_le_mono_nonneg_r; lia.
    - apply Z.mul_lt_mono_pos_r; lia. }
  assert (Hfe : fexp prec emax (Zdigits2 (Z.pos mz) + e1) = e1).
  { rewrite Hdz. replace (dr + (e - e1) + e1) with (dr + e) by lia. reflexivity. }
  assert (Hmx : Z.pos mz = Z.pos mz / 1) by (rewrite Z.div_1_r; reflexivity).
  assert (Hlx : loc_Exact = loc_of (Z.pos mz mod 1) 1) by (rewrite Z.mod_1_r; reflexivity).
  destruct (binary_round_aux_spec false (Z.pos mz) e1 loc_Exact (Z.pos mz) 1
              ltac:(lia) ltac:(lia) Hmx Hlx ltac:(lia)) as (_ & A2 & A3).
  rewrite Hfe, Z.sub_diag, Z.pow_0_r, Z.mul_1_l, Z.div_1_r in A2.
  rewrite Hfe, Z.sub_diag, Z.pow_0_r, Z.mul_1_l, Z.div_1_r, Z.mod_1_r in A3.
  rewrite A3. change (loc_of 0 1) with loc_Exact. cbn [round_nearest_even].
  unfold rounded.
  destruct (Z.eqb_spec (Z.pos mz) 0); [lia|].
  destruct (Z.eqb_spec (Z.pos mz) (2 ^ 53)); [lia|].
  destruct (Z.leb_spec e1 971); [|lia].
  rewrite Hmz. reflexivity.
Qed.

End Rounding.

(** ** Rounding error in the rationals *)

Module RoundingError.

Import Js Rounding.
Local Open Scope Q_scope.

Lemma pow2_pos (e : Z) : 0 < 2 ^ e.
Proof. apply Qpower_0_lt. reflexivity. Qed.

Lemma pow2_add (a b : Z) : 2 ^ (a + b) == 2 ^ a * 2 ^ b.
Proof. apply Qpower_plus. discriminate. Qed.

Lemma pow2_le (a b : Z) : (a <= b)%Z -> 2 ^ a <= 2 ^ b.
Proof. intros H. apply Qpower_le_compat_l; [exact H | discriminate]. Qed.

Lemma inject_Z_pow2 (k : Z) : (0 <= k)%Z -> inject_Z (2 ^ k) == 2 ^ k.
Proof. intros H. rewrite Zpower_Qpower by exact H. reflexivity. Qed.

(** The integer quotient is the floor of the rational one. *)
Lemma Zdiv_Q_bounds (N D : Z) :
  (0 < D)%Z ->
  inject_Z (N / D) <= inject_Z N / inject_Z D /\
  inject_Z N / inject_Z D < inject_Z (N / D) + 1.
Proof.
  intros HD.
  assert (Hd : 0 < inject_Z D)
    by (change (inject_Z 0 < inject_Z D); rewrite <- Zlt_Qlt; exact HD).
  pose proof (Z.div_mod N D ltac:(lia)) as E.
  pose proof (Z.mod_pos_bound N D HD) as B.
  split.
  - apply Qle_shift_div_l; [exact Hd|].
    rewrite <- inject_Z_mult, <- Zle_Qle. nia.
  - apply Qlt_shift_div_r; [exact Hd|].
    change (inject_Z N < (inject_Z (N / D) + inject_Z 1) * inject_Z D).
    rewrite <- inject_Z_plus, <- inject_Z_mult, <- Zlt_Qlt. nia.
Qed.

Lemma to_Q_finite (m : positive) (e : Z) :
  to_Q (S754_finite false m e) = inject_Z (Z.pos m) * 2 ^ e.
Proof. reflexivity. Qed.

Lemma rounded_value (m e : Z) :
  (0 <= m <= 2 ^ 53)%Z -> (e <= 970)%Z ->
  is_finite (rounded false m e) = true /\
  to_Q (rounded false m e) == inject_Z m * 2 ^ e.
Proof.
  intros Hm He. unfold rounded.
  destruct (Z.eqb_spec m 0) as [E0|E0].
  - subst m. split; [reflexivity|]. cbn [to_Q]. ring.
  - destruct (Z.eqb_spec m (2 ^ 53)) as [E1|E1].
    + destruct (Z.leb_spec (e + 1) 971) as [_|]; [|lia].
      split; [reflexivity|]. rewrite to_Q_finite, pow2_add, E1.
      change (2 ^ 1) with 2.
      change (inject_Z (Z.pos (2 ^ 52))) with (inject_Z (2 ^ 52)).
      change (inject_Z (2 ^ 53)) with (2 * inject_Z (2 ^ 52)) at 1.
      ring.
    + destruct (Z.leb_spec e 971) as [_|]; [|lia].
      split; [reflexivity|]. rewrite to_Q_finite, Z2Pos.id by lia. reflexivity.
Qed.

Lemma half_ulp_scale (m x P : Q) :
  0 < P -> m - (1 # 2) <= x -> x <= m + (1 # 2) ->
  - (P * (1 # 2)) <= m * P - x * P /\ m * P - x * P <= P * (1 # 2).
Proof.
  intros HP H1 H2.
  pose proof (Qmult_le_compat_r _ _ P H1 (Qlt_le_weak _ _ HP)) as M1.
  pose proof (Qmult_le_compat_r _ _ P H2 (Qlt_le_weak _ _ HP)) as M2.
  assert (E1 : (m - (1 # 2)) * P == m * P - P * (1 # 2)) by ring.
  assert (E2 : (m + (1 # 2)) * P == m * P + P * (1 # 2)) by ring.
  rewrite E1 in M1. rewrite E2 in M2.
  set (a := m * P) in *. set (b := x * P) in *.
  split; lra.
Qed.

Lemma u_eq : u == 1 # (2 ^ 53).
Proof. reflexivity. Qed.

Lemma eta_eq : 2 ^ (-1074) * (1 # 2) == eta.
Proof. vm_compute. reflexivity. Qed.

(** The double [r] that rounding yields for the exact non-negative value
    [X = N / D' * 2 ^ e1]: it is within half a unit in the last place of
    [X], hence within the relative error [u] or, when subnormal, the
    absolute error [eta]. *)
Lemma rounded_error (N D' e1 : Z) (X : Q) :
  (0 < D')%Z -> (0 <= N)%Z ->
  (e1 = -1074 \/ 2 ^ 52 <= N / D')%Z -> (N / D' < 2 ^ 53)%Z ->
  X == inject_Z N / inject_Z D' * 2 ^ e1 ->
  X <= 2 ^ 1000 ->
  let m := round_nearest_even (N / D') (loc_of (N mod D') D') in
  let r := rounded false m e1 in
  is_finite r = true /\
  to_Q r == inject_Z m * 2 ^ e1 /\
  (- (2 ^ e1 * (1 # 2)) <= to_Q r - X /\ to_Q r - X <= 2 ^ e1 * (1 # 2)) /\
  (e1 = (-1074)%Z \/ 2 ^ 52 * 2 ^ e1 <= X) /\
  (- (X * u + eta) <= to_Q r - X /\ to_Q r - X <= X * u + eta) /\
  0 <= X /\
  0 <= to_Q r /\
  ((N mod D' = 0)%Z -> to_Q r == X).
Proof.
  intros HD HN Hnorm Hlt HX Hbig m r.
  destruct (round_nearest_even_spec N D' HD HN) as ((R1 & R2) & R3 & R4).
  fold m in R1, R2, R3, R4.
  assert (Hm0 : (0 <= N / D')%Z) by (apply Z.div_pos; lia).
  destruct (Zdiv_Q_bounds N D' HD) as (F1 & F2).
  set (x := inject_Z N / inject_Z D') in *.
  pose proof (pow2_pos e1) as HP. set (P := 2 ^ e1) in *.
  assert (Hd : 0 < inject_Z D')
    by (change (inject_Z 0 < inject_Z D'); rewrite <- Zlt_Qlt; exact HD).
  assert (Hxd : x * inject_Z D' == inject_Z N).
  { unfold x. field. intros E. rewrite E in Hd. discriminate Hd. }
  assert (Hx0 : 0 <= x).
  { apply Qle_trans with (2 := F1). change (inject_Z 0 <= inject_Z (N / D')).
    rewrite <- Zle_Qle. exact Hm0. }
  (* the rounded mantissa is within 1/2 of x *)
  assert (Hhalf : inject_Z m - (1 # 2) <= x /\ x <= inject_Z m + (1 # 2)).
  { assert (A1 : (2 * (m * D') <= D' + 2 * N)%Z) by lia.
    assert (A2 : (2 * N <= D' + 2 * (m * D'))%Z) by lia.
    rewrite Zle_Qle in A1, A2.
    rewrite !inject_Z_plus, !inject_Z_mult in A1, A2.
    change (inject_Z 2) with 2 in A1, A2.
    split.
    - apply Qle_shift_div_l; [exact Hd|]. lra.
    - apply Qle_shift_div_r; [exact Hd|]. lra. }
  destruct Hhalf as (Hh1 & Hh2).
  assert (HXx : X == x * P) by exact HX.
  assert (Hnorm' : e1 = (-1074)%Z \/ 2 ^ 52 * P <= X).
  { destruct Hnorm as [E|Hn]; [left; exact E|right].
    rewrite HXx. apply Qmult_le_compat_r; [|apply Qlt_le_weak, HP].
    apply Qle_trans with (2 := F1).
    rewrite Zle_Qle in Hn. exact Hn. }
  assert (He : (e1 <= 970)%Z).
  { destruct Hnorm' as [E|Hn]; [lia|].
    assert (Hp : 2 ^ e1 <= 2 ^ 948).
    { fold P. apply Qmult_le_l with (2 ^ 52); [reflexivity|].
      apply Qle_trans with (1 := Hn). apply Qle_trans with (1 := Hbig).
      vm_compute. discriminate. }
    apply Qpower_le_compat_l_inv in Hp; [lia | reflexivity]. }
  destruct (rounded_value m e1) as (V1 & V2); [lia | exact He |].
  fold r in V1, V2. fold P in V2.
  assert (Herr : - (P * (1 # 2)) <= to_Q r - X /\ to_Q r - X <= P * (1 # 2)).
  { rewrite V2, HXx.
    apply half_ulp_scale; assumption. }
  assert (HX0 : 0 <= X).
  { rewrite HXx. apply Qmult_le_0_compat; [exact Hx0 | apply Qlt_le_weak, HP]. }
  split; [exact V1|]. split; [exact V2|]. split; [exact Herr|].
  split; [exact Hnorm'|]. split; [|split; [exact HX0|split]].
  - assert (Hrel : P * (1 # 2) <= X * u + eta).
    { assert (Hxu : 0 <= X * u)
        by (apply Qmult_le_0_compat; [exact HX0 | discriminate]).
      destruct Hnorm' as [E|Hn].
      - assert (Heta : P * (1 # 2) == eta) by (unfold P; rewrite E; exact eta_eq).
        rewrite Heta. set (xu := X * u) in *. lra.
      - assert (He0 : 0 <= eta) by discriminate.
        assert (Hxu' : P * (1 # 2) <= X * u).
        { rewrite u_eq.
          change (2 ^ 52) with (4503599627370496 # 1) in Hn.
          change (1 # 2 ^ 53) with (1 # 9007199254740992).
          clearbody P. lra. }
        set (xu := X * u) in *. clearbody P. lra. }
    destruct Herr as (E1 & E2).
    set (t := X * u + eta) in *. clearbody P.
    set (v := to_Q r - X) in *. split; lra.
  - rewrite V2. apply Qmult_le_0_compat; [|apply Qlt_le_weak, HP].
    change (inject_Z 0 <= inject_Z m). rewrite <- Zle_Qle. lia.
  - intros Hex. rewrite V2, HXx. rewrite (R4 Hex).
    assert (Hq : inject_Z (N / D') == x).
    { unfold x. apply Qeq_sym. 
      assert (E : N = (N / D' * D')%Z).
      { pose proof (Z.div_mod N D' ltac:(lia)). lia. }
      rewrite E at 1. rewrite inject_Z_mult. field.
      intros E'. rewrite E' in Hd. discriminate Hd. }
    rewrite Hq. reflexivity.
Qed.

Lemma to_Q_pos (m : positive) (e : Z) : 0 < to_Q (S754_finite false m e).
Proof.
  rewrite to_Q_finite. apply Qmult_lt_0_compat; [reflexivity | apply pow2_pos].
Qed.

Lemma to_Q_neg (m : positive) (e : Z) : to_Q (S754_finite true m e) < 0.
Proof.
  pose proof (to_Q_pos m e) as H. rewrite to_Q_finite in H.
  cbn [to_Q]. change (inject_Z (Z.neg m)) with (- inject_Z (Z.pos m)).
  set (a := inject_Z (Z.pos m) * 2 ^ e) in *.
  assert (E : - inject_Z (Z.pos m) * 2 ^ e == - a) by (unfold a; ring).
  rewrite E. lra.
Qed.

Lemma rounded_cases (m e : Z) :
  is_finite (rounded false m e) = true ->
  rounded false m e = S754_zero false \/
  exists mq eq, rounded false m e = S754_finite false mq eq.
Proof.
  unfold rounded.
  destruct (m =? 0)%Z; [left; reflexivity|].
  destruct (m =? 2 ^ 53)%Z.
  - destruct (e + 1 <=? 971)%Z; [right; eauto | discriminate].
  - destruct (e <=? 971)%Z; [right; eauto | discriminate].
Qed.

Lemma inject_Z_pos_neq0 (p : positive) : ~ inject_Z (Z.pos p) == 0.
Proof. intros E. discriminate E. Qed.

Lemma pow2_neq0 (e : Z) : ~ 2 ^ e == 0.
Proof. pose proof (pow2_pos e) as H. intros E. rewrite E in H. discriminate H. Qed.

(** The quotient of two positive finite doubles, as [Js.div] rounds it. *)
Lemma div_correct (mt md : positive) (et ed : Z) :
  let t := S754_finite false mt et in
  let d := S754_finite false md ed in
  let X := to_Q t / to_Q d in
  X <= 2 ^ 1000 ->
  is_finite (div t d) = true /\
  (- (X * u + eta) <= to_Q (div t d) - X /\ to_Q (div t d) - X <= X * u + eta) /\
  0 <= to_Q (div t d) /\
  (div t d = S754_zero false \/ exists mq eq, div t d = S754_finite false mq eq) /\
  exists e1,
    (- (2 ^ e1 * (1 # 2)) <= to_Q (div t d) - X /\ to_Q (div t d) - X <= 2 ^ e1 * (1 # 2)) /\
    (e1 = (-1074)%Z \/ 2 ^ 52 * 2 ^ e1 <= X) /\
    (exists m, (0 <= m)%Z /\ to_Q (div t d) == inject_Z m * 2 ^ e1).
Proof.
  intros t d X HX.
  destruct (SFdiv_finite_spec false false mt md et ed) as (B1 & B2 & B3 & B4 & B5).
  set (e' := Z.min (fexp prec emax (Zdigits2 (Z.pos mt) + et - (Zdigits2 (Z.pos md) + ed)))
                   (et - ed)) in *.
  set (N := (Z.pos mt * 2 ^ (et - ed - e'))%Z) in *.
  set (e1 := fexp prec emax (Zdigits2 (N / Z.pos md) + e')) in *.
  set (D' := (2 ^ (e1 - e') * Z.pos md)%Z) in *.
  assert (Hp1 : (0 < 2 ^ (et - ed - e'))%Z) by (apply Z.pow_pos_nonneg; lia).
  assert (Hp2 : (0 < 2 ^ (e1 - e'))%Z) by (apply Z.pow_pos_nonneg; lia).
  assert (HD : (0 < D')%Z) by (unfold D'; nia).
  assert (HN : (0 <= N)%Z) by (unfold N; nia).
  assert (HXe : X == inject_Z N / inject_Z D' * 2 ^ e1).
  { unfold X, t, d, N, D'. rewrite !to_Q_finite, !inject_Z_mult.
    rewrite !inject_Z_pow2 by lia.
    assert (E1 : 2 ^ et == 2 ^ (et - ed - e') * 2 ^ e' * 2 ^ ed).
    { rewrite <- !pow2_add. replace (et - ed - e' + e' + ed)%Z with et by lia. reflexivity. }
    assert (E2 : 2 ^ e1 == 2 ^ (e1 - e') * 2 ^ e').
    { rewrite <- pow2_add. replace (e1 - e' + e')%Z with e1 by lia. reflexivity. }
    rewrite E1, E2. field.
    repeat split; try apply pow2_neq0; apply inject_Z_pos_neq0. }
  destruct (rounded_error N D' e1 X HD HN B1 B2 HXe HX)
    as (R1 & R2 & R3 & R4 & R5 & R6 & R7 & R8).
  unfold div. fold t d in B5. rewrite B5.
  split; [exact R1|]. split; [exact R5|]. split; [exact R7|].
  split; [apply rounded_cases; exact R1|].
  exists e1. split; [exact R3|]. split; [exact R4|].
  eexists. split; [|exact R2].
  destruct (round_nearest_even_spec N D' HD HN) as ((Q1 & _) & _).
  assert ((0 <= N / D')%Z) by (apply Z.div_pos; lia). lia.
Qed.

(** The product of two positive finite doubles, the second with a full
    mantissa, as [Js.mul] rounds it. *)
Lemma mul_correct (mx my : positive) (ex ey : Z) :
  (2 ^ 52 <= Z.pos my)%Z ->
  let x := S754_finite false mx ex in
  let y := S754_finite false my ey in
  let X := to_Q x * to_Q y in
  X <= 2 ^ 1000 ->
  is_finite (mul x y) = true /\
  (- (X * u + eta) <= to_Q (mul x y) - X /\ to_Q (mul x y) - X <= X * u + eta) /\
  0 <= to_Q (mul x y).
Proof.
  intros Hy x y X HX.
  set (N := Z.pos (mx * my)).
  set (e0 := (ex + ey)%Z).
  assert (HN : (2 ^ 52 <= N)%Z) by (unfold N; rewrite Pos2Z.inj_mul; nia).
  assert (Hdig : (53 <= Zdigits2 N)%Z) by (apply Zdigits2_ge; [exact HN | reflexivity]).
  assert (He : (e0 <= fexp prec emax (Zdigits2 N + e0))%Z) by (rewrite fexp_eq; lia).
  assert (Hmx : N = (N / 1)%Z) by (rewrite Z.div_1_r; reflexivity).
  assert (Hlx : loc_Exact = loc_of (N mod 1) 1) by (rewrite Z.mod_1_r; reflexivity).
  destruct (binary_round_aux_spec false N e0 loc_Exact N 1 ltac:(lia) ltac:(lia) Hmx Hlx He)
    as (B1 & B2 & B3).
  set (e1 := fexp prec emax (Zdigits2 N + e0)) in *.
  set (D' := (2 ^ (e1 - e0) * 1)%Z) in *.
  assert (Hp : (0 < 2 ^ (e1 - e0))%Z) by (apply Z.pow_pos_nonneg; lia).
  assert (HD : (0 < D')%Z) by (unfold D'; lia).
  assert (HXe : X == inject_Z N / inject_Z D' * 2 ^ e1).
  { unfold X, x, y, N, D'. rewrite !to_Q_finite, Z.mul_1_r, Pos2Z.inj_mul, inject_Z_mult.
    rewrite inject_Z_pow2 by lia.
    assert (E2 : 2 ^ e1 == 2 ^ (e1 - e0) * (2 ^ ex * 2 ^ ey)).
    { rewrite <- !pow2_add. replace (e1 - e0 + (ex + ey))%Z with e1 by (unfold e0; lia).
      reflexivity. }
    rewrite E2. field. apply pow2_neq0. }
  destruct (rounded_error N D' e1 X HD ltac:(lia) B1 B2 HXe HX)
    as (R1 & R2 & R3 & R4 & R5 & R6 & R7 & R8).
  assert (Hmul : mul x y = binary_round_aux prec emax false N e0 loc_Exact) by reflexivity.
  rewrite Hmul, B3.
  split; [exact R1|]. split; [exact R5 | exact R7].
Qed.

End RoundingError.

Module ProgressBound.

Import Js Rounding RoundingError.
Local Open Scope Q_scope.

Lemma to_Q_100 : to_Q (of_Z 100) == 100.
Proof. vm_compute. reflexivity. Qed.

Lemma of_Z_100_finite : of_Z 100 = S754_finite false 7036874417766400 (-46).
Proof. vm_compute. reflexivity. Qed.

(** Two roundings, each within [u] relatively or [eta] absolutely: the
    quotient and then its hundredfold. *)
Lemma two_roundings (X q p e : Q) :
  0 <= X -> 0 <= e ->
  - (X * (1 # 9007199254740992) + e) <= q - X ->
  q - X <= X * (1 # 9007199254740992) + e ->
  - (q * 100 * (1 # 9007199254740992) + e) <= p - q * 100 ->
  p - q * 100 <= q * 100 * (1 # 9007199254740992) + e ->
  - (100 * X * (1 # 2251799813685248) + 128 * e) <= p - 100 * X /\
  p - 100 * X <= 100 * X * (1 # 2251799813685248) + 128 * e.
Proof. intros. split; lra. Qed.

Lemma progress_error (t d : number) :
  is_finite t = true -> is_finite d = true ->
  0 < to_Q d -> 0 <= to_Q t -> to_Q t <= to_Q d ->
  let x := 100 * (to_Q t / to_Q d) in
  let p := mul (div t d) (of_Z 100) in
  is_finite p = true /\
  Qabs (to_Q p - x) <= x * 2 ^ (-51) + 2 ^ (-1068).
Proof.
  intros Ft Fd Hd Ht0 Htd x p.
  assert (Hc : 2 ^ (-51) == 1 # 2251799813685248) by reflexivity.
  assert (He : 2 ^ (-1068) == 128 * eta) by (vm_compute; reflexivity).
  assert (He0 : 0 <= eta) by discriminate.
  rewrite Hc, He. apply and_comm. rewrite Qabs_Qle_condition. apply and_comm.
  destruct d as [sd|sd| |sd md ed]; try discriminate Fd; try discriminate Hd.
  destruct sd; [pose proof (to_Q_neg md ed); lra|]. clear Fd.
  destruct t as [st|st| |st mt et]; try discriminate Ft.
  - (* position zero *)
    assert (Hp : p = S754_zero st) by (unfold p; rewrite of_Z_100_finite; destruct st; reflexivity).
    rewrite Hp. split; [reflexivity|].
    assert (Hx : x == 0) by (unfold x, Qdiv; cbn [to_Q]; ring).
    rewrite Hx. cbn [to_Q]. split; lra.
  - destruct st; [pose proof (to_Q_neg mt et); lra|]. clear Ft.
    set (X := to_Q (S754_finite false mt et) / to_Q (S754_finite false md ed)) in *.
    assert (HX1 : X <= 1).
    { unfold X. apply Qle_shift_div_r; [exact Hd|]. rewrite Qmult_1_l. exact Htd. }
    assert (HX0 : 0 <= X).
    { unfold X. apply Qle_shift_div_l; [exact Hd|]. rewrite Qmult_0_l. exact Ht0. }
    assert (HXb : X <= 2 ^ 1000).
    { apply Qle_trans with (1 := HX1). vm_compute. discriminate. }
    destruct (div_correct mt md et ed HXb) as (D1 & (D2 & D3) & D4 & D5 & _).
    fold X in D2, D3.
    pose proof u_eq as Hu. change (1 # 2 ^ 53) with (1 # 9007199254740992) in Hu.
    rewrite Hu in D2, D3.
    unfold p. set (q := div (S754_finite false mt et) (S754_finite false md ed)) in *.
    destruct D5 as [Dz|(mq & eq & Dq)].
    + rewrite Dz, of_Z_100_finite. cbn [mul SFmul xorb is_finite to_Q].
      split; [reflexivity|].
      rewrite Dz in D2, D3. cbn [to_Q] in D2, D3. unfold x. fold X.
      clearbody X. split; lra.
    + rewrite Dq in *. rewrite of_Z_100_finite.
      assert (Hq3 : to_Q (S754_finite false mq eq) <= 3) by (clearbody X; lra).
      assert (H100 : to_Q (S754_finite false 7036874417766400 (-46)) == 100)
        by (vm_compute; reflexivity).
      assert (HXm : to_Q (S754_finite false mq eq) *
                    to_Q (S754_finite false 7036874417766400 (-46)) <= 2 ^ 1000).
      { rewrite H100. apply Qle_trans with 300; [|vm_compute; discriminate].
        set (qq := to_Q (S754_finite false mq eq)) in *. clearbody qq. lra. }
      destruct (mul_correct mq 7036874417766400 eq (-46) ltac:(vm_compute; discriminate) HXm)
        as (M1 & (M2 & M3) & M4).
      split; [exact M1|].
      rewrite H100, Hu in M2, M3. unfold x. fold X.
      set (qq := to_Q (S754_finite false mq eq)) in *.
      set (pp := to_Q (mul (S754_finite false mq eq)
                           (S754_finite false 7036874417766400 (-46)))) in *.
      clearbody X qq pp.
      apply two_roundings with qq; assumption.
Qed.

End ProgressBound.

Module FormatTimeProof.

Import Js Rounding RoundingError.

Lemma of_Z_60 : of_Z 60 = S754_finite false 8444249301319680 (-47).
Proof. vm_compute. reflexivity. Qed.

Lemma of_Z_0 : of_Z 0 = S754_zero false.
Proof. reflexivity. Qed.

(** A valid non-negative double below 2^53 has a mantissa below 2^53 and an
    exponent between -1074 and 0. *)
Lemma valid_small (ms : positive) (es : Z) :
  valid (S754_finite false ms es) = true ->
  (to_Q (S754_finite false ms es) < inject_Z (2 ^ 53))%Q ->
  Z.pos ms < 2 ^ 53 /\ -1074 <= es <= 0.
Proof.
  intros Hv Hlt. unfold valid, valid_binary, bounded, canonical_mantissa in Hv.
  apply andb_true_iff in Hv. destruct Hv as (Hc & Hb).
  apply Z.eqb_eq in Hc. apply Z.leb_le in Hb. rewrite fexp_eq in Hc.
  change (Z.pos (digits2_pos ms)) with (Zdigits2 (Z.pos ms)) in Hc.
  pose proof (Zdigits2_bounds (Z.pos ms) ltac:(lia)) as [B1 B2].
  assert (Hd : Zdigits2 (Z.pos ms) <= 53) by lia.
  assert (Hm : Z.pos ms < 2 ^ 53).
  { apply Z.lt_le_trans with (1 := B2). apply Z.pow_le_mono_r; lia. }
  split; [exact Hm|]. split; [lia|].
  destruct (Z.le_gt_cases es 0) as [|Hpos]; [assumption|exfalso].
  assert (Hd53 : Zdigits2 (Z.pos ms) = 53) by lia.
  rewrite Hd53 in B1. change (2 ^ (53 - 1)) with (2 ^ 52) in B1.
  rewrite to_Q_finite in Hlt.
  assert (H2 : (2 <= 2 ^ es)%Q) by (apply (pow2_le 1 es); lia).
  assert (H52 : (inject_Z (2 ^ 52) <= inject_Z (Z.pos ms))%Q) by (rewrite <- Zle_Qle; exact B1).
  assert (Hprod : (inject_Z (2 ^ 52) * 2 <= inject_Z (Z.pos ms) * 2 ^ es)%Q).
  { apply Qle_trans with (inject_Z (Z.pos ms) * 2)%Q.
    - apply Qmult_le_compat_r; [exact H52 | discriminate].
    - rewrite !(Qmult_comm (inject_Z (Z.pos ms))).
      apply Qmult_le_compat_r; [exact H2 | discriminate]. }
  assert (E : (inject_Z (2 ^ 52) * 2 == inject_Z (2 ^ 53))%Q) by reflexivity.
  rewrite E in Hprod.
  apply (Qlt_irrefl (inject_Z (2 ^ 53))).
  apply Qle_lt_trans with (1 := Hprod). exact Hlt.
Qed.

(** [Math.floor] of a rounded value with a negative exponent. *)
Lemma floor_rounded (m e1 : Z) :
  e1 <= -1 -> 0 <= m <= 2 ^ 53 ->
  floor (rounded false m e1) = of_Z (m / 2 ^ (- e1)).
Proof.
  intros He Hm. unfold rounded.
  destruct (Z.eqb_spec m 0) as [E0|E0].
  - subst m. rewrite Z.div_0_l; [reflexivity|].
    apply Z.pow_nonzero; lia.
  - destruct (Z.eqb_spec m (2 ^ 53)) as [E1|E1].
    + subst m. destruct (Z.leb_spec (e1 + 1) 971); [|lia].
      assert (Hq : 2 ^ 53 / 2 ^ (- e1) = 2 ^ 52 / 2 ^ (- e1 - 1)).
      { assert (Hp : 2 ^ (- e1) = 2 ^ 1 * 2 ^ (- e1 - 1))
          by (rewrite <- Z.pow_add_r by lia; f_equal; lia).
        rewrite Hp. change (2 ^ 53) with (2 ^ 1 * 2 ^ 52).
        rewrite Z.div_mul_cancel_l; [reflexivity | | lia].
        apply Z.pow_nonzero; lia. }
      rewrite Hq. destruct (e1 + 1) as [|q|q] eqn:Eq; [|lia|].
      * replace (- e1 - 1) with 0 by lia. vm_compute. reflexivity.
      * cbn [floor]. replace (- e1 - 1) with (Z.pos q) by lia. reflexivity.
    + destruct (Z.leb_spec e1 971); [|lia].
      destruct e1 as [|q|q]; try lia.
      cbn [floor]. rewrite Z2Pos.id by lia. reflexivity.
Qed.

(** The minutes: rounding the quotient by 60 never crosses an integer
    while the seconds are below 2^53. *)
Lemma floor_div_60 (ms : positive) (es : Z) :
  Z.pos ms < 2 ^ 53 -> -1074 <= es <= 0 ->
  floor (div (S754_finite false ms es) (of_Z 60))
  = of_Z (Z.pos ms / (60 * 2 ^ (- es))).
Proof.
  intros Hms Hes. rewrite of_Z_60.
  destruct (SFdiv_finite_spec false false ms 8444249301319680 es (-47))
    as (B1 & B2 & B3 & B4 & B5).
  cbn [xorb] in B5. unfold div. rewrite B5. clear B5.
  change (Zdigits2 (Z.pos 8444249301319680)) with 53 in *.
  set (ds := Zdigits2 (Z.pos ms)) in *.
  set (e' := Z.min (fexp prec emax (ds + es - (53 + -47))) (es - -47)) in *.
  set (N := Z.pos ms * 2 ^ (es - -47 - e')) in *.
  set (e1 := fexp prec emax (Zdigits2 (N / Z.pos 8444249301319680) + e')) in *.
  set (D' := 2 ^ (e1 - e') * Z.pos 8444249301319680) in *.
  set (m := round_nearest_even (N / D') (loc_of (N mod D') D')) in *.
  set (g := 2 ^ (- es)).
  assert (Hg : 0 < g) by (apply Z.pow_pos_nonneg; lia).
  assert (Hds : 1 <= ds <= 53).
  { pose proof (Zdigits2_bounds (Z.pos ms) ltac:(lia)) as [X1 X2]. fold ds in X1, X2.
    split; [unfold ds; simpl; lia|].
    destruct (Z.le_gt_cases ds 53) as [|Hgt]; [assumption|].
    assert (2 ^ 53 <= 2 ^ (ds - 1)) by (apply Z.pow_le_mono_r; lia). lia. }
  assert (Hs' : 0 < 2 ^ (es - -47 - e')) by (apply Z.pow_pos_nonneg; lia).
  assert (HN : 0 < N) by (unfold N; nia).
  assert (Hp1 : 0 < 2 ^ (e1 - e')) by (apply Z.pow_pos_nonneg; lia).
  assert (HD : 0 < D') by (unfold D'; nia).
  destruct (round_nearest_even_spec N D' HD ltac:(lia)) as ((R1 & R2) & R3 & _).
  fold m in R1, R2, R3.
  assert (Hq0 : 0 <= N / D') by (apply Z.div_pos; lia).
  (* the exponent of the result *)
  assert (He1 : e1 <= Z.max (es - 5) (-1074)).
  { set (q0 := N / Z.pos 8444249301319680) in *.
    assert (Hq : Zdigits2 q0 <= Z.max (ds + (es - -47 - e') - 52) 0).
    { pose proof (Zdigits2_upper (Z.pos ms) ltac:(lia)) as U. fold ds in U.
      destruct (Z.le_gt_cases 52 (ds + (es - -47 - e'))) as [Hbig|Hsmall].
      - apply Z.le_trans with (ds + (es - -47 - e') - 52); [|lia].
        apply Zdigits2_le; [lia|]. split; [apply Z.div_pos; lia|].
        apply Z.div_lt_upper_bound; [lia|].
        apply Z.lt_le_trans with (2 ^ ds * 2 ^ (es - -47 - e')).
        + unfold N. apply Z.mul_lt_mono_pos_r; lia.
        + assert (P : 2 ^ ds * 2 ^ (es - -47 - e')
                      = 2 ^ 52 * 2 ^ (ds + (es - -47 - e') - 52))
            by (rewrite <- !Z.pow_add_r by lia; f_equal; lia).
          rewrite P.
          apply Z.mul_le_mono_nonneg_r; [apply Z.pow_nonneg; lia|].
          vm_compute. discriminate.
      - assert (q0 = 0) as ->; [|simpl; lia].
        apply Z.div_small. split; [lia|].
        apply Z.lt_le_trans with (2 ^ 52); [|vm_compute; discriminate].
        apply Z.lt_le_trans with (2 ^ ds * 2 ^ (es - -47 - e')).
        + unfold N. apply Z.mul_lt_mono_pos_r; lia.
        + rewrite <- Z.pow_add_r by lia. apply Z.pow_le_mono_r; lia. }
    unfold e1. rewrite fexp_eq. unfold e' in Hq |- *. rewrite fexp_eq in Hq |- *.
    clearbody q0. lia. }
  assert (Hm : 0 <= m <= 2 ^ 53) by lia.
  destruct (Z.le_gt_cases e1 (es - 5)) as [Hnorm|Hsub].
  - (* the result is normal *)
    rewrite floor_rounded by lia. f_equal.
    set (G := 2 ^ (- e1)).
    assert (HG : 0 < G) by (apply Z.pow_pos_nonneg; lia).
    assert (HG32 : 32 * g <= G).
    { unfold G, g. change 32 with (2 ^ 5). rewrite <- Z.pow_add_r by lia.
      apply Z.pow_le_mono_r; lia. }
    set (T := 2 ^ (47 - e')).
    assert (HT : 0 < T) by (apply Z.pow_pos_nonneg; lia).
    assert (I1 : D' * G = 60 * T).
    { unfold D', G, T. change (Z.pos 8444249301319680) with (60 * 2 ^ 47).
      replace (2 ^ (47 - e')) with (2 ^ (e1 - e') * 2 ^ 47 * 2 ^ (- e1)).
      - ring.
      - rewrite <- !Z.pow_add_r by lia. f_equal. lia. }
    assert (I2 : N * g = Z.pos ms * T).
    { unfold N, g, T. rewrite <- Z.mul_assoc, <- Z.pow_add_r by lia.
      f_equal. f_equal. lia. }
    set (M := Z.pos ms / (60 * g)).
    assert (HM : N / D' / G = M).
    { rewrite Z.div_div by lia. rewrite I1.
      rewrite <- (Z.div_mul_cancel_r N (60 * T) g) by lia.
      rewrite I2. replace (60 * T * g) with (60 * g * T) by ring.
      rewrite Z.div_mul_cancel_r by lia. reflexivity. }
    pose proof (Z.mul_div_le (N / D') G HG) as L1. rewrite HM in L1.
    pose proof (Z.mul_succ_div_gt (N / D') G HG) as L2. rewrite HM in L2.
    pose proof (Z.mul_succ_div_gt (Z.pos ms) (60 * g) ltac:(lia)) as L3. fold M in L3.
    symmetry. apply Z.div_unique with (m - G * M); [|ring].
    left. split; [lia|].
    destruct (Z.lt_ge_cases (m - G * M) G) as [|Hbad]; [assumption|exfalso].
    assert (Em : m = G * Z.succ M) by lia.
    assert (Hpos : 0 < m * D' - N).
    { pose proof (Z.mul_succ_div_gt N D' HD). nia. }
    rewrite Z.abs_eq in R3 by lia.
    assert (E3 : (m * D' - N) * g = T * (60 * g * Z.succ M - Z.pos ms)).
    { rewrite Z.mul_sub_distr_r, I2, Em.
      replace (G * Z.succ M * D' * g) with (D' * G * (Z.succ M * g)) by ring.
      rewrite I1. ring. }
    assert (Hdelta : 1 <= 60 * g * Z.succ M - Z.pos ms) by lia.
    assert (E4 : 2 * T * G <= D' * G * g).
    { apply Z.le_trans with (2 * (T * (60 * g * Z.succ M - Z.pos ms)) * G).
      - nia.
      - rewrite <- E3. nia. }
    rewrite I1 in E4. nia.
  - (* the result is subnormal: the quotient is below 1 *)
    assert (Hlow : -1074 <= e1) by (unfold e1; rewrite fexp_eq; lia).
    assert (E1 : e1 = -1074) by lia.
    rewrite floor_rounded by lia. f_equal.
    rewrite Z.div_small.
    + symmetry. apply Z.div_small. split; [lia|].
      assert (2 ^ 53 <= g); [|lia].
      unfold g. apply Z.pow_le_mono_r; lia.
    + split; [lia|]. rewrite E1. apply Z.le_lt_trans with (2 ^ 53); [lia|].
      vm_compute. reflexivity.
Qed.

(** The seconds: the remainder by 60 is exact. *)
Lemma floor_rem_60 (ms : positive) (es : Z) :
  Z.pos ms < 2 ^ 53 -> -1074 <= es <= 0 ->
  floor (rem (S754_finite false ms es) (of_Z 60))
  = of_Z (Z.pos ms mod (60 * 2 ^ (- es)) / 2 ^ (- es)).
Proof.
  intros Hms Hes. rewrite of_Z_60. cbn [rem].
  set (g := 2 ^ (- es)).
  assert (Hg : 0 < g) by (apply Z.pow_pos_nonneg; lia).
  set (e := Z.min es (-47)).
  set (a := Z.pos ms * 2 ^ (es - e)).
  set (b := Z.pos 8444249301319680 * 2 ^ (-47 - e)).
  assert (Hpa : 0 < 2 ^ (es - e)) by (apply Z.pow_pos_nonneg; lia).
  assert (Hpb : 0 < 2 ^ (-47 - e)) by (apply Z.pow_pos_nonneg; lia).
  assert (Hb : 0 < b) by (unfold b; nia).
  assert (Ha : 0 < a) by (unfold a; nia).
  pose proof (Z.mod_pos_bound a b Hb) as Hr.
  (* the remainder in the scale of the dividend *)
  assert (Hval : a mod b / 2 ^ (- e) = Z.pos ms mod (60 * g) / g /\ a mod b < 2 ^ 53).
  { destruct (Z.le_gt_cases es (-47)) as [Hle|Hgt].
    - assert (Ee : e = es) by (unfold e; lia).
      assert (Ea : a = Z.pos ms).
      { unfold a. rewrite Ee, Z.sub_diag, Z.pow_0_r. lia. }
      assert (Eb : b = 60 * g).
      { unfold b, g. rewrite Ee. change (Z.pos 8444249301319680) with (60 * 2 ^ 47).
        rewrite <- Z.mul_assoc, <- Z.pow_add_r by lia. f_equal. f_equal. lia. }
      rewrite Ea, Eb, Ee. fold g. split; [reflexivity|].
      pose proof (Z.mod_le (Z.pos ms) (60 * g) ltac:(lia) ltac:(lia)). lia.
    - assert (Ee : e = -47) by (unfold e; lia).
      set (h := 2 ^ (es + 47)).
      assert (Hh : 0 < h) by (apply Z.pow_pos_nonneg; lia).
      assert (Egh : g * h = 2 ^ 47).
      { unfold g, h. rewrite <- Z.pow_add_r by lia. f_equal. lia. }
      assert (Ea : a = Z.pos ms * h).
      { unfold a, h. rewrite Ee. reflexivity. }
      assert (Eb : b = 60 * g * h).
      { unfold b. rewrite Ee. change (-47 - -47) with 0. rewrite Z.pow_0_r, Z.mul_1_r.
        rewrite <- Z.mul_assoc, Egh. reflexivity. }
      rewrite Ea, Eb, Ee. change (- -47) with 47. rewrite <- Egh.
      rewrite Z.mul_mod_distr_r by lia.
      rewrite Z.div_mul_cancel_r by lia. split; [reflexivity|].
      rewrite <- Z.mul_mod_distr_r by lia. rewrite <- Ea, <- Eb.
      apply Z.lt_trans with b; [lia|]. rewrite Eb, <- Z.mul_assoc, Egh.
      vm_compute. reflexivity. }
  destruct Hval as (Hval & Hr53).
  destruct (a mod b) as [|r|r] eqn:Er; [| |lia].
  - (* remainder zero *)
    cbn [binary_normalize floor]. rewrite <- Hval. rewrite Z.div_0_l; [reflexivity|].
    apply Z.pow_nonzero; lia.
  - assert (Hdr : Zdigits2 (Z.pos r) <= 53) by (apply Zdigits2_le; lia).
    pose proof (Zdigits2_nonneg (Z.pos r)) as Hd0.
    assert (He : -1074 <= e) by (unfold e; lia).
    assert (Hov : fexp prec emax (Zdigits2 (Z.pos r) + e) <= 971)
      by (rewrite fexp_eq; unfold e; lia).
    destruct (binary_normalize_exact r e false Hdr He Hov) as (Hle & Hn).
    rewrite Hn. set (e1 := fexp prec emax (Zdigits2 (Z.pos r) + e)) in *.
    assert (He1 : e1 <= -47) by (unfold e in Hle; lia).
    assert (Hp : 0 < 2 ^ (e - e1)) by (apply Z.pow_pos_nonneg; lia).
    destruct e1 as [|q|q] eqn:Eq; try lia.
    cbn [floor]. rewrite Z2Pos.id by nia.
    unfold of_Z. f_equal. rewrite <- Hval.
    assert (Ep : 2 ^ Z.pos q = 2 ^ (- e) * 2 ^ (e - Z.neg q)).
    { rewrite <- Z.pow_add_r by lia. f_equal. lia. }
    rewrite Ep. rewrite Z.div_mul_cancel_r; [reflexivity | | lia].
    apply Z.pow_nonzero; lia.
Qed.

End FormatTimeProof.

(** ** Decimal numerals *)

Module Numerals.

Import Js.
Local Open Scope string_scope.
Local Open Scope Z_scope.

Lemma append_assoc (a b c : string) : (a ++ b) ++ c = a ++ (b ++ c).
Proof. induction a as [|x a IH]; [reflexivity|]. cbn [append]. rewrite IH. reflexivity. Qed.

Lemma append_nil_r (a : string) : a ++ "" = a.
Proof. induction a as [|x a IH]; [reflexivity|]. cbn [append]. rewrite IH. reflexivity. Qed.

Lemma numeral_fuel_acc (fuel : nat) (n : Z) (acc : string) :
  numeral_fuel fuel n acc = numeral_fuel fuel n "" ++ acc.
Proof.
  revert n acc. induction fuel as [|fuel IH]; intros n acc; cbn [numeral_fuel].
  - reflexivity.
  - destruct (n <? 10); [reflexivity|].
    rewrite IH. rewrite (IH _ (String _ "")).
    rewrite append_assoc. reflexivity.
Qed.

Lemma pow2_S (f : nat) : 2 ^ Z.of_nat (S f) = 2 * 2 ^ Z.of_nat f.
Proof. rewrite Nat2Z.inj_succ, Z.pow_succ_r by lia. reflexivity. Qed.

(** Enough fuel is as good as more. *)
Lemma numeral_fuel_enough (f1 f2 : nat) (n : Z) (acc : string) :
  0 <= n < 2 ^ Z.of_nat (S f1) -> n < 2 ^ Z.of_nat (S f2) ->
  numeral_fuel (S f1) n acc = numeral_fuel (S f2) n acc.
Proof.
  revert f2 n acc. induction f1 as [|f1 IH]; intros f2 n acc H1 H2.
  - change (2 ^ Z.of_nat 1) with 2 in H1. cbn [numeral_fuel].
    destruct (Z.ltb_spec n 10); [reflexivity | lia].
  - cbn [numeral_fuel]. destruct (Z.ltb_spec n 10) as [|Hge]; [reflexivity|].
    fold (numeral_fuel (S f1)). 
    destruct f2 as [|f2].
    + change (2 ^ Z.of_nat 1) with 2 in H2. lia.
    + fold (numeral_fuel (S f2)). apply IH.
      * rewrite pow2_S in H1. split; [apply Z.div_pos; lia|].
        apply Z.div_lt_upper_bound; lia.
      * rewrite pow2_S in H2. apply Z.div_lt_upper_bound; lia.
Qed.

Lemma log2_fuel (n : Z) : 0 <= n -> n < 2 ^ Z.of_nat (S (Z.to_nat (Z.log2 n))).
Proof.
  intros Hn. rewrite Nat2Z.inj_succ, Z2Nat.id by apply Z.log2_nonneg.
  destruct (Z.eq_dec n 0) as [->|]; [reflexivity|].
  apply Z.log2_spec. lia.
Qed.

Lemma numeral_mul10 (b : Z) : 1 <= b -> numeral (10 * b) = numeral b ++ "0".
Proof.
  intros Hb. unfold numeral at 1. cbn [numeral_fuel].
  destruct (Z.ltb_spec (10 * b) 10); [lia|].
  rewrite Z.mul_comm, Z.mod_mul, Z.div_mul by lia.
  change (String (digit_char 0) "") with "0".
  pose proof (log2_fuel (b * 10) ltac:(lia)) as Hf.
  destruct (Z.to_nat (Z.log2 (b * 10))) as [|L] eqn:EL.
  - change (2 ^ Z.of_nat 1) with 2 in Hf. lia.
  - rewrite numeral_fuel_acc. f_equal. unfold numeral.
    apply numeral_fuel_enough.
    + rewrite pow2_S in Hf. lia.
    + apply log2_fuel. lia.
Qed.

Lemma zeros_snoc (z : nat) : zeros z ++ "0" = zeros (S z).
Proof. induction z as [|z IH]; [reflexivity|]. cbn [zeros append]. rewrite IH. reflexivity. Qed.

(** Trailing zeros of a multiple of a power of ten. *)
Lemma numeral_pow10 (a : Z) (z : nat) :
  1 <= a -> numeral (a * 10 ^ Z.of_nat z) = numeral a ++ zeros z.
Proof.
  intros Ha. induction z as [|z IH].
  - rewrite Z.mul_1_r. cbn [zeros]. rewrite append_nil_r. reflexivity.
  - rewrite Nat2Z.inj_succ, Z.pow_succ_r by lia.
    replace (a * (10 * 10 ^ Z.of_nat z)) with (10 * (a * 10 ^ Z.of_nat z)) by ring.
    assert (0 < 10 ^ Z.of_nat z) by (apply Z.pow_pos_nonneg; lia).
    rewrite numeral_mul10 by nia. rewrite IH, append_assoc, zeros_snoc.
    reflexivity.
Qed.

Lemma digits10_fuel_spec (fuel : nat) (n : Z) :
  1 <= n < 2 ^ (Z.of_nat fuel + 1) ->
  1 <= digits10_fuel fuel n /\
  10 ^ (digits10_fuel fuel n - 1) <= n < 10 ^ digits10_fuel fuel n.
Proof.
  revert n. induction fuel as [|fuel IH]; intros n Hn; cbn [digits10_fuel].
  - change (2 ^ (Z.of_nat 0 + 1)) with 2 in Hn.
    change (10 ^ (1 - 1)) with 1. change (10 ^ 1) with 10. lia.
  - destruct (Z.ltb_spec n 10) as [Hlt|Hge].
    + change (10 ^ (1 - 1)) with 1. change (10 ^ 1) with 10. lia.
    + assert (Hq : 1 <= n / 10 < 2 ^ (Z.of_nat fuel + 1)).
      { split; [apply Z.div_le_lower_bound; lia|].
        apply Z.div_lt_upper_bound; [lia|].
        rewrite Nat2Z.inj_succ in Hn.
        replace (Z.succ (Z.of_nat fuel) + 1) with (Z.succ (Z.of_nat fuel + 1)) in Hn by lia.
        rewrite Z.pow_succ_r in Hn by lia. lia. }
      destruct (IH _ Hq) as (K1 & K2 & K3).
      set (k := digits10_fuel fuel (n / 10)) in *.
      pose proof (Z.div_mod n 10 ltac:(lia)) as E.
      pose proof (Z.mod_pos_bound n 10 ltac:(lia)) as B.
      replace (1 + k - 1) with (Z.succ (k - 1)) by lia.
      replace (1 + k) with (Z.succ k) by lia.
      rewrite !Z.pow_succ_r by lia. lia.
Qed.

Lemma digits10_spec (n : Z) :
  1 <= n -> 1 <= digits10 n /\ 10 ^ (digits10 n - 1) <= n < 10 ^ digits10 n.
Proof.
  intros Hn. apply digits10_fuel_spec. split; [exact Hn|].
  rewrite Z2Nat.id by apply Z.log2_nonneg.
  replace (Z.log2 n + 1) with (Z.succ (Z.log2 n)) by lia.
  apply Z.log2_spec. lia.
Qed.

End Numerals.

(** ** [Number::toString] on the integers below 2^53 *)

Module ToStringProof.

Import Js Rounding Numerals.
Local Open Scope string_scope.
Local Open Scope Z_scope.

Lemma same_refl (x : number) : same x x = true.
Proof.
  destruct x as [s|s| |s m e]; cbn [same]; rewrite ?Bool.eqb_reflx; try reflexivity.
  rewrite Pos.eqb_refl, Z.eqb_refl. reflexivity.
Qed.

Lemma same_eq (x y : number) : same x y = true -> x = y.
Proof.
  destruct x as [s|s| |s m e], y as [s'|s'| |s' m' e']; cbn [same];
    try discriminate; intros H.
  - apply Bool.eqb_prop in H. congruence.
  - apply Bool.eqb_prop in H. congruence.
  - reflexivity.
  - apply andb_true_iff in H. destruct H as (H & He).
    apply andb_true_iff in H. destruct H as (Hs & Hm).
    apply Bool.eqb_prop in Hs. apply Pos.eqb_eq in Hm. apply Z.eqb_eq in He.
    congruence.
Qed.

(** The double of an integer below 2^53: its mantissa is the integer
    shifted to 53 digits. *)
Lemma of_Z_small (M : Z) :
  1 <= M < 2 ^ 53 ->
  let e1 := Zdigits2 M - 53 in
  e1 <= 0 /\ of_Z M = S754_finite false (Z.to_pos (M * 2 ^ (- e1))) e1.
Proof.
  intros HM e1. destruct M as [|pm|pm]; try lia.
  assert (Hd : Zdigits2 (Z.pos pm) <= 53) by (apply Zdigits2_le; lia).
  assert (Hd1 : 1 <= Zdigits2 (Z.pos pm)) by (simpl; lia).
  assert (Hf : fexp prec emax (Zdigits2 (Z.pos pm) + 0) = e1)
    by (rewrite fexp_eq; unfold e1; lia).
  destruct (binary_normalize_exact pm 0 false Hd ltac:(lia)) as (Hle & Hn);
    [rewrite Hf; lia|].
  rewrite Hf in Hle, Hn. split; [exact Hle|]. unfold of_Z. rewrite Hn.
  rewrite Z.sub_0_l. reflexivity.
Qed.

(** An integer of 2^53 or more rounds to a double with a positive
    exponent, or to infinity. *)
Lemma of_Z_large (c : Z) :
  2 ^ 53 <= c ->
  of_Z c = S754_infinity false \/
  exists m e, 1 <= e /\ of_Z c = S754_finite false m e.
Proof.
  intros Hc. destruct c as [|pc|pc]; try lia.
  assert (Hd : 54 <= Zdigits2 (Z.pos pc)).
  { apply Zdigits2_ge; [exact Hc | lia]. }
  unfold of_Z. cbn [binary_normalize]. unfold binary_round.
  change (Z.pos (digits2_pos pc)) with (Zdigits2 (Z.pos pc)).
  set (e1 := fexp prec emax (Zdigits2 (Z.pos pc) + 0)).
  assert (He1 : 1 <= e1) by (unfold e1; rewrite fexp_eq; lia).
  assert (Hsh : shl_align pc 0 e1 = (pc, 0)).
  { unfold shl_align. destruct (e1 - 0) eqn:E; try lia; reflexivity. }
  rewrite Hsh.
  assert (Hmx : Z.pos pc = Z.pos pc / 1) by (rewrite Z.div_1_r; reflexivity).
  assert (Hlx : loc_Exact = loc_of (Z.pos pc mod 1) 1) by (rewrite Z.mod_1_r; reflexivity).
  destruct (binary_round_aux_spec false (Z.pos pc) 0 loc_Exact (Z.pos pc) 1
              ltac:(lia) ltac:(lia) Hmx Hlx ltac:(fold e1; lia)) as (A1 & A2 & A3).
  fold e1 in A1, A2, A3. rewrite A3.
  set (D' := 2 ^ (e1 - 0) * 1) in *.
  assert (HD : 0 < D').
  { unfold D'. rewrite Z.mul_1_r. apply Z.pow_pos_nonneg; lia. }
  destruct (round_nearest_even_spec (Z.pos pc) D' HD ltac:(lia)) as ((R1 & R2) & _).
  set (m := round_nearest_even (Z.pos pc / D') (loc_of (Z.pos pc mod D') D')) in *.
  assert (Hm : 2 ^ 52 <= m) by (destruct A1; lia).
  unfold rounded.
  destruct (Z.eqb_spec m 0); [exfalso; revert Hm; subst m; lia|].
  destruct (m =? 2 ^ 53).
  - destruct (e1 + 1 <=? 971); [right; eexists; eexists; split; [|reflexivity]; lia | left; reflexivity].
  - destruct (e1 <=? 971); [right; eexists; eexists; split; [|reflexivity]; lia | left; reflexivity].
Qed.

(** Below 2^53 only the integer itself rounds to its double. *)
Lemma of_Z_same (c M : Z) :
  0 <= c -> 1 <= M < 2 ^ 53 ->
  same (of_Z c) (of_Z M) = true -> c = M.
Proof.
  intros Hc HM Hs. apply same_eq in Hs.
  destruct (of_Z_small M HM) as (He & EM). rewrite EM in Hs.
  destruct (Z.eq_dec c 0) as [->|Hc0]; [discriminate Hs|].
  destruct (Z.lt_ge_cases c (2 ^ 53)) as [Hlt|Hge].
  - destruct (of_Z_small c ltac:(lia)) as (He' & Ec). rewrite Ec in Hs.
    injection Hs as Hm Hd.
    assert (Hp : 0 < 2 ^ (- (Zdigits2 M - 53))) by (apply Z.pow_pos_nonneg; lia).
    assert (Hd' : Zdigits2 c = Zdigits2 M) by lia.
    rewrite Hd' in Hm.
    apply (f_equal Z.pos) in Hm. rewrite !Z2Pos.id in Hm by nia. nia.
  - destruct (of_Z_large c Hge) as [E|(m & e & He1 & E)]; rewrite E in Hs.
    + discriminate Hs.
    + injection Hs as _ Hd. lia.
Qed.

Lemma scaled_floor_integer (M den t : Z) :
  0 < den -> t <= 0 -> scaled_floor (M * den) den t = M / 10 ^ (- t).
Proof.
  intros Hden Ht. unfold scaled_floor.
  destruct (Z.leb_spec 0 t) as [H0|H0].
  - replace t with 0 by lia. change (- 0) with 0. rewrite Z.pow_0_r, Z.mul_1_r, Z.div_1_r.
    apply Z.div_mul. lia.
  - rewrite (Z.mul_comm den). apply Z.div_mul_cancel_r; [|lia].
    apply Z.pow_nonzero; lia.
Qed.

(** The digit search on an integer [M] below 2^53 with [K] decimal digits
    stops at the first length [k] for which the [K - k] last digits of [M]
    are zeros, with the first [k] digits of [M]. *)
Lemma shortest_integer (M den K : Z) :
  1 <= M < 2 ^ 53 -> 0 < den ->
  10 ^ (K - 1) <= M < 10 ^ K ->
  forall (fuel : nat) (k : Z),
    1 <= k <= K -> K - k < Z.of_nat fuel ->
    exists z, 0 <= z <= K - k /\ M = M / 10 ^ z * 10 ^ z /\
      shortest fuel k (of_Z M) (M * den) den K = (M / 10 ^ z, K - z, K).
Proof.
  intros HM Hden HK. induction fuel as [|fuel IH]; intros k Hk Hfuel; [lia|].
  cbn [shortest].
  rewrite scaled_floor_integer by lia.
  replace (- (k - K)) with (K - k) by lia.
  set (P := 10 ^ (K - k)).
  assert (HP : 0 < P) by (apply Z.pow_pos_nonneg; lia).
  set (lo := M / P).
  pose proof (Z.mul_div_le M P HP) as L1. fold lo in L1.
  pose proof (Z.mul_succ_div_gt M P HP) as L2. fold lo in L2.
  assert (Hlo0 : 0 <= lo) by (apply Z.div_pos; lia).
  assert (Elo : of_decimal lo (K - k) = of_Z (lo * P)).
  { unfold of_decimal. destruct (Z.leb_spec 0 (K - k)); [reflexivity | lia]. }
  rewrite Elo.
  assert (Ehi : (let '(hi', nhi) := if lo + 1 =? 10 ^ k
                                     then (10 ^ (k - 1), K + 1) else (lo + 1, K) in
                 of_decimal hi' (nhi - k)) = of_Z ((lo + 1) * P)).
  { destruct (Z.eqb_spec (lo + 1) (10 ^ k)) as [E|E].
    - unfold of_decimal. destruct (Z.leb_spec 0 (K + 1 - k)); [|lia].
      f_equal. rewrite E. unfold P. rewrite <- !Z.pow_add_r by lia. f_equal. lia.
    - unfold of_decimal. destruct (Z.leb_spec 0 (K - k)); [reflexivity | lia]. }
  assert (Hhi : same (of_Z ((lo + 1) * P)) (of_Z M) = false).
  { destruct (same (of_Z ((lo + 1) * P)) (of_Z M)) eqn:Es; [|reflexivity].
    apply of_Z_same in Es; [lia | nia | exact HM]. }
  destruct (if lo + 1 =? 10 ^ k then (10 ^ (k - 1), K + 1) else (lo + 1, K))
    as [hi' nhi] eqn:Eh.
  cbv zeta in Ehi. rewrite Ehi, Hhi, andb_false_r.
  destruct (same (of_Z (lo * P)) (of_Z M)) eqn:Es.
  - apply of_Z_same in Es; [|nia | exact HM].
    exists (K - k). fold P. fold lo. split; [lia|]. split; [lia|].
    replace (K - (K - k)) with k by lia. reflexivity.
  - assert (Hne : lo * P <> M).
    { intros E. rewrite E, same_refl in Es. discriminate Es. }
    assert (HkK : k < K).
    { destruct (Z.eq_dec k K) as [E|]; [|lia]. exfalso. apply Hne.
      unfold lo, P. rewrite E, Z.sub_diag, Z.pow_0_r, Z.div_1_r. lia. }
    destruct (IH (k + 1)) as (z & Hz & HzM & Hsh); [lia | lia |].
    exists z. split; [lia|]. split; [exact HzM | exact Hsh].
Qed.

Lemma pow10_16 : 2 ^ 53 < 10 ^ 16.
Proof. reflexivity. Qed.

(** A template literal renders an integer below 2^53 as its decimal
    numeral. *)
Lemma toString_of_Z (M : Z) :
  0 <= M < 2 ^ 53 -> toString (of_Z M) = numeral M.
Proof.
  intros HM. destruct (Z.eq_dec M 0) as [->|H0]; [reflexivity|].
  destruct (of_Z_small M ltac:(lia)) as (He & EM).
  set (e1 := Zdigits2 M - 53) in *.
  assert (Hp : 0 < 2 ^ (- e1)) by (apply Z.pow_pos_nonneg; lia).
  pose proof EM as Ex. rewrite EM. cbn [toString append].
  unfold positive_toString.
  assert (Hr : ratio (Z.to_pos (M * 2 ^ (- e1))) e1 = (M * 2 ^ (- e1), 2 ^ (- e1))).
  { unfold ratio. rewrite Z2Pos.id by nia.
    destruct (Z.leb_spec 0 e1) as [Hz|Hz]; [|reflexivity].
    replace e1 with 0 by lia. change (- 0) with 0.
    rewrite !Z.pow_0_r, !Z.mul_1_r. reflexivity. }
  rewrite Hr. rewrite <- Ex.
  destruct (Numerals.digits10_spec M ltac:(lia)) as (K1 & K2 & K3).
  assert (Hmag : magnitude10 (M * 2 ^ (- e1)) (2 ^ (- e1)) = digits10 M).
  { unfold magnitude10. destruct (Z.leb_spec (2 ^ (- e1)) (M * 2 ^ (- e1))) as [|Hbad]; [|nia].
    rewrite Z.div_mul by lia. reflexivity. }
  rewrite Hmag. set (K := digits10 M) in *.
  assert (HK16 : K <= 16).
  { destruct (Z.le_gt_cases K 16) as [|Hgt]; [assumption|exfalso].
    assert (10 ^ 16 <= 10 ^ (K - 1)) by (apply Z.pow_le_mono_r; lia).
    pose proof pow10_16. lia. }
  destruct (shortest_integer M (2 ^ (- e1)) K ltac:(lia) Hp (conj K2 K3) 17%nat 1
              ltac:(lia) ltac:(simpl; lia)) as (z & Hz & HzM & Hsh).
  rewrite Hsh.
  destruct (Z.leb_spec (K - z) K) as [_|]; [|lia].
  destruct (Z.leb_spec K 21) as [_|]; [|lia].
  cbn [andb]. replace (K - (K - z)) with z by lia.
  assert (Hpz : 0 < 10 ^ z) by (apply Z.pow_pos_nonneg; lia).
  rewrite <- numeral_pow10 by nia. rewrite Z2Nat.id by lia. rewrite <- HzM.
  reflexivity.
Qed.

End ToStringProof.

(** ** [formatTime] *)

Module FormatTimeSpec.

Import Js Rounding RoundingError FormatTimeProof Numerals ToStringProof.
Local Open Scope string_scope.
Local Open Scope Z_scope.

Lemma padded_below_60 :
  forallb (fun n => String.eqb (padded n) (two_digits n)) below_60 = true.
Proof. vm_compute. reflexivity. Qed.

Lemma padded_two_digits (n : Z) : 0 <= n < 60 -> padded n = two_digits n.
Proof.
  intros Hn. pose proof padded_below_60 as H.
  rewrite forallb_forall in H. apply String.eqb_eq, H.
  unfold below_60. apply in_map_iff. exists (Z.to_nat n).
  split; [lia|]. apply in_seq. lia.
Qed.

Lemma Qfloor_unique (x : Q) (z : Z) :
  (inject_Z z <= x)%Q -> (x < inject_Z (z + 1))%Q -> Qfloor x = z.
Proof.
  intros H1 H2.
  pose proof (Qfloor_le x) as F1. pose proof (Qlt_floor x) as F2.
  assert (A : z < Qfloor x + 1).
  { rewrite Zlt_Qlt. apply Qle_lt_trans with (1 := H1). exact F2. }
  assert (B : Qfloor x < z + 1).
  { rewrite Zlt_Qlt. apply Qle_lt_trans with (1 := F1). exact H2. }
  lia.
Qed.

Lemma Qfloor_div (n d : Z) :
  0 < d -> Qfloor (inject_Z n / inject_Z d) = n / d.
Proof.
  intros Hd. destruct (Zdiv_Q_bounds n d Hd) as (B1 & B2).
  apply Qfloor_unique; [exact B1|]. rewrite inject_Z_plus. exact B2.
Qed.

Lemma to_Q_scaled (ms : positive) (es : Z) :
  es <= 0 ->
  (to_Q (S754_finite false ms es) == inject_Z (Z.pos ms) / inject_Z (2 ^ (- es)))%Q.
Proof.
  intros Hes. rewrite to_Q_finite, inject_Z_pow2 by lia.
  rewrite Qpower_opp. unfold Qdiv. rewrite Qinv_involutive. reflexivity.
Qed.

Lemma formatTime_below_2_53 (time : number) :
  valid time = true -> is_finite time = true ->
  (0 <= to_Q time)%Q -> (to_Q time < inject_Z (2 ^ 53))%Q ->
  let M := Qfloor (to_Q time / 60) in
  let SS := Qfloor (to_Q time - inject_Z (60 * M)) in
  0 <= M /\ 0 <= SS < 60 /\
  formatTime time = numeral M ++ ":" ++ two_digits SS.
Proof.
  intros Hv Hf H0 Hlt.
  destruct time as [st|st| |st ms es]; try discriminate Hf.
  - cbn [to_Q]. destruct st; vm_compute; repeat split; discriminate.
  - destruct st; [pose proof (to_Q_neg ms es); lra|].
    destruct (valid_small ms es Hv Hlt) as (Hms & Hes).
    set (g := 2 ^ (- es)).
    assert (Hg : 0 < g) by (apply Z.pow_pos_nonneg; lia).
    set (Mz := Z.pos ms / (60 * g)).
    set (Sz := Z.pos ms mod (60 * g) / g).
    pose proof (Z.div_mod (Z.pos ms) (60 * g) ltac:(lia)) as Edm. fold Mz in Edm.
    pose proof (Z.mod_pos_bound (Z.pos ms) (60 * g) ltac:(lia)) as Bm.
    assert (HMz : 0 <= Mz < 2 ^ 53).
    { split; [apply Z.div_pos; lia|].
      apply Z.le_lt_trans with (Z.pos ms); [|exact Hms].
      apply Z.div_le_upper_bound; [lia|]. nia. }
    assert (HSz : 0 <= Sz < 60).
    { split; [apply Z.div_pos; lia|]. apply Z.div_lt_upper_bound; lia. }
    assert (EQ : (to_Q (S754_finite false ms es) == inject_Z (Z.pos ms) / inject_Z g)%Q)
      by (apply to_Q_scaled; lia).
    assert (Hgq : ~ (inject_Z g == 0)%Q).
    { intros E. apply (inject_Z_injective g 0) in E. lia. }
    assert (EM : Qfloor (to_Q (S754_finite false ms es) / 60) = Mz).
    { assert (E : (to_Q (S754_finite false ms es) / 60
                   == inject_Z (Z.pos ms) / inject_Z (60 * g))%Q).
      { rewrite EQ, inject_Z_mult. change (inject_Z 60) with 60%Q. field. exact Hgq. }
      rewrite E. apply Qfloor_div. lia. }
    assert (ES : Qfloor (to_Q (S754_finite false ms es) - inject_Z (60 * Mz)) = Sz).
    { assert (E : (to_Q (S754_finite false ms es) - inject_Z (60 * Mz)
                   == inject_Z (Z.pos ms mod (60 * g)) / inject_Z g)%Q).
      { rewrite EQ.
        replace (Z.pos ms mod (60 * g)) with (Z.pos ms + - (60 * g * Mz)) by lia.
        rewrite inject_Z_plus, inject_Z_opp, !inject_Z_mult.
        change (inject_Z 60) with 60%Q. field. exact Hgq. }
      rewrite E. apply Qfloor_div. lia. }
    cbv zeta. rewrite EM, ES.
    split; [lia|]. split; [lia|].
    unfold formatTime. rewrite floor_div_60, floor_rem_60 by lia.
    fold g. fold Mz. fold Sz. fold (padded Sz).
    rewrite toString_of_Z by lia. rewrite padded_two_digits by lia. reflexivity.
Qed.

End FormatTimeSpec.

(** ** The index arithmetic is exact in doubles *)

Module IndexArithmetic.

Import Js Rounding ToStringProof.

Lemma shl_align_value (m : positive) (e ez : Z) :
  ez <= e -> Z.pos (fst (shl_align m e ez)) = Z.pos m * 2 ^ (e - ez).
Proof.
  intros Hle. unfold shl_align. destruct (ez - e) as [|q|q] eqn:Eq.
  - cbn [fst]. replace (e - ez) with 0 by lia. rewrite Z.pow_0_r. lia.
  - lia.
  - cbn [fst]. rewrite pos_iter_xO. replace (e - ez) with (Z.pos q) by lia. reflexivity.
Qed.

(** An integer below 2^53 given with trailing zero bits normalises to its
    double. *)
Lemma binary_normalize_integer (M k : Z) :
  1 <= M < 2 ^ 53 -> 0 <= k <= 1074 ->
  binary_normalize prec emax (M * 2 ^ k) (- k) false = of_Z M.
Proof.
  intros HM Hk.
  destruct (of_Z_small M HM) as (He1 & EM). rewrite EM.
  set (e1 := Zdigits2 M - 53) in *.
  assert (Hpk : 0 < 2 ^ k) by (apply Z.pow_pos_nonneg; lia).
  assert (Hpe : 0 < 2 ^ (- e1)) by (apply Z.pow_pos_nonneg; lia).
  pose proof (Zdigits2_bounds M ltac:(lia)) as [B1 B2].
  assert (HdM : 1 <= Zdigits2 M) by (destruct M; simpl; lia).
  assert (Hdr : Zdigits2 (M * 2 ^ k) = Zdigits2 M + k).
  { apply Zdigits2_unique; [|nia].
    replace (Zdigits2 M + k - 1) with ((Zdigits2 M - 1) + k) by lia.
    rewrite !Z.pow_add_r by lia. split.
    - apply Z.mul_le_mono_nonneg_r; lia.
    - apply Z.mul_lt_mono_pos_r; lia. }
  destruct (M * 2 ^ k) as [|r|r] eqn:Er; try nia.
  assert (Hf : fexp prec emax (Zdigits2 (Z.pos r) + - k) = e1).
  { rewrite Hdr, fexp_eq. unfold e1. lia. }
  destruct (Z.le_gt_cases e1 (- k)) as [Hle|Hgt].
  - (* the mantissa fits: it is shifted left *)
    destruct (binary_normalize_exact r (- k) false ltac:(lia) ltac:(lia)) as (_ & Hn);
      [rewrite Hf; lia|].
    rewrite Hn, Hf. f_equal. f_equal. rewrite <- Er.
    rewrite <- Z.mul_assoc, <- Z.pow_add_r by lia. f_equal. f_equal. lia.
  - (* the trailing zeros are shifted out *)
    cbn [binary_normalize]. unfold binary_round.
    change (Z.pos (digits2_pos r)) with (Zdigits2 (Z.pos r)). rewrite Hf.
    assert (Hsh : shl_align r (- k) e1 = (r, - k)).
    { unfold shl_align. destruct (e1 - - k) eqn:E; try lia; reflexivity. }
    rewrite Hsh.
    assert (Hmx : Z.pos r = Z.pos r / 1) by (rewrite Z.div_1_r; reflexivity).
    assert (Hlx : loc_Exact = loc_of (Z.pos r mod 1) 1) by (rewrite Z.mod_1_r; reflexivity).
    destruct (binary_round_aux_spec false (Z.pos r) (- k) loc_Exact (Z.pos r) 1
                ltac:(lia) ltac:(lia) Hmx Hlx ltac:(rewrite Hf; lia)) as (_ & A2 & A3).
    rewrite Hf in A2, A3. rewrite A3. rewrite Z.mul_1_r in *.
    set (D' := 2 ^ (e1 - - k)) in *.
    assert (HD : 0 < D') by (apply Z.pow_pos_nonneg; lia).
    assert (Hr : Z.pos r = M * 2 ^ (- e1) * D').
    { rewrite <- Er. unfold D'. rewrite <- Z.mul_assoc, <- Z.pow_add_r by lia.
      f_equal. f_equal. lia. }
    assert (Hmod : Z.pos r mod D' = 0) by (rewrite Hr; apply Z.mod_mul; lia).
    assert (Hdiv : Z.pos r / D' = M * 2 ^ (- e1)) by (rewrite Hr; apply Z.div_mul; lia).
    rewrite Hmod, Hdiv in *. change (loc_of 0 D') with loc_Exact. cbn [round_nearest_even].
    unfold rounded.
    destruct (Z.eqb_spec (M * 2 ^ (- e1)) 0); [nia|].
    destruct (Z.eqb_spec (M * 2 ^ (- e1)) (2 ^ 53)); [lia|].
    destruct (Z.leb_spec e1 971); [reflexivity | lia].
Qed.

Lemma of_Z_1 : of_Z 1 = S754_finite false 4503599627370496 (-52).
Proof. reflexivity. Qed.

(** [a + 1] on integers below 2^53. *)
Lemma add_one (a : Z) :
  0 <= a -> a + 1 < 2 ^ 53 -> add (of_Z a) (of_Z 1) = of_Z (a + 1).
Proof.
  intros Ha Hb. destruct (Z.eq_dec a 0) as [->|Hn]; [reflexivity|].
  destruct (of_Z_small a ltac:(lia)) as (He1 & Ea). rewrite Ea, of_Z_1.
  set (e1 := Zdigits2 a - 53) in *.
  assert (HdM : 1 <= Zdigits2 a) by (destruct a; simpl; lia).
  assert (Hpe : 0 < 2 ^ (- e1)) by (apply Z.pow_pos_nonneg; lia).
  unfold add. cbn [SFadd]. cbn [cond_Zopp].
  replace (Z.min e1 (-52)) with (-52) by lia.
  rewrite !shl_align_value by lia.
  rewrite Z2Pos.id by nia.
  replace (a * 2 ^ (- e1) * 2 ^ (e1 - -52)) with (a * 2 ^ 52).
  2:{ rewrite <- Z.mul_assoc, <- Z.pow_add_r by lia. f_equal. f_equal. lia. }
  replace (-52 - -52) with 0 by lia.
  replace (a * 2 ^ 52 + 4503599627370496 * 2 ^ 0) with ((a + 1) * 2 ^ 52) by lia.
  apply (binary_normalize_integer (a + 1) 52); lia.
Qed.

(** [a % n] on integers below 2^53. *)
Lemma rem_integers (a n : Z) :
  0 <= a < 2 ^ 53 -> 1 <= n < 2 ^ 53 ->
  rem (of_Z a) (of_Z n) = of_Z (a mod n).
Proof.
  intros Ha Hn.
  destruct (of_Z_small n Hn) as (Hen & En). rewrite En.
  set (en := Zdigits2 n - 53) in *.
  destruct (Z.eq_dec a 0) as [->|Hz]; [reflexivity|].
  destruct (of_Z_small a ltac:(lia)) as (Hea & Ea). rewrite Ea.
  set (ea := Zdigits2 a - 53) in *.
  assert (Hda : 1 <= Zdigits2 a) by (destruct a; simpl; lia).
  assert (Hdn : 1 <= Zdigits2 n) by (destruct n; simpl; lia).
  assert (Hpa : 0 < 2 ^ (- ea)) by (apply Z.pow_pos_nonneg; lia).
  assert (Hpn : 0 < 2 ^ (- en)) by (apply Z.pow_pos_nonneg; lia).
  cbn [rem]. rewrite !Z2Pos.id by nia.
  set (e := Z.min ea en).
  assert (Hpe : 0 < 2 ^ (- e)) by (apply Z.pow_pos_nonneg; lia).
  replace (a * 2 ^ (- ea) * 2 ^ (ea - e)) with (a * 2 ^ (- e)).
  2:{ rewrite <- Z.mul_assoc, <- Z.pow_add_r by lia. f_equal. f_equal. lia. }
  replace (n * 2 ^ (- en) * 2 ^ (en - e)) with (n * 2 ^ (- e)).
  2:{ rewrite <- Z.mul_assoc, <- Z.pow_add_r by lia. f_equal. f_equal. lia. }
  rewrite Zmult_mod_distr_r.
  pose proof (Z.mod_pos_bound a n ltac:(lia)) as Hm.
  destruct (Z.eq_dec (a mod n) 0) as [E0|E0].
  - rewrite E0. reflexivity.
  - replace e with (- - e) at 2 by lia.
    apply (binary_normalize_integer (a mod n) (- e)); lia.
Qed.

End IndexArithmetic.

(** [(prevIndex + 1) % tracks.length] computed on doubles is what
    [index_rem] and [index_succ] compute on the index model, for every
    index and length an array can have. *)
Lemma index_arithmetic_exact (i : TrackIndex) (len : nat) :
  match i with Index i => Z.of_nat i + 1 < 2 ^ 53 | IndexNaN => True end ->
  Z.of_nat len < 2 ^ 53 ->
  Js.rem (Js.add (index_number i) (Js.of_Z 1)) (Js.of_Z (Z.of_nat len)) =
  index_number (index_rem (index_succ i) len).
Proof.
  intros Hi Hl. destruct i as [i|]; [|reflexivity].
  cbn [index_number index_succ].
  rewrite IndexArithmetic.add_one by lia.
  destruct len as [|len].
  - cbn [index_rem index_number Z.of_nat].
    destruct (ToStringProof.of_Z_small (Z.of_nat i + 1) ltac:(lia)) as (_ & E).
    rewrite E. reflexivity.
  - cbn [index_rem index_number].
    rewrite IndexArithmetic.rem_integers by lia.
    f_equal. rewrite Nat2Z.inj_mod. f_equal. lia.
Qed.

(** ** Progress within rounding tolerance *)

(** C1.  When the element reports a finite duration [d > 0] and a position
    [t] with [0 <= t <= d], [handleTimeUpdate] stores [t] as [currentTime]
    and, as [progress], the double [(t / d) * 100]; that double is finite
    and differs from the exact [100 * t / d] by at most the relative error
    [2^-51] of two roundings, plus [2^-1068] where the quotient
    underflows. *)
Theorem handleTimeUpdate_progress (w : World) (v : HTMLVideoElement) :
  videoRef w = Some v ->
  let t := elCurrentTime v in
  let d := elDuration v in
  Js.is_finite t = true -> Js.is_finite d = true ->
  (0 < Js.to_Q d)%Q -> (0 <= Js.to_Q t)%Q -> (Js.to_Q t <= Js.to_Q d)%Q ->
  let w' := handleTimeUpdate w in
  let exact := (100 * (Js.to_Q t / Js.to_Q d))%Q in
  currentTime (state w') = t /\
  progress (state w') = Js.mul (Js.div t d) (Js.of_Z 100) /\
  Js.is_finite (progress (state w')) = true /\
  (Qabs (Js.to_Q (progress (state w')) - exact)
   <= exact * 2 ^ (-51) + 2 ^ (-1068))%Q.
Proof.
  intros Hv t d Ft Fd Hd Ht0 Htd w' exact.
  destruct (handleTimeUpdate_stores w v Hv) as (Hc & Hp).
  fold w' t d in Hc, Hp.
  destruct (ProgressBound.progress_error t d Ft Fd Hd Ht0 Htd) as (E1 & E2).
  rewrite Hp. repeat split; assumption.
Qed.

Lemma handleTimeUpdate_progress_witness :
  let w := video_reports (Js.of_Z 30) (Js.of_Z 120) mounted in
  let w' := handleTimeUpdate w in
  currentTime (state w') = Js.of_Z 30 /\
  (Qabs (Js.to_Q (progress (state w')) - 100 * (Js.to_Q (Js.of_Z 30) / Js.to_Q (Js.of_Z 120)))
   <= 100 * (Js.to_Q (Js.of_Z 30) / Js.to_Q (Js.of_Z 120)) * 2 ^ (-51) + 2 ^ (-1068))%Q.
Proof.
  intros w w'.
  pose (v := mkVideo "" true false (Js.of_Z 30) (Js.of_Z 120) (Js.of_Z 1) []).
  assert (Hd : (0 < Js.to_Q (elDuration v))%Q) by (vm_compute; reflexivity).
  assert (Ht0 : (0 <= Js.to_Q (elCurrentTime v))%Q) by (vm_compute; discriminate).
  assert (Htd : (Js.to_Q (elCurrentTime v) <= Js.to_Q (elDuration v))%Q)
    by (vm_compute; discriminate).
  destruct (handleTimeUpdate_progress w v eq_refl eq_refl eq_refl Hd Ht0 Htd)
    as (H1 & _ & _ & H4).
  split; [exact H1 | exact H4].
Defined.

(** With an infinite duration, as a live stream has, the quotient is
    exact: the stored progress is 0. *)
Lemma handleTimeUpdate_infinite_duration (w : World) (v : HTMLVideoElement) :
  videoRef w = Some v ->
  elDuration v = Js.Infinity ->
  Js.is_finite (elCurrentTime v) = true ->
  (0 <= Js.to_Q (elCurrentTime v))%Q ->
  Js.to_Q (progress (state (handleTimeUpdate w))) = 0%Q.
Proof.
  intros Hv Hd Hf H0. destruct (handleTimeUpdate_stores w v Hv) as (_ & Hp).
  rewrite Hp, Hd, of_Z_100.
  destruct (elCurrentTime v) as [s|s| |s m e]; try discriminate Hf; reflexivity.
Qed.

(** On a mounted component the whole turn of a "timeupdate"
    notification stores the same two values, whatever they are. *)
Lemma dispatch_TimeUpdate_progress (w : World) (t d : Js.number) :
  reachable w ->
  currentTime (state (dispatch (TimeUpdate t d) w)) = t /\
  progress (state (dispatch (TimeUpdate t d) w)) = Js.mul (Js.div t d) (Js.of_Z 100).
Proof.
  intros Hr. pose proof (reachable_in_sync w Hr) as Hs.
  pose proof (reachable_videoRef w Hr) as Hv.
  destruct w as [s [v|] cs cl dp nid]; [clear Hv|exfalso; apply Hv; reflexivity].
  unfold dispatch, commit, deps_of in *. simpl in *. rewrite Hs. split; reflexivity.
Qed.

(** At position 1 of a duration of 3 the stored progress is the double
    that prints as 33.33333333333333, just below 100 / 3. *)
Example progress_one_third :
  let p := progress (state (handleTimeUpdate
                              (video_reports (Js.of_Z 1) (Js.of_Z 3) mounted))) in
  p = S754_finite false 4691249611844266 (-47) /\
  Js.toString p = "33.33333333333333".
Proof. vm_compute. split; reflexivity. Qed.

(** ** Rendering of times *)

(** C2 (amended).  For every non-negative double [time] below 2^53
    seconds, [formatTime time] is the decimal numeral of
    [M = floor (time / 60)], without padding and never folded into hours,
    a colon, and [SS = floor (time - 60 * M)], which lies in [0, 60), as
    two decimal digits: fractional seconds are truncated.  So an hour and
    two minutes and five seconds render as 62:05; and [formatTime 65] is
    1:05, [formatTime 5] is 0:05, [formatTime 0] is 0:00. *)
Theorem formatTime_minutes_seconds (time : Js.number) :
  Js.valid time = true -> Js.is_finite time = true ->
  (0 <= Js.to_Q time)%Q -> (Js.to_Q time < inject_Z (2 ^ 53))%Q ->
  let M := Qfloor (Js.to_Q time / 60) in
  let SS := Qfloor (Js.to_Q time - inject_Z (60 * M)) in
  (0 <= M /\ 0 <= SS < 60 /\
   formatTime time = Js.numeral M ++ ":" ++ two_digits SS) /\
  formatTime (Js.of_Z 65) = "1:05" /\
  formatTime (Js.of_Z 5) = "0:05" /\
  formatTime (Js.of_Z 0) = "0:00" /\
  formatTime (Js.of_Z 3725) = "62:05" /\
  formatTime (Js.round_ratio 131 2) = "1:05".
Proof.
  intros Hv Hf H0 Hlt M SS.
  split; [exact (FormatTimeSpec.formatTime_below_2_53 time Hv Hf H0 Hlt)|].
  vm_compute. repeat split.
Qed.

Lemma formatTime_minutes_seconds_witness :
  formatTime (Js.of_Z 125) = "2:05".
Proof.
  assert (H0 : (0 <= Js.to_Q (Js.of_Z 125))%Q) by (vm_compute; discriminate).
  assert (Hlt : (Js.to_Q (Js.of_Z 125) < inject_Z (2 ^ 53))%Q) by (vm_compute; reflexivity).
  destruct (formatTime_minutes_seconds (Js.of_Z 125) eq_refl eq_refl H0 Hlt)
    as ((_ & _ & H) & _).
  rewrite H. vm_compute. reflexivity.
Defined.

(** Beyond 2^53 seconds the quotient by 60 can round up to the next
    integer: at 60 * 2^50 + 56 seconds, a double, [formatTime] shows one
    minute more than the [floor (time / 60)] minutes that the 56 seconds go
    with. *)
Lemma formatTime_rounds_minutes_up :
  let time := Js.of_Z (60 * 2 ^ 50 + 56) in
  Js.valid time = true /\ Js.is_finite time = true /\
  (Js.to_Q time == inject_Z (60 * 2 ^ 50 + 56))%Q /\
  Qfloor (Js.to_Q time / 60) = 2 ^ 50 /\
  Qfloor (Js.to_Q time - inject_Z (60 * 2 ^ 50)) = 56 /\
  formatTime time = "1125899906842625:56" /\
  formatTime time <>
    Js.numeral (Qfloor (Js.to_Q time / 60)) ++ ":" ++
    two_digits (Qfloor (Js.to_Q time - inject_Z (60 * Qfloor (Js.to_Q time / 60)))).
Proof. vm_compute. repeat split; discriminate. Qed.

(** * Further properties of the component *)

(** ** Mute *)

Lemma commit_elMuted (w : World) (v : HTMLVideoElement) :
  videoRef w = Some v ->
  exists v', videoRef (commit w) = Some v' /\ elMuted v' = elMuted v.
Proof.
  intros Hv. unfold commit. destruct (deps_same _ _); [eauto|].
  unfold trackEffect, run_cleanup.
  destruct w as [s vr cs [l|] dp nid]; simpl in *; subst vr; simpl;
    destruct (track_at (tracks s) (currentTrackIndex s)); simpl; eauto.
Qed.

Lemma fire_loadeddata_video (w : World) (v : HTMLVideoElement) :
  videoRef w = Some v ->
  exists v', videoRef (fire_loadeddata w) = Some v' /\
             elMuted v' = elMuted v /\ elSrc v' = elSrc v /\
             elLoadedData v' = elLoadedData v.
Proof.
  intros Hv. unfold fire_loadeddata. rewrite Hv.
  generalize (elLoadedData v) at 1 as ls. intros ls. revert w v Hv.
  induction ls as [|l ls IH]; intros w v Hv; simpl; [eauto|].
  assert (H : exists v1, videoRef (onLoadedData l w) = Some v1 /\
                         elMuted v1 = elMuted v /\ elSrc v1 = elSrc v /\
                         elLoadedData v1 = elLoadedData v).
  { unfold onLoadedData. destruct (closureIsPlaying l); [|eauto].
    destruct w as [s vr cs cl dp nid]; simpl in *; subst vr; simpl. eauto. }
  destruct H as (v1 & H1 & H2 & H3 & H4). destruct (IH _ v1 H1) as (v' & H5 & H6 & H7 & H8).
  exists v'. repeat split; congruence.
Qed.

Lemma handle_muted_in_sync (e : Event) (w : World) (v : HTMLVideoElement) :
  videoRef w = Some v -> elMuted v = isMuted (state w) ->
  exists v', videoRef (handle e w) = Some v' /\
             elMuted v' = isMuted (state (handle e w)).
Proof.
  intros Hv Hm.
  destruct e; try (destruct w as [s vr cs cl dp nid]; simpl in *; subst vr; simpl; eauto; fail).
  - destruct w as [s vr cs cl dp nid]; simpl in *; subst vr.
    unfold togglePlayPause; simpl. destruct (isPlaying s); simpl; eauto.
  - destruct files; destruct w as [s vr cs cl dp nid]; simpl in *; subst vr; simpl; eauto.
  - simpl. rewrite fire_loadeddata_state.
    destruct (fire_loadeddata_video w v Hv) as (v' & H1 & H2 & _).
    exists v'. split; [exact H1 | congruence].
Qed.

(** X1.  With a non-null [videoRef.current], [toggleMute] writes the
    negated flag to the element's [muted] attribute and stores it; two
    calls write the negation and then the original value, and leave both
    the flag and the attribute at the flag's original value. *)
Theorem toggleMute_twice (w : World) (v : HTMLVideoElement) :
  videoRef w = Some v ->
  let w1 := toggleMute w in
  let w2 := toggleMute w1 in
  isMuted (state w1) = negb (isMuted (state w)) /\
  isMuted (state w2) = isMuted (state w) /\
  commands w2 =
    (commands w ++ [SetMuted (negb (isMuted (state w))); SetMuted (isMuted (state w))])%list /\
  exists v2, videoRef w2 = Some v2 /\ elMuted v2 = isMuted (state w).
Proof.
  intros Hv. destruct w as [s vr cs cl dp nid]. simpl in Hv. subst vr.
  destruct s as [pl mu pr ct du ra tr tref ix].
  simpl. rewrite negb_involutive, <- app_assoc. repeat split. eauto.
Qed.

Lemma toggleMute_twice_witness :
  isMuted (state (toggleMute (toggleMute mounted))) = false /\
  commands (toggleMute (toggleMute mounted)) = [SetMuted true; SetMuted false].
Proof.
  destruct (toggleMute_twice mounted initialVideo eq_refl) as (_ & H2 & H3 & _).
  split; [exact H2 | exact H3].
Defined.

(** X2.  In every state the mounted component reaches, the element's
    [muted] attribute equals the stored [isMuted], so the volume icon shows
    what the element does: nothing but [toggleMute] writes either, and it
    writes both. *)
Theorem muted_attribute_follows_flag (w : World) :
  reachable w ->
  exists v, videoRef w = Some v /\
            elMuted v = isMuted (state w) /\
            muteIcon (state w) = if elMuted v then VolumeXIcon else Volume2Icon.
Proof.
  intros Hr.
  assert (H : exists v, videoRef w = Some v /\ elMuted v = isMuted (state w)).
  { induction Hr as [|e w Hr IH].
    - exists initialVideo. split; reflexivity.
    - destruct IH as (v & Hv & Hm).
      destruct (handle_muted_in_sync e w v Hv Hm) as (v1 & H1 & H2).
      destruct (commit_elMuted (handle e w) v1 H1) as (v2 & H3 & H4).
      exists v2. split; [exact H3|]. unfold dispatch.
      destruct (commit_frame (handle e w)) as (_ & _ & C3). congruence. }
  destruct H as (v & Hv & Hm). exists v. unfold muteIcon. rewrite Hm. auto.
Qed.

Lemma muted_attribute_follows_flag_witness :
  exists v, videoRef (run [ClickMute; ClickNext] mounted) = Some v /\
            elMuted v = isMuted (state (run [ClickMute; ClickNext] mounted)) /\
            muteIcon (state (run [ClickMute; ClickNext] mounted))
            = if elMuted v then VolumeXIcon else Volume2Icon.
Proof.
  apply muted_attribute_follows_flag. simpl. repeat constructor.
Defined.

(** ** Playback speed *)

Lemma handle_playbackRate (e : Event) (w : World) :
  videoRef w <> None ->
  playbackRate (state (handle e w)) =
  match e with ClickRate r => r | _ => playbackRate (state w) end.
Proof.
  intros Hv.
  destruct e; try (destruct w as [s [v|] cs cl dp nid]; simpl in *; congruence).
  - destruct w as [s [v|] cs cl dp nid]; simpl; [destruct (isPlaying s)|]; reflexivity.
  - apply handleFileUpload_frame.
  - simpl. rewrite fire_loadeddata_state. reflexivity.
Qed.

Lemma run_reachable (es : list Event) (w : World) : reachable w -> reachable (run es w).
Proof.
  revert w. induction es as [|e es IH]; intros w Hr; simpl; [exact Hr|].
  apply IH. constructor. exact Hr.
Qed.

Lemma run_playbackRate (es : list Event) (w : World) :
  reachable w ->
  playbackRate (state (run es w)) = last_rate es (playbackRate (state w)).
Proof.
  revert w. induction es as [|e es IH]; intros w Hr; [reflexivity|].
  change (run (e :: es) w) with (run es (dispatch e w)).
  rewrite IH by (constructor; exact Hr). unfold last_rate. simpl. f_equal.
  unfold dispatch. destruct (commit_frame (handle e w)) as (_ & C2 & _). rewrite C2.
  apply handle_playbackRate, reachable_videoRef, Hr.
Qed.

Lemma last_rate_in (es : list Event) (r0 : Js.number) :
  forallb from_view es = true -> In r0 rates -> In (last_rate es r0) rates.
Proof.
  revert r0. induction es as [|e es IH]; intros r0 Hv H0; [exact H0|].
  simpl in Hv. apply andb_true_iff in Hv. destruct Hv as (He & Hes).
  unfold last_rate. simpl. apply IH; [exact Hes|].
  destruct e; try exact H0. cbn [from_view] in He.
  apply existsb_exists in He. destruct He as (r & Hin & Hs).
  apply ToStringProof.same_eq in Hs. subst r. exact Hin.
Qed.

(** X3.  The four speed buttons read 0.5x, 1x, 1.5x and 2x.  After any
    sequence of events of the view from mount, the stored [playbackRate] is
    the rate of the last speed click, or 1 when there was none; it is one of
    the four rates, and exactly one button is highlighted: the one whose
    click would store that rate again. *)
Theorem one_rate_button_highlighted (es : list Event) :
  forallb from_view es = true ->
  let s := state (run es mounted) in
  playbackRate s = last_rate es (Js.of_Z 1) /\
  In (playbackRate s) rates /\
  map rbText (rateButtons s) = ["0.5x"; "1x"; "1.5x"; "2x"] /\
  map rbOnClick (filter highlighted (rateButtons s)) = [ClickRate (playbackRate s)].
Proof.
  intros Hv s.
  assert (Hp : playbackRate s = last_rate es (Js.of_Z 1)).
  { unfold s. rewrite run_playbackRate by constructor. reflexivity. }
  assert (Hin : In (playbackRate s) rates).
  { rewrite Hp. apply last_rate_in; [exact Hv|]. right. left. reflexivity. }
  split; [exact Hp|]. split; [exact Hin|]. split; [vm_compute; reflexivity|].
  unfold rateButtons. clear Hp.
  destruct Hin as [<-|[<-|[<-|[<-|[]]]]]; vm_compute; reflexivity.
Qed.

Lemma one_rate_button_highlighted_witness :
  map rbOnClick
      (filter highlighted
         (rateButtons (state (run [ClickRate (Js.of_Z 2); ClickNext] mounted))))
  = [ClickRate (Js.of_Z 2)].
Proof.
  destruct (one_rate_button_highlighted [ClickRate (Js.of_Z 2); ClickNext] eq_refl)
    as (H1 & _ & _ & H4).
  cbv zeta in H1, H4. rewrite H1 in H4. exact H4.
Defined.

(** ** When the effect runs *)

Lemma handle_tracks (e : Event) (w : World) :
  tracks (state (handle e w)) =
  (tracks (state w) ++
   match e with
   | ChangeUpload (Some fs) => newTracks (nextId w) fs
   | _ => []
   end)%list.
Proof.
  destruct e; try (destruct w as [s [v|] cs cl dp nid]; simpl; rewrite app_nil_r; reflexivity).
  - destruct w as [s [v|] cs cl dp nid]; simpl; [destruct (isPlaying s)|];
      simpl; rewrite app_nil_r; reflexivity.
  - destruct files as [fs|]; destruct w as [s vr cs cl dp nid]; simpl;
      rewrite ?app_nil_r; reflexivity.
  - simpl. rewrite fire_loadeddata_state, app_nil_r. reflexivity.
Qed.

Lemma handle_deps (e : Event) (w : World) :
  writes_dependency e = false ->
  deps_of (state (handle e w)) = deps_of (state w) /\
  effectDeps (handle e w) = effectDeps w.
Proof.
  intros He.
  destruct e; try discriminate He;
    try (destruct w as [s [v|] cs cl dp nid]; split; reflexivity).
  - destruct w as [s [v|] cs cl dp nid]; simpl; [destruct (isPlaying s)|]; split; reflexivity.
  - destruct files; [discriminate He|]. split; reflexivity.
  - simpl. rewrite fire_loadeddata_state.
    destruct (fire_loadeddata_effect w) as (-> & _). split; reflexivity.
Qed.

Lemma dispatch_without_dependency (e : Event) (w : World) :
  reachable w -> writes_dependency e = false -> dispatch e w = handle e w.
Proof.
  intros Hr He. pose proof (reachable_in_sync w Hr) as Hs.
  destruct (handle_deps e w He) as (H1 & H2).
  unfold dispatch, commit. rewrite H1, H2, Hs. reflexivity.
Qed.

Lemma handle_video_source (e : Event) (w : World) (v : HTMLVideoElement) :
  videoRef w = Some v ->
  exists v', videoRef (handle e w) = Some v' /\
             elSrc v' = elSrc v /\ elLoadedData v' = elLoadedData v.
Proof.
  intros Hv.
  destruct e; try (destruct w as [s vr cs cl dp nid]; simpl in *; subst vr; simpl; eauto; fail).
  - destruct w as [s vr cs cl dp nid]; simpl in *; subst vr.
    unfold togglePlayPause; simpl. destruct (isPlaying s); simpl; eauto.
  - destruct files; destruct w as [s vr cs cl dp nid]; simpl in *; subst vr; simpl; eauto.
  - destruct (fire_loadeddata_video w v Hv) as (v' & H1 & _ & H2 & H3). eauto.
Qed.

(** X4.  Only an upload and the next-track button write a dependency of
    the effect.  On the mounted component the turn of any other event is
    its handler alone: the effect does not run, so the element keeps its
    source, the track is not reloaded, and the registered listener
    stays. *)
Theorem effect_runs_only_after_upload_or_next (e : Event) (w : World) :
  reachable w ->
  writes_dependency e = false ->
  dispatch e w = handle e w /\
  tracks (state (dispatch e w)) = tracks (state w) /\
  currentTrackIndex (state (dispatch e w)) = currentTrackIndex (state w) /\
  exists v v', videoRef w = Some v /\ videoRef (dispatch e w) = Some v' /\
               elSrc v' = elSrc v /\ elLoadedData v' = elLoadedData v.
Proof.
  intros Hr He. rewrite (dispatch_without_dependency e w Hr He).
  destruct (handle_deps e w He) as (H1 & _). unfold deps_of in H1.
  injection H1 as Hi _.
  split; [reflexivity|]. split.
  - rewrite handle_tracks. destruct e; try apply app_nil_r.
    destruct files; [discriminate He | apply app_nil_r].
  - split; [exact Hi|].
    destruct (videoRef w) as [v|] eqn:Ev; [|exfalso; exact (reachable_videoRef w Hr Ev)].
    destruct (handle_video_source e w v Ev) as (v' & V1 & V2 & V3).
    exists v, v'. auto.
Qed.

Lemma effect_runs_only_after_upload_or_next_witness :
  dispatch ClickPlayPause playing_two_tracks = handle ClickPlayPause playing_two_tracks.
Proof.
  refine (proj1 (effect_runs_only_after_upload_or_next ClickPlayPause playing_two_tracks _ _)); [|reflexivity].
  unfold playing_two_tracks. simpl. repeat constructor.
Defined.

(** X5.  With a single track in the playlist the next-track button does
    nothing at all: the index [(0 + 1) % 1] is the one it was, no dependency
    changes, and the track is not restarted. *)
Theorem next_on_single_track (w : World) :
  reachable w ->
  List.length (tracks (state w)) = 1%nat ->
  dispatch ClickNext w = w.
Proof.
  intros Hr Hl. pose proof (reachable_in_sync w Hr) as Hs.
  assert (Hne : tracks (state w) <> []) by (destruct (tracks (state w)); [discriminate|congruence]).
  destruct (reachable_index_in_range w Hr Hne) as (i & Hi & Hlt).
  rewrite Hl in Hlt. assert (i = 0%nat) by lia. subst i.
  assert (Hn : handle ClickNext w = w).
  { destruct w as [s vr cs cl dp nid]. destruct s as [pl mu pr ct du ra tr tref ix].
    simpl in *. subst ix. unfold playNextTrack, setCurrentTrackIndex, with_state. simpl.
    rewrite Hl. reflexivity. }
  unfold dispatch, commit. rewrite Hn, Hs. reflexivity.
Qed.

Lemma next_on_single_track_witness :
  dispatch ClickNext (dispatch (ChangeUpload (Some [mkFile "a.mp4"])) mounted)
  = dispatch (ChangeUpload (Some [mkFile "a.mp4"])) mounted.
Proof.
  apply next_on_single_track; [repeat constructor | reflexivity].
Defined.

Lemma dispatch_next_index (w : World) (i : nat) :
  tracks (state w) <> [] ->
  currentTrackIndex (state w) = Index i ->
  tracks (state (dispatch ClickNext w)) = tracks (state w) /\
  currentTrackIndex (state (dispatch ClickNext w))
  = Index ((i + 1) mod List.length (tracks (state w))).
Proof.
  intros Hne Hi. unfold dispatch. rewrite commit_tracks, commit_currentTrackIndex.
  destruct w as [s vr cs cl dp nid]. simpl in *. rewrite Hi. simpl.
  split; [reflexivity|].
  destruct (tracks s) as [|t ts]; [congruence|]. simpl List.length.
  rewrite Nat.add_1_r. reflexivity.
Qed.

(** X6.  On a playlist of [n] tracks at index [i < n], [k] clicks on the
    next-track button lead to index [(i + k) mod n] and leave the playlist
    as it was; [n] clicks lead back to the track they started from. *)
Theorem next_clicks_cycle (w : World) (i k : nat) :
  currentTrackIndex (state w) = Index i ->
  (i < List.length (tracks (state w)))%nat ->
  let n := List.length (tracks (state w)) in
  tracks (state (run (repeat ClickNext k) w)) = tracks (state w) /\
  currentTrackIndex (state (run (repeat ClickNext k) w)) = Index ((i + k) mod n) /\
  currentTrackIndex (state (run (repeat ClickNext n) w)) = Index i.
Proof.
  intros Hi Hlt n.
  assert (G : forall k w i, currentTrackIndex (state w) = Index i ->
            (i < List.length (tracks (state w)))%nat ->
            tracks (state (run (repeat ClickNext k) w)) = tracks (state w) /\
            currentTrackIndex (state (run (repeat ClickNext k) w))
            = Index ((i + k) mod List.length (tracks (state w)))).
  { clear. induction k as [|k IH]; intros w i Hi Hlt.
    - simpl. split; [reflexivity|]. rewrite Nat.add_0_r, Nat.mod_small by exact Hlt.
      exact Hi.
    - assert (Hne : tracks (state w) <> [])
        by (destruct (tracks (state w)); [simpl in Hlt; lia | discriminate]).
      destruct (dispatch_next_index w i Hne Hi) as (Ht & Hx).
      assert (Hn0 : List.length (tracks (state w)) <> 0%nat) by lia.
      change (run (repeat ClickNext (S k)) w)
        with (run (repeat ClickNext k) (dispatch ClickNext w)).
      destruct (IH (dispatch ClickNext w) _ Hx) as (I1 & I2).
      { rewrite Ht. apply Nat.mod_upper_bound, Hn0. }
      rewrite I1, I2, Ht. split; [reflexivity|]. f_equal.
      rewrite Nat.Div0.add_mod_idemp_l. f_equal. lia. }
  destruct (G k w i Hi Hlt) as (G1 & G2).
  destruct (G n w i Hi Hlt) as (_ & G3).
  split; [exact G1|]. split; [exact G2|]. rewrite G3. f_equal. fold n.
  replace (i + n)%nat with (i + 1 * n)%nat by lia.
  rewrite Nat.Div0.mod_add. apply Nat.mod_small. exact Hlt.
Qed.

Lemma next_clicks_cycle_witness :
  let w := dispatch (ChangeUpload (Some [mkFile "a.mp4"; mkFile "b.mp4"; mkFile "c.mp4"]))
                    mounted in
  currentTrackIndex (state (run (repeat ClickNext 5) w)) = Index 2 /\
  currentTrackIndex (state (run (repeat ClickNext 3) w)) = Index 0.
Proof.
  intros w.
  assert (Hlt : (0 < List.length (tracks (state w)))%nat) by (simpl; lia).
  destruct (next_clicks_cycle w 0 5 eq_refl Hlt) as (_ & H2 & H3).
  split; [exact H2 | exact H3].
Defined.

(** ** The playlist and the current track *)

Lemma or_else_empty (a : option string) :
  or_else a "" = match a with Some x => x | None => "" end.
Proof.
  destruct a as [x|]; [|reflexivity]. simpl.
  destruct (String.eqb_spec x ""); congruence.
Qed.

Lemma titleDisplay_eq (s : State) :
  titleDisplay s =
  match track_at (tracks s) (currentTrackIndex s) with
  | Some t => title t
  | None => ""
  end.
Proof.
  unfold titleDisplay. rewrite or_else_empty.
  destruct (track_at (tracks s) (currentTrackIndex s)); reflexivity.
Qed.

Lemma run_titles (es : list Event) (w : World) :
  map title (tracks (state (run es w)))
  = (map title (tracks (state w)) ++ uploaded_names es)%list.
Proof.
  revert w. induction es as [|e es IH]; intros w.
  - simpl. rewrite app_nil_r. reflexivity.
  - change (run (e :: es) w) with (run es (dispatch e w)).
    rewrite IH. unfold dispatch. rewrite commit_tracks, handle_tracks, map_app.
    rewrite <- app_assoc. f_equal. simpl. f_equal.
    destruct e; try reflexivity. destruct files; [apply newTracks_titles | reflexivity].
Qed.

(** X7.  Whatever the events since mount, the titles of the playlist are
    the names of all the files ever selected, in the order of selection: an
    upload appends, and no event removes, reorders or renames a track. *)
Theorem playlist_is_all_uploads (es : list Event) :
  map title (tracks (state (run es mounted))) = uploaded_names es.
Proof. rewrite run_titles. reflexivity. Qed.

(** X8.  An upload into a non-empty playlist makes the first track of the
    old playlist the current one, not the first of the files just selected:
    the index is set to 0 of the merged playlist.  The title shown and the
    source given to the element are that old track's.  Into an empty
    playlist, the first selected file becomes current. *)
Theorem upload_selects_head_of_playlist (w : World) (fs : list File) :
  reachable w ->
  let w' := dispatch (ChangeUpload (Some fs)) w in
  match tracks (state w), fs with
  | t0 :: _, _ =>
      track_at (tracks (state w')) (currentTrackIndex (state w')) = Some t0 /\
      titleDisplay (state w') = title t0 /\
      exists v, videoRef w' = Some v /\ elSrc v = src t0
  | [], f :: _ =>
      titleDisplay (state w') = name f /\
      exists v, videoRef w' = Some v /\ elSrc v = createObjectURL (nextId w) f
  | [], [] =>
      titleDisplay (state w') = "" /\ commands w' = commands w
  end.
Proof.
  intros Hr w'.
  destruct (handleFileUpload_resets w fs) as (H1 & H2 & _).
  destruct (upload_state w fs) as (U1 & U2 & _).
  cbv zeta in H1, H2, U1, U2. fold w' in U1, U2.
  rewrite H1 in U1. rewrite H2 in U2.
  pose proof (reachable_invariant w Hr) as Hinv.
  pose proof (handle_pre_invariant (ChangeUpload (Some fs)) w Hinv)
    as [(v & Hv & Hl & _) _ _].
  assert (Hch : deps_same (deps_of (state (handle (ChangeUpload (Some fs)) w)))
                          (effectDeps (handle (ChangeUpload (Some fs)) w)) = false).
  { destruct Hinv as [_ Hd Hf _]. destruct w as [s vr cs cl dp nid]. simpl in *.
    subst dp. simpl. apply andb_false_iff. right. apply Nat.eqb_neq. lia. }
  assert (Hsrc : forall t, track_at (tracks (state w')) (currentTrackIndex (state w')) = Some t ->
                 exists v', videoRef w' = Some v' /\ elSrc v' = src t).
  { intros t Ht.
    assert (Ht' : track_at (tracks (state (handle (ChangeUpload (Some fs)) w)))
                    (currentTrackIndex (state (handle (ChangeUpload (Some fs)) w))) = Some t).
    { unfold w', dispatch in Ht. rewrite commit_tracks, commit_currentTrackIndex in Ht.
      exact Ht. }
    destruct (commit_runs_effect _ v t Hv Hl Hch Ht') as (_ & _ & _ & C4 & _).
    eexists. split; [exact C4 | reflexivity]. }
  destruct (tracks (state w)) as [|t0 ts] eqn:Et.
  - destruct fs as [|f fs'].
    + split.
      * rewrite titleDisplay_eq, U1, U2. reflexivity.
      * (* no track was loaded, so no listener is registered *)
        assert (Hc : effectCleanup w = None).
        { destruct Hinv as [(v1 & _ & _ & _ & Hs) _ _ _].
          destruct (effectCleanup w) as [l|]; [|reflexivity].
          destruct (Hs l eq_refl) as (track & Htr & _). rewrite Et in Htr.
          destruct (currentTrackIndex (state w)) as [[|i]|]; discriminate. }
        unfold w', dispatch, commit. rewrite Hch.
        destruct w as [s [v0|] cs cl dp nid]; simpl in *; subst cl;
          unfold trackEffect, run_cleanup; simpl; rewrite ?Et; reflexivity.
    + assert (Ht : track_at (tracks (state w')) (currentTrackIndex (state w'))
                   = Some (mkTrack (name f) (createObjectURL (nextId w) f)))
        by (rewrite U1, U2; reflexivity).
      split; [rewrite titleDisplay_eq, Ht; reflexivity|].
      exact (Hsrc _ Ht).
  - assert (Ht : track_at (tracks (state w')) (currentTrackIndex (state w')) = Some t0)
      by (rewrite U1, U2; reflexivity).
    split; [exact Ht|]. split; [rewrite titleDisplay_eq, Ht; reflexivity|].
    exact (Hsrc _ Ht).
Qed.

Lemma upload_selects_head_of_playlist_witness :
  let w := dispatch (ChangeUpload (Some [mkFile "a.mp4"])) mounted in
  titleDisplay (state (dispatch (ChangeUpload (Some [mkFile "b.mp4"])) w)) = "a.mp4".
Proof.
  intros w.
  assert (Hr : reachable w) by repeat constructor.
  exact (proj1 (proj2 (upload_selects_head_of_playlist w [mkFile "b.mp4"] Hr))).
Defined.

Lemma handle_effect_fields (e : Event) (w : World) :
  effectDeps (handle e w) = effectDeps w /\
  effectCleanup (handle e w) = effectCleanup w.
Proof.
  destruct e; try (destruct w as [s [v|] cs cl dp nid]; split; reflexivity).
  - destruct w as [s [v|] cs cl dp nid]; simpl; [destruct (isPlaying s)|]; split; reflexivity.
  - destruct files; destruct w as [s vr cs cl dp nid]; split; reflexivity.
  - apply fire_loadeddata_effect.
Qed.

(** Where the index designates a track, the effect's last run has left its
    cleanup behind. *)
Lemma reachable_track_has_cleanup (w : World) :
  reachable w ->
  track_at (tracks (state w)) (currentTrackIndex (state w)) <> None ->
  effectCleanup w <> None.
Proof.
  induction 1 as [|e w Hr IH]; [intros H; exfalso; apply H; reflexivity|].
  intros Ht. unfold dispatch in *. rewrite commit_tracks, commit_currentTrackIndex in Ht.
  pose proof (reachable_invariant w Hr) as Hinv.
  pose proof (handle_pre_invariant e w Hinv) as [(v & Hv & Hl & _) _ _].
  destruct (deps_same (deps_of (state (handle e w))) (effectDeps (handle e w))) eqn:Es.
  - (* no dependency changed: the track is the one it was *)
    unfold commit. rewrite Es.
    destruct (handle_effect_fields e w) as (Hd & Hc). rewrite Hc. apply IH.
    rewrite Hd in Es. destruct Hinv as [_ Hdeps Hf _]. rewrite Hdeps in Es.
    apply deps_same_eq in Es. unfold deps_of in Es. injection Es as Ei Er.
    rewrite handle_tracks in Ht. rewrite Ei in Ht.
    destruct e; try (rewrite app_nil_r in Ht; exact Ht).
    destruct files as [fs|]; [|rewrite app_nil_r in Ht; exact Ht].
    exfalso. destruct w as [s vr cs cl dp nid]. simpl in *. lia.
  - destruct (track_at (tracks (state (handle e w)))
                       (currentTrackIndex (state (handle e w)))) as [t|] eqn:Et;
      [|exfalso; apply Ht; reflexivity].
    destruct (commit_runs_effect _ v t Hv Hl Es Et) as (_ & _ & _ & _ & C5 & _).
    rewrite C5. discriminate.
Qed.

(** X9.  In every state the mounted component reaches with a non-empty
    playlist, the index designates a track of the playlist; the title shown
    is that track's, the element's source is that track's, and exactly one
    "loadeddata" listener is registered.  With an empty playlist no title
    is shown and no listener is registered. *)
Theorem current_track_is_loaded (w : World) :
  reachable w ->
  match tracks (state w) with
  | [] =>
      titleDisplay (state w) = "" /\
      exists v, videoRef w = Some v /\ elLoadedData v = []
  | _ :: _ =>
      exists i t v,
        currentTrackIndex (state w) = Index i /\
        nth_error (tracks (state w)) i = Some t /\
        titleDisplay (state w) = title t /\
        videoRef w = Some v /\
        elSrc v = src t /\
        List.length (elLoadedData v) = 1%nat
  end.
Proof.
  intros Hr.
  destruct (tracks (state w)) as [|t0 ts] eqn:Et;
    pose proof (reachable_invariant w Hr) as [(v & Hv & Hl & _ & Hs) _ _ _];
    pose proof (reachable_track_has_cleanup w Hr) as Hc.
  - split.
    + rewrite titleDisplay_eq, Et.
      destruct (currentTrackIndex (state w)) as [[|i]|]; reflexivity.
    + exists v. split; [exact Hv|]. rewrite Hl.
      destruct (effectCleanup w) as [l|]; [|reflexivity].
      destruct (Hs l eq_refl) as (track & Htr & _). rewrite Et in Htr.
      destruct (currentTrackIndex (state w)) as [[|i]|]; discriminate.
  - destruct (reachable_index_in_range w Hr) as (i & Hi & Hlt);
      [rewrite Et; discriminate|].
    destruct (nth_error (tracks (state w)) i) as [t|] eqn:En;
      [|apply nth_error_None in En; lia].
    assert (Ht : track_at (tracks (state w)) (currentTrackIndex (state w)) = Some t)
      by (rewrite Hi; exact En).
    destruct (effectCleanup w) as [l|] eqn:Ec;
      [|exfalso; apply Hc; [rewrite Ht; discriminate | reflexivity]].
    destruct (Hs l eq_refl) as (track & Htr & Hsrc).
    rewrite Ht in Htr. injection Htr as <-.
    exists i, t, v. rewrite <- Et. repeat split; try assumption.
    + rewrite titleDisplay_eq, Ht. reflexivity.
    + rewrite Hl. reflexivity.
Qed.

Lemma current_track_is_loaded_witness :
  exists i t v,
    currentTrackIndex (state (dispatch ClickNext playing_two_tracks)) = Index i /\
    nth_error (tracks (state (dispatch ClickNext playing_two_tracks))) i = Some t /\
    titleDisplay (state (dispatch ClickNext playing_two_tracks)) = title t /\
    videoRef (dispatch ClickNext playing_two_tracks) = Some v /\
    elSrc v = src t /\
    List.length (elLoadedData v) = 1%nat.
Proof.
  assert (Hr : reachable (dispatch ClickNext playing_two_tracks))
    by (unfold playing_two_tracks; simpl; repeat constructor).
  exact (current_track_is_loaded _ Hr).
Defined.

(** ** The guards on [videoRef.current] *)

(** X10.  While [videoRef.current] is null no command is issued and every
    handler but two returns without a change: [handleFileUpload] and
    [playNextTrack] do not test the reference and update the hooks all the
    same, and the effect, which does test it, loads nothing. *)
Theorem null_videoRef_is_guarded (e : Event) (w : World) :
  videoRef w = None ->
  commands (dispatch e w) = commands w /\
  videoRef (dispatch e w) = None /\
  state (dispatch e w) = state (handle e w) /\
  (writes_dependency e = false -> handle e w = w) /\
  (forall fs, e = ChangeUpload (Some fs) ->
     tracks (state (dispatch e w)) = (tracks (state w) ++ newTracks (nextId w) fs)%list) /\
  (e = ClickNext ->
     currentTrackIndex (state (dispatch e w))
     = index_rem (index_succ (currentTrackIndex (state w)))
                 (List.length (tracks (state w)))).
Proof.
  intros Hv.
  assert (Hh : videoRef (handle e w) = None /\ commands (handle e w) = commands w /\
               (writes_dependency e = false -> handle e w = w)).
  { destruct w as [s vr cs cl dp nid]. simpl in Hv. subst vr.
    destruct e; try (repeat split; reflexivity).
    - repeat split; discriminate.
    - destruct files; repeat split; try reflexivity. discriminate. }
  destruct Hh as (H1 & H2 & H3).
  assert (Hc : forall w0, videoRef w0 = None ->
               commands (commit w0) = commands w0 /\ videoRef (commit w0) = None /\
               state (commit w0) = state w0).
  { clear. intros w0 Hv. unfold commit. destruct (deps_same _ _); [auto|].
    destruct w0 as [s vr cs [l|] dp nid]; simpl in *; subst vr; repeat split. }
  destruct (Hc (handle e w) H1) as (C1 & C2 & C3).
  unfold dispatch. rewrite C1, C2, C3, H2. repeat split; try assumption.
  - intros fs ->. destruct w as [s vr cs cl dp nid]. reflexivity.
  - intros ->. destruct w as [s vr cs cl dp nid]. reflexivity.
Qed.

Lemma null_videoRef_is_guarded_witness :
  let w := mkWorld initialState None [] None None 1 in
  commands (dispatch ClickPlayPause w) = [] /\
  handle ClickPlayPause w = w.
Proof.
  intros w.
  destruct (null_videoRef_is_guarded ClickPlayPause w eq_refl) as (H1 & _ & _ & H4 & _).
  split; [exact H1 | exact (H4 eq_refl)].
Defined.

(** ** The stored flag after the deferred resume *)

(** X11.  After a next-track click that changes the track while the
    player is playing, and the "loadeddata" notification that follows, the
    element plays but nothing has set [isPlaying] back: the flag is false
    and the button shows the play icon.  The next click on it issues
    [play()] once more, not [pause()]; only the click after that pauses. *)
Theorem resumed_track_shows_play_icon (w : World) (track : VideoTrack) :
  reachable w ->
  isPlaying (state w) = true ->
  changes_track (handle ClickNext) w track ->
  let w2 := run [ClickNext; LoadedData] w in
  isPlaying (state w2) = false /\
  playPauseIcon (state w2) = PlayIcon /\
  (exists v, videoRef w2 = Some v /\ elPaused v = false /\ elSrc v = src track) /\
  commands (dispatch ClickPlayPause w2) = (commands w2 ++ [Play])%list /\
  commands (run [ClickPlayPause; ClickPlayPause] w2) = (commands w2 ++ [Play; Pause])%list.
Proof.
  intros Hr Hp (Hch & Ht) w2.
  pose proof (handle_pre_invariant ClickNext w (reachable_invariant w Hr))
    as [(v & Hv & Hl & _) _ _].
  destruct (commit_runs_effect (handle ClickNext w) v track Hv Hl Hch Ht)
    as (C1 & _ & _ & C4 & _).
  fold (dispatch ClickNext w) in C1, C4.
  assert (Hpl : isPlaying (state (handle ClickNext w)) = true)
    by (destruct w as [s vr cs cl dp nid]; exact Hp).
  rewrite Hpl in C4.
  assert (Hw2 : w2 = fire_loadeddata (dispatch ClickNext w)).
  { apply dispatch_LoadedData, commit_in_sync. }
  assert (Hr2 : reachable w2) by (unfold w2; simpl; repeat constructor; exact Hr).
  assert (Hs2 : isPlaying (state w2) = false)
    by (rewrite Hw2, fire_loadeddata_state; exact C1).
  assert (Hv2 : videoRef w2 = Some (mkVideo (src track) false (elMuted v) Js.zero Js.NaN
                  (Js.of_Z 1) [mkListener (nextId (handle ClickNext w)) true])).
  { rewrite Hw2. unfold fire_loadeddata. rewrite C4. simpl.
    unfold onLoadedData, video_play, on_video. simpl. rewrite C4. reflexivity. }
  split; [exact Hs2|]. split; [unfold playPauseIcon; rewrite Hs2; reflexivity|].
  split; [eexists; split; [exact Hv2|]; split; reflexivity|].
  destruct (click_play_pause_twice w2 Hr2) as (_ & T2). rewrite Hs2 in T2.
  split; [|exact T2].
  rewrite (dispatch_without_dependency ClickPlayPause w2 Hr2 eq_refl).
  destruct w2 as [s2 vr2 cs2 cl2 dp2 nid2]. simpl in *. subst vr2.
  unfold togglePlayPause. simpl. rewrite Hs2. reflexivity.
Qed.

Lemma resumed_track_shows_play_icon_witness :
  let w2 := run [ClickNext; LoadedData] playing_two_tracks in
  playPauseIcon (state w2) = PlayIcon /\
  commands (dispatch ClickPlayPause w2) = (commands w2 ++ [Play])%list.
Proof.
  intros w2.
  assert (Hr : reachable playing_two_tracks)
    by (unfold playing_two_tracks; simpl; repeat constructor).
  assert (Hc : changes_track (handle ClickNext) playing_two_tracks (mkTrack "b.mp4" "blob:2"))
    by (split; reflexivity).
  destruct (resumed_track_shows_play_icon playing_two_tracks _ Hr eq_refl Hc)
    as (_ & H2 & _ & H4 & _).
  split; [exact H2 | exact H4].
Defined.

(** ** The time display *)




(** ** What is forwarded to the element *)

Lemma last_rate_written_app (cs ds : list Command) (r0 : Js.number) :
  last_rate_written (cs ++ ds) r0 = last_rate_written ds (last_rate_written cs r0).
Proof. apply fold_left_app. Qed.

Lemma fire_loadeddata_commands (w : World) :
  exists k, commands (fire_loadeddata w) = (commands w ++ repeat Play k)%list.
Proof.
  unfold fire_loadeddata. destruct (videoRef w) as [v|];
    [|exists 0%nat; simpl; rewrite app_nil_r; reflexivity].
  generalize (elLoadedData v) as ls. intros ls. revert w.
  induction ls as [|l ls IH]; intros w; simpl.
  - exists 0%nat. simpl. rewrite app_nil_r. reflexivity.
  - destruct (IH (onLoadedData l w)) as (k & Hk). rewrite Hk.
    unfold onLoadedData. destruct (closureIsPlaying l); [|exists k; reflexivity].
    destruct w as [s [v0|] cs cl dp nid]; simpl; [|exists k; reflexivity].
    exists (S k). rewrite <- app_assoc. reflexivity.
Qed.

Lemma last_rate_written_plays (k : nat) (r0 : Js.number) :
  last_rate_written (repeat Play k) r0 = r0.
Proof. induction k as [|k IH]; [reflexivity | exact IH]. Qed.

Lemma handle_last_rate_written (e : Event) (w : World) (r0 : Js.number) :
  videoRef w <> None ->
  last_rate_written (commands (handle e w)) r0 =
  match e with
  | ClickRate r => r
  | _ => last_rate_written (commands w) r0
  end.
Proof.
  intros Hv.
  destruct e;
    try (destruct w as [s [v|] cs cl dp nid]; [|exfalso; apply Hv; reflexivity]; simpl;
         rewrite ?last_rate_written_app; reflexivity).
  - destruct w as [s [v|] cs cl dp nid]; [|exfalso; apply Hv; reflexivity]. unfold handle, togglePlayPause.
    simpl. destruct (isPlaying s); simpl; rewrite last_rate_written_app; reflexivity.
  - destruct files; destruct w as [s vr cs cl dp nid]; reflexivity.
  - simpl. destruct (fire_loadeddata_commands w) as (k & ->).
    rewrite last_rate_written_app. apply last_rate_written_plays.
Qed.

Lemma commit_last_rate_written (w : World) (r0 : Js.number) :
  last_rate_written (commands (commit w)) r0 = last_rate_written (commands w) r0.
Proof.
  unfold commit. destruct (deps_same _ _); [reflexivity|].
  unfold trackEffect, run_cleanup.
  destruct w as [s [v|] cs [l|] dp nid]; simpl;
    destruct (track_at (tracks s) (currentTrackIndex s)); simpl;
    rewrite ?last_rate_written_app; reflexivity.
Qed.

(** X17.  A click on a speed button forwards its rate to the element's
    [playbackRate] and stores it, in one turn.  So in every state the
    mounted component reaches, the stored [playbackRate] is the rate of the
    last write the component made to the element, or 1 when it made none:
    nothing else writes either.  In particular the effect, which reloads
    the element on a track change, does not write the stored rate to it
    again. *)
Theorem stored_rate_is_last_forwarded (w : World) :
  reachable w ->
  playbackRate (state w) = last_rate_written (commands w) (Js.of_Z 1) /\
  forall r,
    playbackRate (state (dispatch (ClickRate r) w)) = r /\
    commands (dispatch (ClickRate r) w) = (commands w ++ [SetPlaybackRate r])%list /\
    exists v', videoRef (dispatch (ClickRate r) w) = Some v' /\ elPlaybackRate v' = r.
Proof.
  intros Hr. split.
  - induction Hr as [|e w Hr IH]; [reflexivity|].
    unfold dispatch. destruct (commit_frame (handle e w)) as (_ & C2 & _).
    rewrite C2, commit_last_rate_written.
    rewrite handle_playbackRate, handle_last_rate_written
      by (apply reachable_videoRef, Hr).
    destruct e; try exact IH. reflexivity.
  - intros r. rewrite (dispatch_without_dependency (ClickRate r) w Hr eq_refl).
    pose proof (reachable_videoRef w Hr) as Hv.
    destruct w as [s [v|] cs cl dp nid]; [|exfalso; apply Hv; reflexivity].
    simpl. repeat split. eexists. split; reflexivity.
Qed.

Lemma stored_rate_is_last_forwarded_witness :
  let w := run [ClickRate (Js.round_ratio 3 2); ClickNext] mounted in
  playbackRate (state w) = last_rate_written (commands w) (Js.of_Z 1).
Proof.
  intros w.
  assert (Hr : reachable w) by (unfold w; simpl; repeat constructor).
  exact (proj1 (stored_rate_is_last_forwarded w Hr)).
Defined.

(** ** The pending resume *)

Lemma run_without_dependency (es : list Event) (w : World) (v : HTMLVideoElement) :
  reachable w ->
  forallb (fun e => negb (writes_dependency e)) es = true ->
  videoRef w = Some v ->
  exists v', videoRef (run es w) = Some v' /\
             elSrc v' = elSrc v /\ elLoadedData v' = elLoadedData v.
Proof.
  revert w v. induction es as [|e es IH]; intros w v Hr Hes Hv; [simpl; eauto|].
  simpl in Hes. apply andb_true_iff in Hes. destruct Hes as (He & Hes).
  apply negb_true_iff in He.
  change (run (e :: es) w) with (run es (dispatch e w)).
  destruct (handle_video_source e w v Hv) as (v1 & V1 & V2 & V3).
  rewrite <- (dispatch_without_dependency e w Hr He) in V1.
  destruct (IH (dispatch e w) v1 (reachable_dispatch e w Hr) Hes V1) as (v' & W1 & W2 & W3).
  exists v'. repeat split; congruence.
Qed.

(** X18.  Whether "loadeddata" resumes playback is decided when the
    listener is registered, and the listener stays registered until the
    next track change.  After a next-track click that changes the track
    while the player is playing, every later "loadeddata" notification
    issues [play()], whatever happened in between short of another upload
    or next-track click: play/pause clicks, seeks, and earlier
    "loadeddata" notifications included. *)
Theorem pending_resume_is_decided_at_registration
    (w : World) (track : VideoTrack) (es : list Event) :
  reachable w ->
  isPlaying (state w) = true ->
  changes_track (handle ClickNext) w track ->
  forallb (fun e => negb (writes_dependency e)) es = true ->
  let w1 := run es (dispatch ClickNext w) in
  commands (dispatch LoadedData w1) = (commands w1 ++ [Play])%list /\
  exists v, videoRef w1 = Some v /\ elSrc v = src track /\
            List.length (elLoadedData v) = 1%nat.
Proof.
  intros Hr Hp (Hch & Ht) Hes w1.
  pose proof (handle_pre_invariant ClickNext w (reachable_invariant w Hr))
    as [(v & Hv & Hl & _) _ _].
  destruct (commit_runs_effect (handle ClickNext w) v track Hv Hl Hch Ht)
    as (_ & _ & _ & C4 & _).
  fold (dispatch ClickNext w) in C4.
  assert (Hpl : isPlaying (state (handle ClickNext w)) = true)
    by (destruct w as [s vr cs cl dp nid]; exact Hp).
  rewrite Hpl in C4.
  assert (Hr0 : reachable (dispatch ClickNext w)) by (constructor; exact Hr).
  destruct (run_without_dependency es _ _ Hr0 Hes C4) as (v1 & V1 & V2 & V3).
  fold w1 in V1. simpl in V2, V3.
  assert (Hr1 : reachable w1) by (apply run_reachable; exact Hr0).
  split.
  - rewrite (dispatch_without_dependency LoadedData w1 Hr1 eq_refl).
    simpl. unfold fire_loadeddata. rewrite V1, V3. simpl.
    unfold onLoadedData, video_play, on_video. simpl. rewrite V1. reflexivity.
  - exists v1. rewrite V3. auto.
Qed.

Lemma pending_resume_is_decided_at_registration_witness :
  let w1 := run [ClickPlayPause; ClickPlayPause; LoadedData]
                (dispatch ClickNext playing_two_tracks) in
  commands (dispatch LoadedData w1) = (commands w1 ++ [Play])%list.
Proof.
  intros w1.
  assert (Hr : reachable playing_two_tracks)
    by (unfold playing_two_tracks; simpl; repeat constructor).
  assert (Hc : changes_track (handle ClickNext) playing_two_tracks (mkTrack "b.mp4" "blob:2"))
    by (split; reflexivity).
  exact (proj1 (pending_resume_is_decided_at_registration playing_two_tracks _
                  [ClickPlayPause; ClickPlayPause; LoadedData] Hr eq_refl Hc eq_refl)).
Defined.

(** ** Uploads reload the element *)

(** X19.  Every upload on the mounted component hands the effect a new
    playlist array, so the effect runs even when the current track is the
    one it was, and even when no file was selected.  With a non-empty
    playlist the turn of an upload removes the registered listener, pauses
    the element, gives it the source of the playlist's first track again
    and reloads it, registers a new listener, and leaves the player paused
    at position 0: an upload during playback stops and rewinds it. *)
Theorem upload_always_reloads (w : World) (fs : list File) (t0 : VideoTrack)
    (rest : list VideoTrack) :
  reachable w ->
  tracks (state w) = t0 :: rest ->
  let e := ChangeUpload (Some fs) in
  exists l,
    effectCleanup w = Some l /\
    commands (dispatch e w) =
      (commands w ++ [RemoveLoadedData (listenerId l); Pause; SetSrc (src t0); Load;
                      AddLoadedData (nextId (handle e w))])%list /\
    isPlaying (state (dispatch e w)) = false /\
    currentTime (state (dispatch e w)) = Js.zero /\
    progress (state (dispatch e w)) = Js.zero /\
    exists v', videoRef (dispatch e w) = Some v' /\ elPaused v' = true /\
               elSrc v' = src t0.
Proof.
  intros Hr Et e.
  pose proof (reachable_invariant w Hr) as Hinv.
  pose proof (handle_pre_invariant e w Hinv) as [(v & Hv & Hl & _) _ _].
  assert (Hch : deps_same (deps_of (state (handle e w))) (effectDeps (handle e w)) = false).
  { destruct Hinv as [_ Hd Hf _]. destruct w as [s vr cs cl dp nid]. simpl in *.
    subst dp. simpl. apply andb_false_iff. right. apply Nat.eqb_neq. lia. }
  assert (Ht : track_at (tracks (state (handle e w)))
                        (currentTrackIndex (state (handle e w))) = Some t0).
  { destruct (handleFileUpload_resets w fs) as (H1 & H2 & _). cbv zeta in H1, H2.
    unfold e, handle. rewrite H1, H2, Et. reflexivity. }
  destruct (commit_runs_effect _ v t0 Hv Hl Hch Ht) as (C1 & C2 & C3 & C4 & _ & C6).
  fold (dispatch e w) in C1, C2, C3, C4, C6.
  destruct (handle_effect_fields e w) as (_ & Hc). rewrite Hc in C6.
  assert (Hcmd : commands (handle e w) = commands w)
    by (destruct w as [s vr cs cl dp nid]; reflexivity).
  rewrite Hcmd in C6.
  destruct (effectCleanup w) as [l|] eqn:Ec.
  - exists l. split; [reflexivity|]. split; [exact C6|].
    split; [exact C1|]. split; [exact C2|]. split; [exact C3|].
    eexists. split; [exact C4|]. split; reflexivity.
  - exfalso. apply (reachable_track_has_cleanup w Hr); [|exact Ec].
    destruct (reachable_index_in_range w Hr) as (i & Hi & Hlt);
      [rewrite Et; discriminate|].
    rewrite Hi. simpl. intros En. apply nth_error_None in En. lia.
Qed.

Lemma upload_always_reloads_witness :
  isPlaying (state (dispatch (ChangeUpload (Some [])) playing_two_tracks)) = false /\
  exists v', videoRef (dispatch (ChangeUpload (Some [])) playing_two_tracks) = Some v' /\
             elPaused v' = true /\ elSrc v' = "blob:1".
Proof.
  assert (Hr : reachable playing_two_tracks)
    by (unfold playing_two_tracks; simpl; repeat constructor).
  destruct (upload_always_reloads playing_two_tracks [] _ _ Hr eq_refl)
    as (l & _ & _ & H3 & _ & _ & H6).
  split; [exact H3 | exact H6].
Defined.

(** * Further properties of the arithmetic *)

(** ** Rounding never crosses a double *)

Module Monotone.

Import Js Rounding RoundingError.

Lemma valid_canonical (s : bool) (m : positive) (e : Z) :
  valid (S754_finite s m e) = true -> canonical m e.
Proof.
  intros Hv. unfold valid, valid_binary, bounded, canonical_mantissa in Hv.
  apply andb_true_iff in Hv. destruct Hv as (Hc & Hb).
  apply Z.eqb_eq in Hc. apply Z.leb_le in Hb. rewrite fexp_eq in Hc.
  change (Z.pos (digits2_pos m)) with (Zdigits2 (Z.pos m)) in Hc.
  change (emax - prec) with 971 in Hb.
  pose proof (Zdigits2_bounds (Z.pos m) ltac:(lia)) as [B1 B2].
  assert (Hd : Zdigits2 (Z.pos m) <= 53) by lia.
  repeat split; try lia.
  - apply Z.lt_le_trans with (1 := B2). apply Z.pow_le_mono_r; lia.
  - destruct (Z.eq_dec e (-1074)) as [|Hne]; [left; assumption|right].
    assert (Hd53 : Zdigits2 (Z.pos m) = 53) by lia.
    rewrite Hd53 in B1. exact B1.
Qed.

Lemma rounded_finite (m e : Z) :
  0 <= m <= 2 ^ 53 -> e <= 971 -> (m = 2 ^ 53 -> e <= 970) ->
  is_finite (rounded false m e) = true /\
  (to_Q (rounded false m e) == inject_Z m * 2 ^ e)%Q.
Proof.
  intros Hm He Hc. unfold rounded.
  destruct (Z.eqb_spec m 0) as [E0|E0].
  - subst m. split; [reflexivity|]. cbn [to_Q]. ring.
  - destruct (Z.eqb_spec m (2 ^ 53)) as [E1|E1].
    + specialize (Hc E1). destruct (Z.leb_spec (e + 1) 971) as [_|]; [|lia].
      split; [reflexivity|]. rewrite to_Q_finite, pow2_add, E1.
      change (2 ^ 1)%Q with 2%Q.
      change (inject_Z (Z.pos (2 ^ 52))) with (inject_Z (2 ^ 52)).
      change (inject_Z (2 ^ 53)) with (2 * inject_Z (2 ^ 52))%Q at 1.
      ring.
    + destruct (Z.leb_spec e 971) as [_|]; [|lia].
      split; [reflexivity|]. rewrite to_Q_finite, Z2Pos.id by lia. reflexivity.
Qed.

Lemma to_Q_canonical_lt (mb : positive) (eb : Z) :
  (Z.pos mb < 2 ^ 53)%Z ->
  (to_Q (S754_finite false mb eb) < 2 ^ 53 * 2 ^ eb)%Q.
Proof.
  intros Hm. rewrite to_Q_finite. apply Qmult_lt_compat_r; [apply pow2_pos|].
  change (2 ^ 53)%Q with (inject_Z (2 ^ 53)). rewrite <- Zlt_Qlt. exact Hm.
Qed.

(** The rounding of a non-negative [X] that is at most the double [B] is
    at most [B], and finite. *)
Lemma rounded_le (N D' e1 : Z) (X : Q) (mb : positive) (eb : Z) :
  (0 < D')%Z -> (0 <= N)%Z ->
  (e1 = -1074 \/ 2 ^ 52 <= N / D')%Z -> (N / D' < 2 ^ 53)%Z -> (-1074 <= e1)%Z ->
  (X == inject_Z N / inject_Z D' * 2 ^ e1)%Q ->
  canonical mb eb ->
  (X <= to_Q (S754_finite false mb eb))%Q ->
  let m := round_nearest_even (N / D') (loc_of (N mod D') D') in
  let r := rounded false m e1 in
  is_finite r = true /\
  (0 <= to_Q r)%Q /\
  (to_Q r <= to_Q (S754_finite false mb eb))%Q /\
  (r = S754_zero false \/ exists mq eq, r = S754_finite false mq eq /\ canonical mq eq) /\
  ((N mod D' = 0)%Z -> (to_Q r == X)%Q).
Proof.
  intros HD HN Hnorm Hlt He1 HX (Cb1 & Cb2 & Cb3) HXB m r.
  destruct (round_nearest_even_spec N D' HD HN) as ((R1 & R2) & R3 & R4).
  fold m in R1, R2, R3, R4.
  assert (Hm0 : (0 <= N / D')%Z) by (apply Z.div_pos; lia).
  destruct (Zdiv_Q_bounds N D' HD) as (F1 & F2).
  pose proof (pow2_pos e1) as HP.
  assert (Hd : (0 < inject_Z D')%Q)
    by (change (inject_Z 0 < inject_Z D')%Q; rewrite <- Zlt_Qlt; exact HD).
  (* the exponent of the bound is at least that of the rounding *)
  assert (Hee : (e1 <= eb)%Z).
  { destruct Hnorm as [E|Hn]; [lia|].
    destruct (Z.le_gt_cases e1 eb) as [|Hgt]; [assumption|exfalso].
    assert (HxP : (2 ^ 52 * 2 ^ e1 <= X)%Q).
    { rewrite HX. apply Qmult_le_compat_r; [|apply Qlt_le_weak, HP].
      apply Qle_trans with (2 := F1). rewrite Zle_Qle in Hn. exact Hn. }
    pose proof (to_Q_canonical_lt mb eb Cb1) as HB.
    assert (Hpow : (2 ^ 53 * 2 ^ eb <= 2 ^ 52 * 2 ^ e1)%Q).
    { rewrite <- !pow2_add. apply pow2_le. lia. }
    apply (Qlt_irrefl X).
    apply Qle_lt_trans with (1 := HXB). apply Qlt_le_trans with (1 := HB).
    apply Qle_trans with (1 := Hpow). exact HxP. }
  set (K := (Z.pos mb * 2 ^ (eb - e1))%Z).
  assert (Hpk : (0 < 2 ^ (eb - e1))%Z) by (apply Z.pow_pos_nonneg; lia).
  assert (HB : (to_Q (S754_finite false mb eb) == inject_Z K * 2 ^ e1)%Q).
  { rewrite to_Q_finite. unfold K. rewrite inject_Z_mult, inject_Z_pow2 by lia.
    rewrite <- Qmult_assoc, <- pow2_add. replace (eb - e1 + e1)%Z with eb by lia.
    reflexivity. }
  (* [N / D' <= K], as integers *)
  assert (HNK : (N <= K * D')%Z).
  { rewrite HX, HB in HXB.
    apply Qmult_le_r in HXB; [|exact HP].
    assert (E : (inject_Z N == inject_Z N / inject_Z D' * inject_Z D')%Q).
    { field. intros E'. rewrite E' in Hd. discriminate Hd. }
    rewrite Zle_Qle, inject_Z_mult, E.
    apply Qmult_le_compat_r; [exact HXB | apply Qlt_le_weak, Hd]. }
  assert (HmK : (m <= K)%Z) by nia.
  assert (HK : (K < 2 ^ 53 * 2 ^ (eb - e1))%Z) by (unfold K; nia).
  assert (Hm53 : (m = 2 ^ 53 -> e1 <= 970)%Z).
  { intros E. destruct (Z.eq_dec eb e1) as [Ee|Ee]; [|lia].
    rewrite Ee, Z.sub_diag, Z.pow_0_r in HK. lia. }
  destruct (rounded_finite m e1 ltac:(lia) ltac:(lia) Hm53) as (V1 & V2).
  fold r in V1, V2.
  split; [exact V1|]. split; [|split; [|split]].
  - rewrite V2. apply Qmult_le_0_compat; [|apply Qlt_le_weak, HP].
    change (inject_Z 0 <= inject_Z m)%Q. rewrite <- Zle_Qle. lia.
  - rewrite V2, HB. apply Qmult_le_compat_r; [|apply Qlt_le_weak, HP].
    rewrite <- Zle_Qle. exact HmK.
  - unfold r, rounded.
    destruct (Z.eqb_spec m 0) as [E0|E0]; [left; reflexivity|right].
    destruct (Z.eqb_spec m (2 ^ 53)) as [E1|E1].
    + specialize (Hm53 E1). destruct (Z.leb_spec (e1 + 1) 971) as [_|]; [|lia].
      eexists _, _. split; [reflexivity|]. unfold canonical.
      change (Z.pos (2 ^ 52)) with (2 ^ 52)%Z. lia.
    + destruct (Z.leb_spec e1 971) as [_|]; [|lia].
      eexists _, _. split; [reflexivity|]. unfold canonical.
      rewrite Z2Pos.id by lia. lia.
  - intros Hex. rewrite V2, HX, (R4 Hex).
    assert (Hq : (inject_Z (N / D') == inject_Z N / inject_Z D')%Q).
    { assert (E : N = (N / D' * D')%Z).
      { pose proof (Z.div_mod N D' ltac:(lia)). lia. }
      rewrite E at 2. rewrite inject_Z_mult. field.
      intros E'. rewrite E' in Hd. discriminate Hd. }
    rewrite Hq. reflexivity.
Qed.

Lemma canonical_one : canonical 4503599627370496 (-52).
Proof. unfold canonical. change (Z.pos 4503599627370496) with (2 ^ 52)%Z. lia. Qed.

Lemma to_Q_one : (to_Q (S754_finite false 4503599627370496 (-52)) == 1)%Q.
Proof. vm_compute. reflexivity. Qed.

(** The quotient of two positive finite doubles, the first at most the
    second, is at most 1. *)
Lemma div_le_one (mt md : positive) (et ed : Z) :
  let t := S754_finite false mt et in
  let d := S754_finite false md ed in
  (to_Q t <= to_Q d)%Q ->
  is_finite (div t d) = true /\
  (0 <= to_Q (div t d))%Q /\
  (to_Q (div t d) <= 1)%Q /\
  (div t d = S754_zero false \/
   exists mq eq, div t d = S754_finite false mq eq /\ canonical mq eq).
Proof.
  intros t d Htd.
  destruct (SFdiv_finite_spec false false mt md et ed) as (B1 & B2 & B3 & B4 & B5).
  set (e' := Z.min (fexp prec emax (Zdigits2 (Z.pos mt) + et - (Zdigits2 (Z.pos md) + ed)))
                   (et - ed)) in *.
  set (N := (Z.pos mt * 2 ^ (et - ed - e'))%Z) in *.
  set (e1 := fexp prec emax (Zdigits2 (N / Z.pos md) + e')) in *.
  set (D' := (2 ^ (e1 - e') * Z.pos md)%Z) in *.
  assert (Hp1 : (0 < 2 ^ (et - ed - e'))%Z) by (apply Z.pow_pos_nonneg; lia).
  assert (Hp2 : (0 < 2 ^ (e1 - e'))%Z) by (apply Z.pow_pos_nonneg; lia).
  assert (HD : (0 < D')%Z) by (unfold D'; nia).
  assert (HN : (0 <= N)%Z) by (unfold N; nia).
  assert (He1 : (-1074 <= e1)%Z) by (unfold e1; rewrite fexp_eq; lia).
  set (X := (to_Q t / to_Q d)%Q).
  assert (HXe : (X == inject_Z N / inject_Z D' * 2 ^ e1)%Q).
  { unfold X, t, d, N, D'. rewrite !to_Q_finite, !inject_Z_mult.
    rewrite !inject_Z_pow2 by lia.
    assert (E1 : (2 ^ et == 2 ^ (et - ed - e') * 2 ^ e' * 2 ^ ed)%Q).
    { rewrite <- !pow2_add. replace (et - ed - e' + e' + ed)%Z with et by lia. reflexivity. }
    assert (E2 : (2 ^ e1 == 2 ^ (e1 - e') * 2 ^ e')%Q).
    { rewrite <- pow2_add. replace (e1 - e' + e')%Z with e1 by lia. reflexivity. }
    rewrite E1, E2. field.
    repeat split; try apply pow2_neq0; apply inject_Z_pos_neq0. }
  assert (HX1 : (X <= to_Q (S754_finite false 4503599627370496 (-52)))%Q).
  { rewrite to_Q_one. unfold X. apply Qle_shift_div_r; [apply to_Q_pos|].
    rewrite Qmult_1_l. exact Htd. }
  destruct (rounded_le N D' e1 X _ _ HD HN B1 B2 He1 HXe canonical_one HX1)
    as (R1 & R2 & R3 & R4 & _).
  unfold div. fold t d in B5. rewrite B5. rewrite to_Q_one in R3.
  repeat split; assumption.
Qed.

(** A finite double other than zero divided by itself is exactly 1. *)
Lemma div_self (s : bool) (m : positive) (e : Z) :
  div (S754_finite s m e) (S754_finite s m e) = S754_finite false 4503599627370496 (-52).
Proof.
  destruct (SFdiv_finite_spec s s m m e e) as (_ & _ & _ & _ & B5).
  unfold div. rewrite B5. clear B5. rewrite xorb_nilpotent.
  replace (Zdigits2 (Z.pos m) + e - (Zdigits2 (Z.pos m) + e))%Z with 0%Z by lia.
  rewrite Z.sub_diag.
  change (Z.min (fexp prec emax 0) 0) with (-53)%Z.
  change (0 - -53)%Z with 53%Z.
  assert (Hq : (Z.pos m * 2 ^ 53 / Z.pos m = 2 ^ 53)%Z).
  { rewrite Z.mul_comm. apply Z.div_mul. lia. }
  rewrite Hq.
  change (fexp prec emax (Zdigits2 (2 ^ 53) + -53)) with (-52)%Z.
  change (2 ^ (-52 - -53))%Z with 2%Z.
  assert (Hd : (Z.pos m * 2 ^ 53 / (2 * Z.pos m) = 2 ^ 52)%Z).
  { replace (Z.pos m * 2 ^ 53)%Z with (2 ^ 52 * (2 * Z.pos m))%Z
      by (change (2 ^ 53)%Z with (2 ^ 52 * 2)%Z; ring).
    apply Z.div_mul. lia. }
  assert (Hr : (Z.pos m * 2 ^ 53 mod (2 * Z.pos m) = 0)%Z).
  { replace (Z.pos m * 2 ^ 53)%Z with (2 ^ 52 * (2 * Z.pos m))%Z
      by (change (2 ^ 53)%Z with (2 ^ 52 * 2)%Z; ring).
    apply Z.mod_mul. lia. }
  rewrite Hd, Hr. reflexivity.
Qed.

Lemma canonical_fexp (m : positive) (e : Z) :
  canonical m e -> fexp prec emax (Zdigits2 (Z.pos m) + e) = e.
Proof.
  intros (C1 & C2 & C3). rewrite fexp_eq.
  assert (Hd : (Zdigits2 (Z.pos m) <= 53)%Z) by (apply Zdigits2_le; lia).
  destruct C3 as [E|Hm]; [lia|].
  assert (53 <= Zdigits2 (Z.pos m))%Z by (apply Zdigits2_ge; [exact Hm | lia]).
  lia.
Qed.

(** [SFmul] on two finite doubles in canonical form is the rounding of the
    exact product. *)
Lemma SFmul_finite_spec (sx sy : bool) (mx my : positive) (ex ey : Z) :
  canonical mx ex -> canonical my ey ->
  let N := Z.pos (mx * my) in
  let e0 := (ex + ey)%Z in
  let e1 := fexp prec emax (Zdigits2 N + e0) in
  let D' := (2 ^ (e1 - e0))%Z in
  let m := round_nearest_even (N / D') (loc_of (N mod D') D') in
  (e1 = -1074 \/ 2 ^ 52 <= N / D')%Z /\
  (N / D' < 2 ^ 53)%Z /\
  (e0 <= e1)%Z /\
  mul (S754_finite sx mx ex) (S754_finite sy my ey) = rounded (xorb sx sy) m e1.
Proof.
  intros (X1 & X2 & X3) (Y1 & Y2 & Y3) N e0 e1 D' m.
  assert (He : (e0 <= fexp prec emax (Zdigits2 N + e0))%Z).
  { rewrite fexp_eq.
    destruct X3 as [Ex|Hx].
    - destruct Y3 as [Ey|Hy]; [unfold e0; lia|].
      assert (HN : (2 ^ 52 <= N)%Z) by (unfold N; rewrite Pos2Z.inj_mul; nia).
      assert (53 <= Zdigits2 N)%Z by (apply Zdigits2_ge; [exact HN | reflexivity]).
      lia.
    - assert (HN : (2 ^ 52 <= N)%Z) by (unfold N; rewrite Pos2Z.inj_mul; nia).
      assert (53 <= Zdigits2 N)%Z by (apply Zdigits2_ge; [exact HN | reflexivity]).
      lia. }
  assert (Hmx : N = (N / 1)%Z) by (rewrite Z.div_1_r; reflexivity).
  assert (Hlx : loc_Exact = loc_of (N mod 1) 1) by (rewrite Z.mod_1_r; reflexivity).
  destruct (binary_round_aux_spec (xorb sx sy) N e0 loc_Exact N 1
              ltac:(lia) ltac:(unfold N; lia) Hmx Hlx He) as (B1 & B2 & B3).
  fold e1 in B1, B2, B3, He. rewrite Z.mul_1_r in B1, B2, B3. fold D' in B1, B2, B3.
  fold m in B3.
  split; [exact B1|]. split; [exact B2|]. split; [exact He|]. exact B3.
Qed.

(** The product of two non-negative doubles that is at most the double [B]
    rounds to at most [B]. *)
Lemma mul_le (mx my mb : positive) (ex ey eb : Z) :
  canonical mx ex -> canonical my ey -> canonical mb eb ->
  let x := S754_finite false mx ex in
  let y := S754_finite false my ey in
  (to_Q x * to_Q y <= to_Q (S754_finite false mb eb))%Q ->
  is_finite (mul x y) = true /\
  (0 <= to_Q (mul x y))%Q /\
  (to_Q (mul x y) <= to_Q (S754_finite false mb eb))%Q.
Proof.
  intros Cx Cy Cb x y HXB.
  destruct (SFmul_finite_spec false false mx my ex ey Cx Cy) as (B1 & B2 & B3 & B4).
  set (N := Z.pos (mx * my)) in *. set (e0 := (ex + ey)%Z) in *.
  set (e1 := fexp prec emax (Zdigits2 N + e0)) in *.
  set (D' := (2 ^ (e1 - e0))%Z) in *.
  assert (HD : (0 < D')%Z) by (apply Z.pow_pos_nonneg; lia).
  assert (He1 : (-1074 <= e1)%Z) by (unfold e1; rewrite fexp_eq; lia).
  assert (HXe : (to_Q x * to_Q y == inject_Z N / inject_Z D' * 2 ^ e1)%Q).
  { unfold x, y, N, D'. rewrite !to_Q_finite, Pos2Z.inj_mul, inject_Z_mult.
    rewrite inject_Z_pow2 by lia.
    assert (E2 : (2 ^ e1 == 2 ^ (e1 - e0) * (2 ^ ex * 2 ^ ey))%Q).
    { rewrite <- !pow2_add. replace (e1 - e0 + (ex + ey))%Z with e1 by (unfold e0; lia).
      reflexivity. }
    rewrite E2. field. apply pow2_neq0. }
  destruct (rounded_le N D' e1 _ mb eb HD ltac:(unfold N; lia) B1 B2 He1 HXe Cb HXB)
    as (R1 & R2 & R3 & _).
  fold x y in B4. rewrite B4. simpl xorb. repeat split; assumption.
Qed.

(** Multiplying by 1 returns a canonical double as it is. *)
Lemma mul_one_l (s : bool) (m : positive) (e : Z) :
  canonical m e ->
  mul (S754_finite false 4503599627370496 (-52)) (S754_finite s m e) = S754_finite s m e.
Proof.
  intros Cm. pose proof Cm as (C1 & C2 & C3).
  destruct (SFmul_finite_spec false s _ m _ e canonical_one Cm) as (_ & _ & _ & B4).
  rewrite B4. clear B4. simpl xorb.
  assert (HN : Z.pos (4503599627370496 * m) = (Z.pos m * 2 ^ 52)%Z).
  { rewrite Pos2Z.inj_mul. change (Z.pos 4503599627370496) with (2 ^ 52)%Z. ring. }
  rewrite HN.
  assert (Hdig : Zdigits2 (Z.pos m * 2 ^ 52) = (Zdigits2 (Z.pos m) + 52)%Z).
  { pose proof (Zdigits2_bounds (Z.pos m) ltac:(lia)) as [D1 D2].
    assert (1 <= Zdigits2 (Z.pos m))%Z by (simpl; lia).
    apply Zdigits2_unique; [|lia].
    replace (Zdigits2 (Z.pos m) + 52 - 1)%Z with ((Zdigits2 (Z.pos m) - 1) + 52)%Z by lia.
    rewrite !Z.pow_add_r by lia. split.
    - apply Z.mul_le_mono_nonneg_r; lia.
    - apply Z.mul_lt_mono_pos_r; lia. }
  rewrite Hdig.
  replace (Zdigits2 (Z.pos m) + 52 + (-52 + e))%Z with (Zdigits2 (Z.pos m) + e)%Z by lia.
  rewrite (canonical_fexp m e Cm).
  replace (e - (-52 + e))%Z with 52%Z by lia.
  rewrite Z.div_mul, Z.mod_mul by lia.
  change (loc_of 0 (2 ^ 52)) with loc_Exact. cbn [round_nearest_even].
  unfold rounded.
  destruct (Z.eqb_spec (Z.pos m) 0); [lia|].
  destruct (Z.eqb_spec (Z.pos m) (2 ^ 53)); [lia|].
  destruct (Z.leb_spec e 971); [reflexivity | lia].
Qed.

End Monotone.

(** ** The progress bar *)

Lemma nonneg_finite_cases (x : Js.number) :
  Js.is_finite x = true -> (0 <= Js.to_Q x)%Q ->
  (exists s, x = S754_zero s) \/ exists m e, x = S754_finite false m e.
Proof.
  intros Hf H0. destruct x as [s|s| |s m e]; try discriminate Hf; [eauto|].
  destruct s; [|eauto]. pose proof (RoundingError.to_Q_neg m e) as Hn.
  exfalso. apply (Qlt_irrefl 0). apply Qle_lt_trans with (1 := H0). exact Hn.
Qed.

Lemma positive_finite_cases (x : Js.number) :
  Js.is_finite x = true -> (0 < Js.to_Q x)%Q ->
  exists m e, x = S754_finite false m e.
Proof.
  intros Hf H0.
  destruct (nonneg_finite_cases x Hf (Qlt_le_weak _ _ H0)) as [(s & ->)|H]; [|exact H].
  discriminate H0.
Qed.

Lemma canonical_100 : canonical 7036874417766400 (-46).
Proof. unfold canonical. lia. Qed.

(** X13.  For a finite duration [d > 0] and a position [t] in [[0, d]],
    the progress [handleTimeUpdate] stores is a finite number between 0 and
    100, bounds included: the two roundings of [(t / d) * 100] never carry
    it past 100, so the bar is never wider than its track.  At [t = d] it
    is exactly 100 and the width reads 100%; at [t = 0] the width reads
    0%. *)
Theorem progress_between_0_and_100 (w : World) (v : HTMLVideoElement) :
  videoRef w = Some v ->
  let t := elCurrentTime v in
  let d := elDuration v in
  Js.is_finite t = true -> Js.is_finite d = true ->
  (0 < Js.to_Q d)%Q -> (0 <= Js.to_Q t)%Q -> (Js.to_Q t <= Js.to_Q d)%Q ->
  let s' := state (handleTimeUpdate w) in
  Js.is_finite (progress s') = true /\
  (0 <= Js.to_Q (progress s'))%Q /\
  (Js.to_Q (progress s') <= 100)%Q /\
  (t = d -> progress s' = Js.of_Z 100 /\ progressWidth s' = "100%") /\
  ((Js.to_Q t == 0)%Q -> progressWidth s' = "0%").
Proof.
  intros Hv t d Ft Fd Hd Ht0 Htd s'.
  destruct (handleTimeUpdate_stores w v Hv) as (_ & Hp). fold t d s' in Hp.
  unfold progressWidth. rewrite Hp, of_Z_100. clear Hp.
  destruct (positive_finite_cases d Fd Hd) as (md & ed & Ed).
  assert (H100 : (Js.to_Q (S754_finite false 7036874417766400 (-46)) == 100)%Q)
    by (vm_compute; reflexivity).
  destruct (nonneg_finite_cases t Ft Ht0) as [(st & Et)|(mt & et & Et)].
  - (* position zero *)
    rewrite Et, Ed. cbn [Js.div SFdiv Js.mul SFmul xorb].
    split; [reflexivity|]. split; [discriminate|]. split; [discriminate|].
    split; [intros E; discriminate E|].
    intros _. destruct st; reflexivity.
  - rewrite Et, Ed in Htd |- *.
    destruct (Monotone.div_le_one mt md et ed Htd) as (Q1 & Q2 & Q3 & Q4).
    assert (Hbounds :
      Js.is_finite (Js.mul (Js.div (S754_finite false mt et) (S754_finite false md ed))
                           (S754_finite false 7036874417766400 (-46))) = true /\
      (0 <= Js.to_Q (Js.mul (Js.div (S754_finite false mt et) (S754_finite false md ed))
                            (S754_finite false 7036874417766400 (-46))))%Q /\
      (Js.to_Q (Js.mul (Js.div (S754_finite false mt et) (S754_finite false md ed))
                       (S754_finite false 7036874417766400 (-46))) <= 100)%Q).
    { destruct Q4 as [Ez|(mq & eq & Eq & Cq)].
      - rewrite Ez. cbn [Js.mul SFmul xorb]. repeat split; discriminate.
      - rewrite Eq in Q3 |- *.
        assert (HX : (Js.to_Q (S754_finite false mq eq) *
                      Js.to_Q (S754_finite false 7036874417766400 (-46))
                      <= Js.to_Q (S754_finite false 7036874417766400 (-46)))%Q).
        { rewrite H100. set (q := Js.to_Q (S754_finite false mq eq)) in *.
          clearbody q. lra. }
        destruct (Monotone.mul_le mq _ _ eq _ _ Cq canonical_100 canonical_100 HX)
          as (M1 & M2 & M3).
        rewrite H100 in M3. repeat split; assumption. }
    destruct Hbounds as (P1 & P2 & P3).
    split; [exact P1|]. split; [exact P2|]. split; [exact P3|]. split.
    + intros E. injection E as -> ->. rewrite Monotone.div_self.
      split; vm_compute; reflexivity.
    + intros E. exfalso. pose proof (RoundingError.to_Q_pos mt et) as Hpos.
      rewrite E in Hpos. discriminate Hpos.
Qed.

Lemma progress_between_0_and_100_witness :
  let w := video_reports (Js.of_Z 7) (Js.of_Z 7) mounted in
  (Js.to_Q (progress (state (handleTimeUpdate w))) <= 100)%Q /\
  progressWidth (state (handleTimeUpdate w)) = "100%".
Proof.
  intros w.
  pose (v := mkVideo "" true false (Js.of_Z 7) (Js.of_Z 7) (Js.of_Z 1) []).
  assert (Hd : (0 < Js.to_Q (elDuration v))%Q) by (vm_compute; reflexivity).
  assert (Ht0 : (0 <= Js.to_Q (elCurrentTime v))%Q) by (vm_compute; discriminate).
  assert (Htd : (Js.to_Q (elCurrentTime v) <= Js.to_Q (elDuration v))%Q)
    by (vm_compute; discriminate).
  destruct (progress_between_0_and_100 w v eq_refl eq_refl eq_refl Hd Ht0 Htd)
    as (_ & _ & H3 & H4 & _).
  split; [exact H3 | exact (proj2 (H4 eq_refl))].
Defined.

(** ** Seeking *)

Lemma handleProgressClick_command (clientX left width : Js.number) (w : World)
    (v : HTMLVideoElement) :
  videoRef w = Some v ->
  let newTime := Js.mul (Js.div (Js.sub clientX left) width) (elDuration v) in
  state (handleProgressClick clientX left width w) = state w /\
  commands (handleProgressClick clientX left width w)
  = (commands w ++ [SetCurrentTime newTime])%list.
Proof.
  intros Hv. destruct w as [s vr cs cl dp nid]. simpl in *. subst vr.
  split; reflexivity.
Qed.

(** X14.  A click inside the rectangle of its target (the bar, or the
    filled part of it when the click lands there), at
    [0 <= clickX <= width] with [width > 0], on an element of finite
    duration [d >= 0], writes to [currentTime] a finite time between 0 and
    [d], bounds included: the roundings of [(clickX / width) * d] never
    carry it past the duration.  A click on the right edge of the
    rectangle writes [d] itself, and one on its left edge writes 0.  The handler issues that one write and leaves the hooks as
    they are: the bar moves only with the next "timeupdate". *)
Theorem handleProgressClick_within_duration
    (clientX left width : Js.number) (w : World) (v : HTMLVideoElement) :
  videoRef w = Some v ->
  let clickX := Js.sub clientX left in
  let d := elDuration v in
  Js.is_finite clickX = true -> Js.is_finite width = true ->
  Js.is_finite d = true -> Js.valid d = true ->
  (0 <= Js.to_Q clickX)%Q -> (Js.to_Q clickX <= Js.to_Q width)%Q ->
  (0 < Js.to_Q width)%Q -> (0 <= Js.to_Q d)%Q ->
  let newTime := Js.mul (Js.div clickX width) d in
  let w' := handleProgressClick clientX left width w in
  state w' = state w /\
  commands w' = (commands w ++ [SetCurrentTime newTime])%list /\
  Js.is_finite newTime = true /\
  (0 <= Js.to_Q newTime)%Q /\
  (Js.to_Q newTime <= Js.to_Q d)%Q /\
  (clickX = width -> newTime = d) /\
  ((Js.to_Q clickX == 0)%Q -> (Js.to_Q newTime == 0)%Q).
Proof.
  intros Hv clickX d Fx Fw Fd Vd Hx0 Hxw Hw Hd0 newTime w'.
  destruct (handleProgressClick_command clientX left width w v Hv) as (Hs & Hc).
  fold clickX d newTime w' in Hs, Hc.
  split; [exact Hs|]. split; [exact Hc|]. clear Hs Hc w'.
  destruct (positive_finite_cases width Fw Hw) as (mw & ew & Ew).
  unfold newTime. clear newTime. rewrite Ew in *. clear Ew.
  destruct (nonneg_finite_cases d Fd Hd0) as [(sd & Ed)|(md & ed & Ed)];
    destruct (nonneg_finite_cases clickX Fx Hx0) as [(sx & Ex)|(mx & ex & Ex)];
    rewrite Ed, Ex in *.
  - (* both zero *)
    cbn [Js.div SFdiv Js.mul SFmul xorb Js.is_finite Js.to_Q].
    repeat split; discriminate.
  - (* duration zero *)
    destruct (Monotone.div_le_one mx mw ex ew Hxw) as (Q1 & _ & _ & Q4).
    assert (Hz : forall q, Js.is_finite q = true ->
                 Js.is_finite (Js.mul q (S754_zero sd)) = true /\
                 Js.to_Q (Js.mul q (S754_zero sd)) = 0%Q).
    { intros q Hq. destruct q; try discriminate Hq; split; reflexivity. }
    destruct (Hz _ Q1) as (Z1 & Z2). rewrite Z2.
    split; [exact Z1|]. split; [discriminate|]. split; [discriminate|]. split.
    + intros E. injection E as -> ->. rewrite Monotone.div_self. reflexivity.
    + intros _. reflexivity.
  - (* left edge *)
    cbn [Js.div SFdiv Js.mul SFmul xorb Js.is_finite Js.to_Q].
    split; [reflexivity|]. split; [discriminate|].
    split; [apply Qlt_le_weak, RoundingError.to_Q_pos|].
    split; [intros E; discriminate E|]. intros _. reflexivity.
  - pose proof (Monotone.valid_canonical false md ed Vd) as Cd.
    destruct (Monotone.div_le_one mx mw ex ew Hxw) as (Q1 & Q2 & Q3 & Q4).
    split; [|split; [|split; [|split]]].
    + destruct Q4 as [Ez|(mq & eq & Eq & Cq)]; [rewrite Ez; reflexivity|].
      rewrite Eq in Q3 |- *.
      apply (Monotone.mul_le mq md md eq ed ed Cq Cd Cd).
      pose proof (RoundingError.to_Q_pos md ed) as Hp.
      set (q := Js.to_Q (S754_finite false mq eq)) in *.
      set (dd := Js.to_Q (S754_finite false md ed)) in *.
      clearbody q dd. nra.
    + destruct Q4 as [Ez|(mq & eq & Eq & Cq)]; [rewrite Ez; discriminate|].
      rewrite Eq in Q3 |- *.
      apply (Monotone.mul_le mq md md eq ed ed Cq Cd Cd).
      pose proof (RoundingError.to_Q_pos md ed) as Hp.
      set (q := Js.to_Q (S754_finite false mq eq)) in *.
      set (dd := Js.to_Q (S754_finite false md ed)) in *.
      clearbody q dd. nra.
    + destruct Q4 as [Ez|(mq & eq & Eq & Cq)];
        [rewrite Ez; apply Qlt_le_weak, RoundingError.to_Q_pos|].
      rewrite Eq in Q3 |- *.
      apply (Monotone.mul_le mq md md eq ed ed Cq Cd Cd).
      pose proof (RoundingError.to_Q_pos md ed) as Hp.
      set (q := Js.to_Q (S754_finite false mq eq)) in *.
      set (dd := Js.to_Q (S754_finite false md ed)) in *.
      clearbody q dd. nra.
    + intros E. injection E as -> ->. rewrite Monotone.div_self.
      apply Monotone.mul_one_l, Cd.
    + intros E. exfalso. pose proof (RoundingError.to_Q_pos mx ex) as Hpos.
      rewrite E in Hpos. discriminate Hpos.
Qed.

Lemma handleProgressClick_within_duration_witness :
  let w := video_reports Js.zero (Js.of_Z 120) mounted in
  let newTime := Js.mul (Js.div (Js.sub (Js.of_Z 150) (Js.of_Z 100)) (Js.of_Z 200))
                        (Js.of_Z 120) in
  commands (handleProgressClick (Js.of_Z 150) (Js.of_Z 100) (Js.of_Z 200) w)
  = [SetCurrentTime newTime] /\
  (Js.to_Q newTime <= Js.to_Q (Js.of_Z 120))%Q.
Proof.
  intros w newTime.
  pose (v := mkVideo "" true false Js.zero (Js.of_Z 120) (Js.of_Z 1) []).
  assert (Fx : Js.is_finite (Js.sub (Js.of_Z 150) (Js.of_Z 100)) = true)
    by (vm_compute; reflexivity).
  assert (Hx0 : (0 <= Js.to_Q (Js.sub (Js.of_Z 150) (Js.of_Z 100)))%Q)
    by (vm_compute; discriminate).
  assert (Hxw : (Js.to_Q (Js.sub (Js.of_Z 150) (Js.of_Z 100)) <= Js.to_Q (Js.of_Z 200))%Q)
    by (vm_compute; discriminate).
  assert (Hw : (0 < Js.to_Q (Js.of_Z 200))%Q) by (vm_compute; reflexivity).
  assert (Hd0 : (0 <= Js.to_Q (elDuration v))%Q) by (vm_compute; discriminate).
  destruct (handleProgressClick_within_duration (Js.of_Z 150) (Js.of_Z 100) (Js.of_Z 200)
              w v eq_refl Fx eq_refl eq_refl eq_refl Hx0 Hxw Hw Hd0)
    as (_ & H2 & _ & _ & H5 & _).
  split; [exact H2 | exact H5].
Defined.



(** ** Whole seconds *)

Module IntegerArithmetic.

Import Js Rounding ToStringProof IndexArithmetic.







End IntegerArithmetic.

(** ** The skip buttons *)



